(** * automoss: the job task [process_job] (apps/jobs/tasks.py)

    A shallow embedding of the Celery task that drives one MOSS job through
    its attempt loop, and of the collaborators it talks to: the Django
    tables it reads and writes, the file system below the upload directory,
    the MOSS client, the pinger, the clock and the logger.

    - The tables, the log, the network and the sleeps performed form the
      [World]; the local variables of [process_job] form, with the world,
      the [Frame] that the statements of the function transform.
    - The statements are written in a state-and-exception monad [M], so that
      [try ... except], [break] and [try ... finally] keep the shape they
      have in the source.
    - What the external collaborators answer is given by an [Env] of
      oracles, one answer per attempt. *)

From stdpp Require Import base option list strings gmap.
From Stdlib Require Import ZArith QArith Qminmax Qround Lia Lqa.

Close Scope Q_scope.
Close Scope Z_scope.
Open Scope string_scope.
Open Scope list_scope.

(** ** Constants of [settings.py] *)

(** Modelled from the spec: [settings.py] is not among the sources; the job
    statuses are the states of the job state machine - [INQUEUE_STATUS] is
    the initial (queued) one. *)
Inductive Status :=
| INQUEUE_STATUS
| UPLOADING_STATUS
| PROCESSING_STATUS
| PARSING_STATUS
| COMPLETED_STATUS
| FAILED_STATUS.

(** Modelled from the spec: the event kinds of the event log, as imported by
    the task from [settings.py]. *)
Inductive EventType :=
| INQUEUE_EVENT
| UPLOADING_EVENT
| PROCESSING_EVENT
| PARSING_EVENT
| COMPLETED_EVENT
| FAILED_EVENT
| RETRY_EVENT
| ERROR_EVENT.

(** Modelled from the spec: [moss/pinger.py] is not among the sources; the
    three load levels of the load prober. *)
Inductive LoadStatus := NORMAL | UNDER_LOAD | DOWN.

#[global] Instance Status_eq_dec : EqDecision Status.
Proof. solve_decision. Defined.
#[global] Instance EventType_eq_dec : EqDecision EventType.
Proof. solve_decision. Defined.
#[global] Instance LoadStatus_eq_dec : EqDecision LoadStatus.
Proof. solve_decision. Defined.

(** The remaining constants the task imports. *)
Record Settings := {
  SUBMISSION_TYPES : list string;
  FILES_NAME : string;
  JOB_UPLOAD_TEMPLATE : string -> string;   (* [.format(job_id=...)] *)
  SUPPORTED_LANGUAGES : gmap string (string * string);
  DEBUG : bool;
  MIN_RETRY_TIME : Q;
  MAX_RETRY_TIME : Q;
  MAX_RETRY_DURATION : Q;
  EXPONENTIAL_BACKOFF_BASE_RANGE : Q * Q;
  FIRST_RETRY_INSTANT : bool
}.

(** ** Exceptions *)

(** Modelled from the spec: the exception classes of [moss/moss.py] are
    disjoint classes (no one is a subclass of another); [OtherException]
    stands for every other subclass of [Exception]. *)
Inductive Exn :=
| RecoverableMossException (msg : string)
| socket_error (msg : string)
| EmptyResponse (msg : string)
| FatalMossException (msg : string)
| OtherException (msg : string)
| DoesNotExist.

(** ** Rows of the tables *)

Definition datetime := Z.

Record Job := {
  job_id : string;
  status : Status;
  start_date : option datetime;
  completion_date : option datetime;
  language : string;
  max_until_ignored : Z;
  max_displayed_matches : Z;
  moss_id : Z                                (* [job.user.moss_id] *)
}.

Record Submission := {
  sub_pk : nat;
  sub_job : string;                          (* the job it belongs to *)
  submission_id : string
}.

(** Messages: the literal ones as text, the f-strings by their holes. *)
Inductive Message :=
| Text (s : string)
| NoMessage                                  (* [message] not passed *)
| StartingJob (id : string) (st : Status)
| GeneratedUrl (u : string)
| ResultFinishedParsing (n : nat)
| NotUnderLoad (ping average_ping : Q) (id : string)
| UnderLoad (ping average_ping : Q) (id : string)
| IsDown (ping average_ping : Q) (id : string)
| UnknownError (e : Exn)
| RetryingIn (attempt : nat) (error : Exn) (time_to_sleep : Q)
| JobInfo (num_files num_attempts : nat).

Record JobEvent := {
  ev_job : string;
  ev_type : EventType;
  ev_message : Message
}.

(** What MOSS reports: a [Result] is a url and its matches. *)
Definition LineMatches := list (list Z).

Record RawMatch := {
  name_1 : string;
  name_2 : string;
  percentage_1 : Z;
  percentage_2 : Z;
  rm_lines_matched : Z;
  rm_line_matches : LineMatches
}.

Record Result := {
  res_url : string;
  res_matches : list RawMatch
}.

Record MOSSResult := {
  mr_pk : nat;
  mr_job : string;
  mr_url : string
}.

Record Match := {
  moss_result : nat;                         (* pk of the [MOSSResult] *)
  first_submission : Submission;
  second_submission : Submission;
  first_percentage : Z;
  second_percentage : Z;
  lines_matched : Z;
  line_matches : LineMatches
}.

(** ** The world outside the function *)

Inductive LogLevel := LDEBUG | LINFO | LWARNING | LERROR.

Inductive NetCall :=
| CallGenerateUrl (attempt : nat)
| CallGenerateReport (attempt : nat) (u : option string)
| CallDetermineLoad (attempt : nat)
| CallPing.

Record World := {
  job_table : gmap string Job;               (* keyed by [job_id] *)
  submission_table : list Submission;        (* in primary-key order *)
  jobevent_table : list JobEvent;            (* oldest first *)
  mossresult_table : list MOSSResult;
  match_table : list Match;
  saves : list Job;                          (* every [job.save()], in order *)
  network : list NetCall;                    (* every call to MOSS, in order *)
  slept : list Q;                            (* every [time.sleep], in order *)
  log : list (LogLevel * Message);
  clock_reads : nat;                         (* calls of [now()] so far *)
  final_creates : nat                        (* creates tried by the finalization *)
}.

(** The callbacks [MOSS.generate_url] may fire while it runs. *)
Inductive Hook :=
| on_upload_start
| on_upload_finish
| on_processing_start
| on_processing_finish.

(** The arguments [generate_url] receives. *)
Record UrlRequest := {
  rq_user_id : Z;
  rq_language : string;
  rq_paths : gmap string (list string);
  rq_max_until_ignored : Z;
  rq_max_displayed_matches : Z
}.

(** The collaborators.  Each answer is indexed by the attempt during which
    it is asked; a call to MOSS either returns or raises. *)
Record Env := {
  now : nat -> datetime;                     (* the n-th reading of the clock *)
  isdir : string -> bool;
  listdir : string -> list string;
  getsize : string -> Z;
  is_valid_moss_url : option string -> bool;
  generate_url : nat -> UrlRequest -> list Hook * (Exn + string);
  generate_report : nat -> option string -> Exn + Result;
  determine_load : nat -> LoadStatus * Q * Q;
  retry_schedule : list (nat * Q);           (* what [retry(...)] yields *)
  db_fault : nat -> option Exn               (* n-th create of the finalization *)
}.

(** ** Updating the world *)

Definition persist (j : Job) (w : World) : World :=
  {| job_table := <[job_id j := j]> (job_table w);
     submission_table := submission_table w;
     jobevent_table := jobevent_table w;
     mossresult_table := mossresult_table w;
     match_table := match_table w;
     saves := saves w ++ [j];
     network := network w;
     slept := slept w;
     log := log w;
     clock_reads := clock_reads w;
     final_creates := final_creates w |}.

Definition add_event (e : JobEvent) (w : World) : World :=
  {| job_table := job_table w;
     submission_table := submission_table w;
     jobevent_table := jobevent_table w ++ [e];
     mossresult_table := mossresult_table w;
     match_table := match_table w;
     saves := saves w;
     network := network w;
     slept := slept w;
     log := log w;
     clock_reads := clock_reads w;
     final_creates := final_creates w |}.

Definition add_mossresult (r : MOSSResult) (w : World) : World :=
  {| job_table := job_table w;
     submission_table := submission_table w;
     jobevent_table := jobevent_table w;
     mossresult_table := mossresult_table w ++ [r];
     match_table := match_table w;
     saves := saves w;
     network := network w;
     slept := slept w;
     log := log w;
     clock_reads := clock_reads w;
     final_creates := final_creates w |}.

Definition add_match (m : Match) (w : World) : World :=
  {| job_table := job_table w;
     submission_table := submission_table w;
     jobevent_table := jobevent_table w;
     mossresult_table := mossresult_table w;
     match_table := match_table w ++ [m];
     saves := saves w;
     network := network w;
     slept := slept w;
     log := log w;
     clock_reads := clock_reads w;
     final_creates := final_creates w |}.

Definition contact (c : NetCall) (w : World) : World :=
  {| job_table := job_table w;
     submission_table := submission_table w;
     jobevent_table := jobevent_table w;
     mossresult_table := mossresult_table w;
     match_table := match_table w;
     saves := saves w;
     network := network w ++ [c];
     slept := slept w;
     log := log w;
     clock_reads := clock_reads w;
     final_creates := final_creates w |}.

Definition add_sleep (t : Q) (w : World) : World :=
  {| job_table := job_table w;
     submission_table := submission_table w;
     jobevent_table := jobevent_table w;
     mossresult_table := mossresult_table w;
     match_table := match_table w;
     saves := saves w;
     network := network w;
     slept := slept w ++ [t];
     log := log w;
     clock_reads := clock_reads w;
     final_creates := final_creates w |}.

Definition add_log (l : LogLevel * Message) (w : World) : World :=
  {| job_table := job_table w;
     submission_table := submission_table w;
     jobevent_table := jobevent_table w;
     mossresult_table := mossresult_table w;
     match_table := match_table w;
     saves := saves w;
     network := network w;
     slept := slept w;
     log := log w ++ [l];
     clock_reads := clock_reads w;
     final_creates := final_creates w |}.

Definition tick (w : World) : World :=
  {| job_table := job_table w;
     submission_table := submission_table w;
     jobevent_table := jobevent_table w;
     mossresult_table := mossresult_table w;
     match_table := match_table w;
     saves := saves w;
     network := network w;
     slept := slept w;
     log := log w;
     clock_reads := S (clock_reads w);
     final_creates := final_creates w |}.

Definition count_create (w : World) : World :=
  {| job_table := job_table w;
     submission_table := submission_table w;
     jobevent_table := jobevent_table w;
     mossresult_table := mossresult_table w;
     match_table := match_table w;
     saves := saves w;
     network := network w;
     slept := slept w;
     log := log w;
     clock_reads := clock_reads w;
     final_creates := S (final_creates w) |}.

(** Assignments to the attributes of the [job] object. *)
Definition with_status (s : Status) (j : Job) : Job :=
  {| job_id := job_id j; status := s; start_date := start_date j;
     completion_date := completion_date j; language := language j;
     max_until_ignored := max_until_ignored j;
     max_displayed_matches := max_displayed_matches j; moss_id := moss_id j |}.

Definition with_start_date (t : datetime) (j : Job) : Job :=
  {| job_id := job_id j; status := status j; start_date := Some t;
     completion_date := completion_date j; language := language j;
     max_until_ignored := max_until_ignored j;
     max_displayed_matches := max_displayed_matches j; moss_id := moss_id j |}.

Definition with_completion_date (t : datetime) (j : Job) : Job :=
  {| job_id := job_id j; status := status j; start_date := start_date j;
     completion_date := Some t; language := language j;
     max_until_ignored := max_until_ignored j;
     max_displayed_matches := max_displayed_matches j; moss_id := moss_id j |}.

(** ** The frame of [process_job] and its monad *)

Record Frame := {
  world : World;
  job : Job;
  paths : gmap string (list string);
  url : option string;
  result : option Result;
  num_attempts : nat
}.

Definition on_world (f : World -> World) (fr : Frame) : Frame :=
  {| world := f (world fr); job := job fr; paths := paths fr; url := url fr;
     result := result fr; num_attempts := num_attempts fr |}.

Definition on_job (f : Job -> Job) (fr : Frame) : Frame :=
  {| world := world fr; job := f (job fr); paths := paths fr; url := url fr;
     result := result fr; num_attempts := num_attempts fr |}.

Definition with_paths (p : gmap string (list string)) (fr : Frame) : Frame :=
  {| world := world fr; job := job fr; paths := p; url := url fr;
     result := result fr; num_attempts := num_attempts fr |}.

Definition with_url (u : option string) (fr : Frame) : Frame :=
  {| world := world fr; job := job fr; paths := paths fr; url := u;
     result := result fr; num_attempts := num_attempts fr |}.

Definition with_result (r : option Result) (fr : Frame) : Frame :=
  {| world := world fr; job := job fr; paths := paths fr; url := url fr;
     result := r; num_attempts := num_attempts fr |}.

Definition with_num_attempts (n : nat) (fr : Frame) : Frame :=
  {| world := world fr; job := job fr; paths := paths fr; url := url fr;
     result := result fr; num_attempts := n |}.

(** A statement either completes with a value or raises; either way it may
    have changed the frame. *)
Inductive Res (A : Type) :=
| Val (a : A)
| Raise (e : Exn).
Arguments Val {A} a.
Arguments Raise {A} e.

Definition M (A : Type) : Type := Frame -> Res A * Frame.

Definition ret {A} (a : A) : M A := fun fr => (Val a, fr).

Definition bind {A B} (c : M A) (k : A -> M B) : M B := fun fr =>
  match c fr with
  | (Val a, fr') => k a fr'
  | (Raise e, fr') => (Raise e, fr')
  end.

Definition raise {A} (e : Exn) : M A := fun fr => (Raise e, fr).

Definition modify (f : Frame -> Frame) : M unit := fun fr => (Val tt, f fr).

Definition get : M Frame := fun fr => (Val fr, fr).

(** [try: body finally: fin] - [fin] runs whatever [body] did. *)
Definition try_finally {A} (body : M A) (fin : M unit) : M A := fun fr =>
  match body fr with
  | (r, fr') =>
      match fin fr' with
      | (Val _, fr'') => (r, fr'')
      | (Raise e, fr'') => (Raise e, fr'')
      end
  end.

#[global] Instance M_ret : MRet M := @ret.
#[global] Instance M_bind : MBind M := fun A B k c => bind c k.

(** [try: body except e: handler e] *)
Definition try_except {A} (body : M A) (handler : Exn -> M A) : M A := fun fr =>
  match body fr with
  | (Val a, fr') => (Val a, fr')
  | (Raise e, fr') => handler e fr'
  end.

(** ** [os.path.join] for two components (posixpath) *)

Definition startswith_sep (s : string) : bool :=
  match s with
  | String c _ => Ascii.eqb c (Ascii.ascii_of_nat 47)
  | EmptyString => false
  end.

Fixpoint endswith_sep (s : string) : bool :=
  match s with
  | EmptyString => false
  | String c EmptyString => Ascii.eqb c (Ascii.ascii_of_nat 47)
  | String _ s' => endswith_sep s'
  end.

Definition path_join (a b : string) : string :=
  if startswith_sep b then b
  else if (String.length a =? 0)%nat || endswith_sep a then a ++ b
  else a ++ "/" ++ b.

(** ** The task *)

Section Task.

Variable cfg : Settings.
Variable env : Env.

(** *** Statements on the collaborators *)

Definition job_save : M unit :=
  modify (fun fr => on_world (persist (job fr)) fr).

Definition JobEvent_create (type : EventType) (message : Message) : M unit :=
  modify (fun fr =>
    on_world (add_event {| ev_job := job_id (job fr); ev_type := type;
                           ev_message := message |}) fr).

Definition set_status (s : Status) : M unit := modify (on_job (with_status s)).

Definition logger (level : LogLevel) (msg : Message) : M unit :=
  modify (on_world (add_log (level, msg))).

Definition time_sleep (t : Q) : M unit := modify (on_world (add_sleep t)).

Definition read_clock : M datetime := fun fr =>
  (Val (now env (clock_reads (world fr))), on_world tick fr).

(** *** Lines 74-86: the non-empty files of every submission type *)

Definition collect_files (path : string) : list string :=
  fold_left
    (fun acc f =>
       let file_path := path_join path f in
       if (0 <? getsize env file_path)%Z then acc ++ [file_path] else acc)
    (listdir env path) [].

Definition collect_paths (base_dir : string) : gmap string (list string) :=
  fold_left
    (fun acc file_type =>
       let path := path_join base_dir file_type in
       if isdir env path then <[file_type := collect_files path]> acc else acc)
    (SUBMISSION_TYPES cfg) ∅.

(** [not paths.get(FILES_NAME)]: the key is absent or its list is empty. *)
Definition no_files (p : gmap string (list string)) : bool :=
  match p !! FILES_NAME cfg with
  | None | Some [] => true
  | Some (_ :: _) => false
  end.

(** *** Lines 110-132: the callbacks and the call of [MOSS.generate_url] *)

Definition fire (h : Hook) : M unit :=
  match h with
  | on_upload_start =>
      JobEvent_create UPLOADING_EVENT (Text "Started uploading files to MOSS")
  | on_upload_finish =>
      JobEvent_create UPLOADING_EVENT (Text "Finished uploading")
  | on_processing_start =>
      set_status PROCESSING_STATUS;;
      job_save;;
      JobEvent_create PROCESSING_EVENT (Text "Started generating similarity report")
  | on_processing_finish =>
      JobEvent_create PROCESSING_EVENT (Text "Finished processing")
  end.

Fixpoint fire_all (hs : list Hook) : M unit :=
  match hs with
  | [] => mret tt
  | h :: hs' => fire h;; fire_all hs'
  end.

Definition MOSS_generate_url (attempt : nat) : M string :=
  fr ← get;
  match SUPPORTED_LANGUAGES cfg !! language (job fr) with
  | None => raise (OtherException "KeyError")
  | Some (_, lang) =>
      modify (on_world (contact (CallGenerateUrl attempt)));;
      let call := generate_url env attempt
                    {| rq_user_id := moss_id (job fr);
                       rq_language := lang;
                       rq_paths := paths fr;
                       rq_max_until_ignored := max_until_ignored (job fr);
                       rq_max_displayed_matches := max_displayed_matches (job fr) |} in
      fire_all (fst call);;
      match snd call with
      | inl e => raise e
      | inr u => mret u
      end
  end.

Definition MOSS_generate_report (attempt : nat) : M Result :=
  fr ← get;
  modify (on_world (contact (CallGenerateReport attempt (url fr))));;
  match generate_report env attempt (url fr) with
  | inl e => raise e
  | inr r => mret r
  end.

(** *** Lines 102-149: the body of the [try] *)

(** Lines 104-134: a url is generated unless a valid one is at hand. *)
Definition url_phase (attempt : nat) : M unit :=
  fr ← get;
  if is_valid_moss_url env (url fr) then mret tt
  else
    set_status UPLOADING_STATUS;;
    job_save;;
    u ← MOSS_generate_url attempt;
    modify (with_url (Some u));;
    logger LINFO (GeneratedUrl u).

(** Lines 136-147: the report behind the url is fetched and parsed. *)
Definition parse_phase (attempt : nat) : M unit :=
  logger LINFO (Text "Start parsing report");;
  set_status PARSING_STATUS;;
  job_save;;
  JobEvent_create PARSING_EVENT (Text "Start parsing report");;
  r ← MOSS_generate_report attempt;
  modify (with_result (Some r));;
  logger LINFO (ResultFinishedParsing (length (res_matches r)));;
  JobEvent_create PARSING_EVENT (ResultFinishedParsing (length (res_matches r))).

Definition try_body (attempt : nat) : M unit :=
  url_phase attempt;; parse_phase attempt.

(** *** Lines 151-180: the [except] clauses *)

(** How an iteration goes on after the [try] statement: [break], or fall
    through to line 183 with [error] bound. *)
Inductive Flow :=
| Break
| Fallthrough (error : Exn).

Definition except_clauses (attempt : nat) (e : Exn) : M Flow :=
  match e with
  | RecoverableMossException _ | socket_error _ => mret (Fallthrough e)
  | EmptyResponse _ =>
      fr ← get;
      modify (on_world (contact (CallDetermineLoad attempt)));;
      let '(load_status, ping, average_ping) := determine_load env attempt in
      match load_status with
      | NORMAL =>
          logger LDEBUG (NotUnderLoad ping average_ping (job_id (job fr)));;
          mret Break
      | UNDER_LOAD =>
          logger LDEBUG (UnderLoad ping average_ping (job_id (job fr)));;
          mret (Fallthrough e)
      | DOWN =>
          logger LDEBUG (IsDown ping average_ping (job_id (job fr)));;
          mret (Fallthrough e)
      end
  | FatalMossException _ => mret Break
  | OtherException _ | DoesNotExist =>
      logger LERROR (UnknownError e);;
      mret Break
  end.

(** *** Lines 99-189: the attempt loop *)

Definition attempt (n : nat) : M Flow :=
  modify (with_num_attempts n);;
  try_except (try_body n;; mret Break) (except_clauses n).

(** Lines 183-189: the event of the retry and the wait. *)
Definition retry_tail (n : nat) (error : Exn) (time_to_sleep : Q) : M unit :=
  logger LWARNING (RetryingIn n error time_to_sleep);;
  JobEvent_create RETRY_EVENT (RetryingIn n error time_to_sleep);;
  time_sleep time_to_sleep.

Fixpoint attempt_loop (schedule : list (nat * Q)) : M unit :=
  match schedule with
  | [] => mret tt
  | (n, time_to_sleep) :: rest =>
      flow ← attempt n;
      match flow with
      | Break => mret tt
      | Fallthrough error =>
          retry_tail n error time_to_sleep;;
          attempt_loop rest
      end
  end.

(** *** Lines 196-228: the finalization *)

(** A create issued by the finalization: the persistence layer may refuse
    it, and then the exception travels up through the [finally]. *)
Definition guarded_create (op : M unit) : M unit := fun fr =>
  let fr' := on_world count_create fr in
  match db_fault env (final_creates (world fr)) with
  | Some e => (Raise e, fr')
  | None => op fr'
  end.

(** [Submission.objects.filter(job=job, submission_id=name).first()] *)
Definition find_submission (jid name : string) (tbl : list Submission)
  : option Submission :=
  head (filter (fun s => sub_job s = jid /\ submission_id s = name) tbl).

Definition Submission_first (name : string) : M (option Submission) :=
  fr ← get;
  mret (find_submission (job_id (job fr)) name (submission_table (world fr))).

Definition MOSSResult_create (u : string) : M nat := fun fr =>
  let fr' := on_world count_create fr in
  match db_fault env (final_creates (world fr)) with
  | Some e => (Raise e, fr')
  | None =>
      let pk := length (mossresult_table (world fr)) in
      (Val pk,
       on_world (add_mossresult {| mr_pk := pk; mr_job := job_id (job fr);
                                   mr_url := u |}) fr')
  end.

Definition Match_create (pk : nat) (a b : Submission) (m : RawMatch) : M unit :=
  guarded_create
    (modify (on_world (add_match
       {| moss_result := pk;
          first_submission := a;
          second_submission := b;
          first_percentage := percentage_1 m;
          second_percentage := percentage_2 m;
          lines_matched := rm_lines_matched m;
          line_matches := rm_line_matches m |}))).

(** The body of [for match in result.matches]. *)
Definition materialize_match (pk : nat) (m : RawMatch) : M unit :=
  first ← Submission_first (name_1 m);
  second ← Submission_first (name_2 m);
  match first, second with
  | Some a, Some b => Match_create pk a b m
  | _, _ => mret tt
  end.

Fixpoint for_each {A} (body : A -> M unit) (l : list A) : M unit :=
  match l with
  | [] => mret tt
  | x :: l' => body x;; for_each body l'
  end.

Definition finalization_try : M (option string) :=
  fr ← get;
  match result fr with
  | None =>
      set_status FAILED_STATUS;;
      guarded_create (JobEvent_create FAILED_EVENT NoMessage);;
      mret None
  | Some r =>
      pk ← MOSSResult_create (res_url r);
      for_each (materialize_match pk) (res_matches r);;
      guarded_create (JobEvent_create COMPLETED_EVENT NoMessage);;
      set_status COMPLETED_STATUS;;
      mret (Some (res_url r))
  end.

(** Lines 230-255.  With [DEBUG] the block pings MOSS and logs a summary of
    the job (the append to [jobs.log] is left out: nothing reads it). *)
Definition finalization_finally : M unit :=
  job_save;;
  if DEBUG cfg then
    fr ← get;
    modify (on_world (contact CallPing));;
    logger LDEBUG
      (JobInfo (length (default [] (paths fr !! FILES_NAME cfg))) (num_attempts fr))
  else mret tt.

(** Lines 191-231. *)
Definition finalization : M (option string) :=
  t ← read_clock;
  modify (on_job (with_completion_date t));;
  try_finally finalization_try finalization_finally.

(** *** Lines 68-231: everything behind the guard *)

(** Lines 68-86. *)
Definition setup : M unit :=
  t ← read_clock;
  modify (on_job (with_start_date t));;
  fr ← get;
  logger LINFO (StartingJob (job_id (job fr)) (status (job fr)));;
  modify (with_paths (collect_paths (JOB_UPLOAD_TEMPLATE cfg (job_id (job fr))))).

(** Lines 88-93. *)
Definition fail_no_files : M (option string) :=
  set_status FAILED_STATUS;;
  job_save;;
  JobEvent_create FAILED_EVENT (Text "No files supplied");;
  mret None.

Definition run_job : M (option string) :=
  setup;;
  fr ← get;
  if no_files (paths fr) then fail_no_files
  else
    attempt_loop (retry_schedule env);;
    finalization.

(** The frame in which [process_job] starts to work on the job it loaded. *)
Definition initial_frame (j : Job) (w : World) : Frame :=
  {| world := w; job := j; paths := ∅; url := None; result := None;
     num_attempts := 0 |}.

(** *** Lines 55-65: the lookup of the job and the guard *)

(** [Job.objects.get(job_id=job_id)] *)
Definition Job_objects_get (jid : string) (w : World) : option Job :=
  match job_table w !! jid with
  | Some j => if decide (job_id j = jid) then Some j else None
  | None => None
  end.

Definition process_job (jid : string) (w : World) : Res (option string) * World :=
  match Job_objects_get jid w with
  | None => (Raise DoesNotExist, w)
  | Some j =>
      if decide (status j ≠ INQUEUE_STATUS) then (Val None, w)
      else
        let '(r, fr) := run_job (initial_frame j w) in
        (r, world fr)
  end.

End Task.

(** ** The backoff scheduler [retry] (utils/core.py) *)

Module Backoff.

Section Retry.

(** The arguments of [retry(min_time, max_time, base, max_duration,
    first_instant)], and the draws of the random number generator: the n-th
    pair yielded uses [random n], a number of [[0, 1)]. *)
Variables min_time max_time : Q.
Variable base : Q * Q.
Variable max_duration : Q.
Variable first_instant : bool.
Variable random : nat -> Q.

(** [random.uniform(lo, hi)] on the draw [u]. *)
Definition uniform (lo hi u : Q) : Q := (lo + (hi - lo) * u)%Q.

Definition clamp (x : Q) : Q := Qmax min_time (Qmin max_time x).

(** The state of the generator between two pairs: how many it has yielded,
    the last wait and the sum of all waits yielded. *)
Record Generator := {
  yielded : nat;
  previous : Q;
  total : Q
}.

Definition start : Generator := {| yielded := 0; previous := 0%Q; total := 0%Q |}.

(** Modelled from the spec: the generator [retry] is not among the sources.
    Each delay grows from the previous one by a factor drawn from the base
    range and is clamped to [[min_time, max_time]]; the very first one is
    zero when the first attempt is instant. *)
Definition wait_of (g : Generator) : Q :=
  if first_instant && (yielded g =? 0)%nat then 0%Q
  else clamp (previous g * uniform (fst base) (snd base) (random (yielded g)))%Q.

(** Modelled from the spec: one request for the next pair.  The generator is
    exhausted ([None]) once the waits yielded so far plus the next one would
    exceed [max_duration]; attempts are numbered from 1. *)
Definition next (g : Generator) : option ((nat * Q) * Generator) :=
  let wait := wait_of g in
  if Qle_bool (total g + wait) max_duration then
    Some ((S (yielded g), wait),
          {| yielded := S (yielded g); previous := wait;
             total := (total g + wait)%Q |})
  else None.

(** The pairs obtained by asking [n] times, or until exhaustion. *)
Fixpoint pull (n : nat) (g : Generator) : list (nat * Q) :=
  match n with
  | 0 => []
  | S n' =>
      match next g with
      | Some (p, g') => p :: pull n' g'
      | None => []
      end
  end.

(** The sum of the waits of a list of pairs. *)
Definition total_wait (l : list (nat * Q)) : Q :=
  fold_right (fun p acc => (snd p + acc)%Q) 0%Q l.

End Retry.

(** [retry(MIN_RETRY_TIME, MAX_RETRY_TIME, EXPONENTIAL_BACKOFF_BASE_RANGE,
    MAX_RETRY_DURATION, FIRST_RETRY_INSTANT)], asked [n] times. *)
Definition retry (cfg : Settings) (random : nat -> Q) (n : nat) : list (nat * Q) :=
  pull (MIN_RETRY_TIME cfg) (MAX_RETRY_TIME cfg)
       (EXPONENTIAL_BACKOFF_BASE_RANGE cfg) (MAX_RETRY_DURATION cfg)
       (FIRST_RETRY_INSTANT cfg) random n start.

End Backoff.

(** ** Sample runs *)

Module Sample.

Definition cfg : Settings :=
  {| SUBMISSION_TYPES := ["files"; "base_files"];
     FILES_NAME := "files";
     JOB_UPLOAD_TEMPLATE := fun id => String.append "media/" (String.append id "/uploads");
     SUPPORTED_LANGUAGES := {[ "PY" := ("Python", "python") ]};
     DEBUG := false;
     MIN_RETRY_TIME := 1%Q;
     MAX_RETRY_TIME := 8%Q;
     MAX_RETRY_DURATION := 20%Q;
     EXPONENTIAL_BACKOFF_BASE_RANGE := (2%Q, 2%Q);
     FIRST_RETRY_INSTANT := true |}.

Definition queued : Job :=
  {| job_id := "j1"; status := INQUEUE_STATUS; start_date := None;
     completion_date := None; language := "PY"; max_until_ignored := 10%Z;
     max_displayed_matches := 250%Z; moss_id := 1%Z |}.

Definition table_with (j : Job) : World :=
  {| job_table := {[ "j1" := j ]};
     submission_table :=
       [ {| sub_pk := 0; sub_job := "j1"; submission_id := "a" |};
         {| sub_pk := 1; sub_job := "j1"; submission_id := "b" |};
         {| sub_pk := 2; sub_job := "j2"; submission_id := "c" |} ];
     jobevent_table := []; mossresult_table := []; match_table := [];
     saves := []; network := []; slept := []; log := [];
     clock_reads := 0; final_creates := 0 |}.

Definition w0 : World := table_with queued.

(** A job that was processed before. *)
Definition w_done : World := table_with (with_status COMPLETED_STATUS queued).

(** What MOSS reports: "a" against "b" of the job, and "a" against "c",
    which is a submission of another job. *)
Definition report : Result :=
  {| res_url := "http://moss/1";
     res_matches :=
       [ {| name_1 := "a"; name_2 := "b"; percentage_1 := 50%Z;
            percentage_2 := 60%Z; rm_lines_matched := 12%Z;
            rm_line_matches := [[1; 5; 2; 6]%Z] |};
         {| name_1 := "a"; name_2 := "c"; percentage_1 := 40%Z;
            percentage_2 := 30%Z; rm_lines_matched := 7%Z;
            rm_line_matches := [] |} ] |}.

Definition all_hooks : list Hook :=
  [on_upload_start; on_upload_finish; on_processing_start; on_processing_finish].

(** The upload directory holds [x.py] (10 bytes, or [size] bytes) and an
    empty file; the collaborators answer as the arguments say. *)
Definition env_of (size : Z)
    (gen_url : nat -> list Hook * (Exn + string))
    (gen_report : nat -> Exn + Result)
    (load : LoadStatus) (fault : nat -> option Exn) : Env :=
  {| now := fun n => (100 + Z.of_nat n)%Z;
     isdir := fun p => String.eqb p "media/j1/uploads/files";
     listdir := fun _ => ["x.py"; "empty.py"];
     getsize := fun p =>
       if String.eqb p "media/j1/uploads/files/x.py" then size else 0%Z;
     is_valid_moss_url := fun u => match u with Some _ => true | None => false end;
     generate_url := fun n _ => gen_url n;
     generate_report := fun n _ => gen_report n;
     determine_load := fun _ => (load, 3%Q, 1%Q);
     retry_schedule := [(1, 0%Q); (2, 1%Q); (3, 2%Q); (4, 4%Q)];
     db_fault := fault |}.

Definition url_ok : list Hook * (Exn + string) := (all_hooks, inr "http://moss/1").

(** Two connection resets while uploading, then success. *)
Definition env_retry : Env :=
  env_of 10
    (fun n => if (n <? 3)%nat then ([on_upload_start], inl (socket_error "reset"))
              else url_ok)
    (fun _ => inr report) NORMAL (fun _ => None).

(** Two connection resets while the report is fetched, then success. *)
Definition env_retry_parsing : Env :=
  env_of 10 (fun _ => url_ok)
    (fun n => if (n <? 3)%nat then inl (socket_error "reset") else inr report)
    NORMAL (fun _ => None).

(** MOSS refuses the upload for good. *)
Definition env_fatal : Env :=
  env_of 10 (fun _ => ([on_upload_start], inl (FatalMossException "denied")))
    (fun _ => inr report) NORMAL (fun _ => None).

(** MOSS answers nothing, at the given load. *)
Definition env_empty (load : LoadStatus) : Env :=
  env_of 10 (fun _ => url_ok) (fun _ => inl (EmptyResponse "no data"))
    load (fun _ => None).

(** The client fails in a way nobody foresaw. *)
Definition env_unknown : Env :=
  env_of 10 (fun _ => ([], inl (OtherException "ValueError"))) (fun _ => inr report)
    NORMAL (fun _ => None).

(** Only empty files were uploaded. *)
Definition env_no_files : Env :=
  env_of 0 (fun _ => url_ok) (fun _ => inr report) NORMAL (fun _ => None).

(** The persistence layer refuses the second create of the finalization. *)
Definition env_db_fault : Env :=
  env_of 10 (fun _ => url_ok) (fun _ => inr report) NORMAL
    (fun k => if (k =? 1)%nat then Some (OtherException "IntegrityError") else None).

End Sample.

(** ** Vocabulary of the statements *)

(** How many events of a kind a list of events holds. *)
Definition count_type (ty : EventType) (l : list JobEvent) : nat :=
  length (filter (fun e => ev_type e = ty) l).

(** A relation between the frame before and the frame after is kept by a
    statement, however the statement ends. *)
Definition preserves {A} (R : relation Frame) (c : M A) : Prop :=
  forall fr, R fr (c fr).2.

(** What the statements of the attempt loop may do to a frame: they append
    events of the kinds [tys] for the job, append saves that leave the dates
    alone, move the status within the three working statuses, and touch
    nothing else of what the finalization reads. *)
Definition working_statuses : list Status :=
  [UPLOADING_STATUS; PROCESSING_STATUS; PARSING_STATUS].

(** The kinds of events the attempt loop creates. *)
Definition loop_types : list EventType :=
  [UPLOADING_EVENT; PROCESSING_EVENT; PARSING_EVENT; RETRY_EVENT].

Record evolves (tys : list EventType) (fr fr' : Frame) : Prop := {
  ev_job_id : job_id (job fr') = job_id (job fr);
  ev_completion : completion_date (job fr') = completion_date (job fr);
  ev_start : start_date (job fr') = start_date (job fr);
  ev_status : status (job fr') = status (job fr)
              \/ status (job fr') ∈ working_statuses;
  ev_events : exists new,
      jobevent_table (world fr') = jobevent_table (world fr) ++ new
      /\ Forall (fun e => ev_type e ∈ tys /\ ev_job e = job_id (job fr)) new;
  ev_saves : exists new,
      saves (world fr') = saves (world fr) ++ new
      /\ Forall (fun j => completion_date j = completion_date (job fr)
                          /\ job_id j = job_id (job fr)) new;
  ev_clock : clock_reads (world fr') = clock_reads (world fr);
  ev_creates : final_creates (world fr') = final_creates (world fr);
  ev_results : mossresult_table (world fr') = mossresult_table (world fr);
  ev_matches : match_table (world fr') = match_table (world fr);
  ev_submissions : submission_table (world fr') = submission_table (world fr);
  ev_paths : paths fr' = paths fr
}.

(** A statement leaves an observation [f] of the frame as it was. *)
Definition keeps {X} (f : Frame -> X) : relation Frame :=
  fun fr fr' => f fr' = f fr.

(** The record the materializer derives from a raw match, when both of its
    names are submissions of the job [jid]. *)
Definition resolved_record (jid : string) (tbl : list Submission) (pk : nat)
    (m : RawMatch) : option Match :=
  match find_submission jid (name_1 m) tbl, find_submission jid (name_2 m) tbl with
  | Some a, Some b =>
      Some {| moss_result := pk;
              first_submission := a;
              second_submission := b;
              first_percentage := percentage_1 m;
              second_percentage := percentage_2 m;
              lines_matched := rm_lines_matched m;
              line_matches := rm_line_matches m |}
  | _, _ => None
  end.

(** A name resolves when the table holds a submission of the job with it. *)
Definition resolves (jid name : string) (tbl : list Submission) : Prop :=
  exists s, s ∈ tbl /\ sub_job s = jid /\ submission_id s = name.

(** The events of the two terminal kinds, as the task creates them. *)
Definition failed_event (fr : Frame) : JobEvent :=
  {| ev_job := job_id (job fr); ev_type := FAILED_EVENT; ev_message := NoMessage |}.

Definition completed_event (fr : Frame) : JobEvent :=
  {| ev_job := job_id (job fr); ev_type := COMPLETED_EVENT; ev_message := NoMessage |}.

(** An attempt reaches line 136 when its url is at hand or gets generated. *)
Definition reaches_parsing (cfg : Settings) (env : Env) (n : nat) (fr : Frame)
  : bool :=
  match url_phase cfg env n fr with
  | (Val _, _) => true
  | (Raise _, _) => false
  end.

(** The frame line 183 is reached with, after the [except] clause for [e]. *)
Definition retried (n : nat) (e : Exn) (t : Q) (fr : Frame) : Frame :=
  (retry_tail n e t fr).2.

(** What the materializer leaves alone: the job object, the events, the
    saves, the job table and the submissions. *)
Definition beside_matches (fr : Frame)
  : Job * list JobEvent * list Job * gmap string Job * list Submission :=
  (job fr, jobevent_table (world fr), saves (world fr), job_table (world fr),
   submission_table (world fr)).

(** The frame with which the attempt loop is entered. *)
Definition loop_entry (cfg : Settings) (env : Env) (j : Job) (w : World) : Frame :=
  (setup cfg env (initial_frame j w)).2.

(** The frame with which the attempt loop is left. *)
Definition loop_exit (cfg : Settings) (env : Env) (j : Job) (w : World) : Frame :=
  (attempt_loop cfg env (retry_schedule env) (loop_entry cfg env j w)).2.

(** The job is queued and has files: [process_job] enters the attempt loop. *)
Definition enters_loop (cfg : Settings) (env : Env) (jid : string) (w : World)
    (j : Job) : Prop :=
  Job_objects_get jid w = Some j
  /\ status j = INQUEUE_STATUS
  /\ no_files cfg (paths (loop_entry cfg env j w)) = false.

(** [arrives cfg env schedule fr schedule' fr']: the loop started on
    [schedule] with the frame [fr] comes, after zero or more attempts that
    were all retried, to the head of [schedule'] with the frame [fr']. *)
Inductive arrives (cfg : Settings) (env : Env)
  : list (nat * Q) -> Frame -> list (nat * Q) -> Frame -> Prop :=
| arrives_here schedule fr : arrives cfg env schedule fr schedule fr
| arrives_later n t rest fr e fr1 schedule' fr' :
    attempt cfg env n fr = (Val (Fallthrough e), fr1) ->
    arrives cfg env rest (retried n e t fr1) schedule' fr' ->
    arrives cfg env ((n, t) :: rest) fr schedule' fr'.

(** The exceptions that only the last clause, [except Exception], catches. *)
Definition unclassified (e : Exn) : Prop :=
  match e with
  | OtherException _ | DoesNotExist => True
  | _ => False
  end.

(** The first two attempts of a run raise [socket.error] and the third one
    succeeds; [fr1], [fr2] and [fr3] are the frames the three leave. *)
Definition two_resets_then_success (cfg : Settings) (env : Env) (j : Job)
    (w : World) (n1 n2 n3 : nat) (t1 t2 : Q) (m1 m2 : string)
    (fr1 fr2 fr3 : Frame) : Prop :=
  attempt cfg env n1 (loop_entry cfg env j w)
    = (Val (Fallthrough (socket_error m1)), fr1)
  /\ attempt cfg env n2 (retried n1 (socket_error m1) t1 fr1)
     = (Val (Fallthrough (socket_error m2)), fr2)
  /\ try_body cfg env n3
       (with_num_attempts n3 (retried n2 (socket_error m2) t2 fr2))
     = (Val tt, fr3).

(** The persistence layer accepts every create of the finalization. *)
Definition reliable (env : Env) : Prop := forall k, db_fault env k = None.

(** The trail of such a run with [parsing] events of kind [PARSING_EVENT]:
    two of kind [RETRY_EVENT], one of kind [COMPLETED_EVENT], the job saved
    as completed and the url of the result returned. *)
Definition trail_with (parsing : nat) (cfg : Settings) (env : Env)
    (jid : string) (w : World) : Prop :=
  forall j n1 t1 n2 t2 n3 t3 rest m1 m2 fr1 fr2 fr3,
    enters_loop cfg env jid w j ->
    retry_schedule env = (n1, t1) :: (n2, t2) :: (n3, t3) :: rest ->
    two_resets_then_success cfg env j w n1 n2 n3 t1 t2 m1 m2 fr1 fr2 fr3 ->
    reliable env ->
    exists w' new r j',
      process_job cfg env jid w = (Val (Some (res_url r)), w')
      /\ result fr3 = Some r
      /\ jobevent_table w' = jobevent_table w ++ new
      /\ count_type RETRY_EVENT new = 2
      /\ count_type PARSING_EVENT new = parsing
      /\ count_type COMPLETED_EVENT new = 1
      /\ Job_objects_get jid w' = Some j'
      /\ status j' = COMPLETED_STATUS.

(** The attempt number and the wait recorded by the retry events of a
    trail, in order. *)
Definition retry_pairs (l : list JobEvent) : list (nat * Q) :=
  omap (fun e =>
          match ev_type e, ev_message e with
          | RETRY_EVENT, RetryingIn n _ t => Some (n, t)
          | _, _ => None
          end) l.

(** A run in which every upload is reset. *)
Definition env_always_reset : Env :=
  Sample.env_of 10 (fun _ => ([on_upload_start], inl (socket_error "reset")))
    (fun _ => inr Sample.report) NORMAL (fun _ => None).

(** A run in which MOSS reports a recoverable error once, then answers. *)
Definition env_recoverable : Env :=
  Sample.env_of 10
    (fun n => if (n <? 2)%nat
              then ([on_upload_start], inl (RecoverableMossException "busy"))
              else Sample.url_ok)
    (fun _ => inr Sample.report) NORMAL (fun _ => None).

(** An observation of the world and the job object of a frame. *)
Definition observed {X} (f : World -> Job -> X) (fr : Frame) : X :=
  f (world fr) (job fr).

(** The saves a statement adds all store one of the working statuses. *)
Definition saves_working : relation Frame :=
  fun fr fr' =>
    exists new, saves (world fr') = saves (world fr) ++ new
                /\ Forall (fun j => status j ∈ working_statuses) new.

(** The event each callback of lines 110-131 creates. *)
Definition hook_event (jid : string) (h : Hook) : JobEvent :=
  match h with
  | on_upload_start =>
      {| ev_job := jid; ev_type := UPLOADING_EVENT;
         ev_message := Text "Started uploading files to MOSS" |}
  | on_upload_finish =>
      {| ev_job := jid; ev_type := UPLOADING_EVENT;
         ev_message := Text "Finished uploading" |}
  | on_processing_start =>
      {| ev_job := jid; ev_type := PROCESSING_EVENT;
         ev_message := Text "Started generating similarity report" |}
  | on_processing_finish =>
      {| ev_job := jid; ev_type := PROCESSING_EVENT;
         ev_message := Text "Finished processing" |}
  end.

(** A job written in a language the settings do not know. *)
Definition w_cobol : World :=
  Sample.table_with
    {| job_id := "j1"; status := INQUEUE_STATUS; start_date := None;
       completion_date := None; language := "COBOL"; max_until_ignored := 10%Z;
       max_displayed_matches := 250%Z; moss_id := 1%Z |}.

(** ** The scan of lines 74-86 on a file system that may refuse a call *)

(** [os.listdir] and [os.path.getsize] raise an [OSError] on a path they
    cannot read (a directory without permission, a link whose target is
    gone), where [os.path.isdir] answers [False]: [Some e] tells that the
    call on that path raises [e]. *)
Record OsErrors := {
  listdir_error : string -> option Exn;
  getsize_error : string -> option Exn
}.

(** A file system that answers every call. *)
Definition no_os_error : OsErrors :=
  {| listdir_error := fun _ => None; getsize_error := fun _ => None |}.

(** Lines 82-86: the loop over the entries of one directory. *)
Fixpoint scan_files (env : Env) (os : OsErrors) (path : string)
    (files acc : list string) : Exn + list string :=
  match files with
  | [] => inr acc
  | f :: rest =>
      let file_path := path_join path f in
      match getsize_error os file_path with
      | Some e => inl e
      | None =>
          scan_files env os path rest
            (if (0 <? getsize env file_path)%Z then acc ++ [file_path] else acc)
      end
  end.

(** Lines 77-86: the loop over the submission types. *)
Fixpoint scan_types (env : Env) (os : OsErrors) (base_dir : string)
    (types : list string) (acc : gmap string (list string))
  : Exn + gmap string (list string) :=
  match types with
  | [] => inr acc
  | file_type :: rest =>
      let path := path_join base_dir file_type in
      if isdir env path then
        match listdir_error os path with
        | Some e => inl e
        | None =>
            match scan_files env os path (listdir env path) [] with
            | inl e => inl e
            | inr found => scan_types env os base_dir rest (<[file_type := found]> acc)
            end
        end
      else scan_types env os base_dir rest acc
  end.

Definition scan_paths (cfg : Settings) (env : Env) (os : OsErrors)
    (base_dir : string) : Exn + gmap string (list string) :=
  scan_types env os base_dir (SUBMISSION_TYPES cfg) ∅.

(** Lines 68-231 with that scan.  The scan stands outside every [try]: what
    it raises leaves the function. *)
Definition run_job_os (cfg : Settings) (env : Env) (os : OsErrors)
  : M (option string) :=
  t ← read_clock env;
  modify (on_job (with_start_date t));;
  fr ← get;
  logger LINFO (StartingJob (job_id (job fr)) (status (job fr)));;
  match scan_paths cfg env os (JOB_UPLOAD_TEMPLATE cfg (job_id (job fr))) with
  | inl e => raise e
  | inr found =>
      modify (with_paths found);;
      fr ← get;
      if no_files cfg (paths fr) then fail_no_files
      else
        attempt_loop cfg env (retry_schedule env);;
        finalization cfg env
  end.

Definition process_job_os (cfg : Settings) (env : Env) (os : OsErrors)
    (jid : string) (w : World) : Res (option string) * World :=
  match Job_objects_get jid w with
  | None => (Raise DoesNotExist, w)
  | Some j =>
      if decide (status j ≠ INQUEUE_STATUS) then (Val None, w)
      else
        let '(r, fr) := run_job_os cfg env os (initial_frame j w) in
        (r, world fr)
  end.

(** The second entry of the sample upload directory is a link whose target
    is gone: [os.path.getsize] raises [FileNotFoundError], an [OSError]. *)
Definition os_dangling : OsErrors :=
  {| listdir_error := fun _ => None;
     getsize_error := fun p =>
       if String.eqb p "media/j1/uploads/files/empty.py"
       then Some (socket_error "FileNotFoundError") else None |}.


(** How many firings of [on_processing_start] a list of callbacks holds. *)
Definition processing_starts (hs : list Hook) : nat :=
  length (List.filter (fun h => match h with
                                | on_processing_start => true
                                | _ => false
                                end) hs).

(** With a minimum delay of zero and a previous delay of zero every delay
    is zero: the scheduler of this configuration draws nothing from the
    budget. *)
Definition zero_delay_pull (n : nat) : list (nat * Q) :=
  Backoff.pull 0%Q 1%Q (1%Q, 1%Q) 10%Q false (fun _ => 0%Q) n Backoff.start.

(** * Properties *)

(** ** The monad *)

Lemma bind_run {A B} (c : M A) (k : A -> M B) (fr : Frame) :
  (c ≫= k) fr =
  match c fr with
  | (Val a, fr') => k a fr'
  | (Raise e, fr') => (Raise e, fr')
  end.
Proof. reflexivity. Qed.

Lemma bind_val {A B} (c : M A) (k : A -> M B) fr a fr' :
  c fr = (Val a, fr') -> (c ≫= k) fr = k a fr'.
Proof. intros H. rewrite bind_run, H. reflexivity. Qed.

Lemma bind_raise {A B} (c : M A) (k : A -> M B) fr e fr' :
  c fr = (Raise e, fr') -> (c ≫= k) fr = (Raise e, fr').
Proof. intros H. rewrite bind_run, H. reflexivity. Qed.

(** Running the straight-line statements of the task on a frame. *)
Ltac run :=
  cbv beta iota delta
    [mbind mret M_bind M_ret bind ret raise modify get
     set_status job_save JobEvent_create logger time_sleep];
  simpl.

Section Preserves.

Context (R : relation Frame) `{!PreOrder R}.

Lemma preserves_ret {A} (a : A) : preserves R (mret a : M A).
Proof. intros fr. simpl. reflexivity. Qed.

Lemma preserves_raise {A} (e : Exn) : preserves R (raise e : M A).
Proof. intros fr. simpl. reflexivity. Qed.

Lemma preserves_get : preserves R get.
Proof. intros fr. simpl. reflexivity. Qed.

Lemma preserves_modify (f : Frame -> Frame) :
  (forall fr, R fr (f fr)) -> preserves R (modify f).
Proof. intros H fr. apply H. Qed.

Lemma preserves_bind {A B} (c : M A) (k : A -> M B) :
  preserves R c -> (forall a, preserves R (k a)) -> preserves R (c ≫= k).
Proof.
  intros Hc Hk fr. rewrite bind_run.
  specialize (Hc fr). destruct (c fr) as [[a|e] fr1]; simpl in *.
  - transitivity fr1; [exact Hc | apply Hk].
  - exact Hc.
Qed.

Lemma preserves_try_except {A} (body : M A) (handler : Exn -> M A) :
  preserves R body -> (forall e, preserves R (handler e)) ->
  preserves R (try_except body handler).
Proof.
  intros Hb Hh fr. unfold try_except.
  specialize (Hb fr). destruct (body fr) as [[a|e] fr1]; simpl in *.
  - exact Hb.
  - transitivity fr1; [exact Hb | apply Hh].
Qed.

Lemma preserves_try_finally {A} (body : M A) (fin : M unit) :
  preserves R body -> preserves R fin -> preserves R (try_finally body fin).
Proof.
  intros Hb Hf fr. unfold try_finally.
  specialize (Hb fr). destruct (body fr) as [r fr1]; simpl in *.
  specialize (Hf fr1). destruct (fin fr1) as [[u|e] fr2]; simpl in *;
    (transitivity fr1; [exact Hb | exact Hf]).
Qed.

End Preserves.

(** ** The relation [evolves] *)

Lemma evolves_refl tys fr : evolves tys fr fr.
Proof.
  split; try reflexivity.
  - left; reflexivity.
  - exists []. rewrite app_nil_r. split; [reflexivity | constructor].
  - exists []. rewrite app_nil_r. split; [reflexivity | constructor].
Qed.

Lemma evolves_trans tys fr1 fr2 fr3 :
  evolves tys fr1 fr2 -> evolves tys fr2 fr3 -> evolves tys fr1 fr3.
Proof.
  intros [I1 C1 S1 T1 (n1 & E1 & F1) (m1 & V1 & G1) K1 R1 U1 M1 B1 P1]
         [I2 C2 S2 T2 (n2 & E2 & F2) (m2 & V2 & G2) K2 R2 U2 M2 B2 P2].
  split; try congruence.
  - destruct T2 as [T2|T2]; [rewrite T2; exact T1 | right; exact T2].
  - exists (n1 ++ n2). rewrite E2, E1, app_assoc. split; [reflexivity|].
    apply Forall_app. split; [exact F1|].
    eapply Forall_impl; [exact F2|]. simpl. intros e [? ?]. split; congruence.
  - exists (m1 ++ m2). rewrite V2, V1, app_assoc. split; [reflexivity|].
    apply Forall_app. split; [exact G1|].
    eapply Forall_impl; [exact G2|]. simpl. intros j [? ?]. split; congruence.
Qed.

#[global] Instance evolves_preorder tys : PreOrder (evolves tys).
Proof.
  split; [intros fr; apply evolves_refl | intros a b c; apply evolves_trans].
Qed.

Lemma evolves_weaken tys tys' fr fr' :
  tys ⊆ tys' -> evolves tys fr fr' -> evolves tys' fr fr'.
Proof.
  intros Hsub [I C S T (n & E & F) V K R U M B P].
  split; try assumption.
  exists n. split; [exact E|].
  eapply Forall_impl; [exact F|]. simpl. intros e [? ?]. split; [|assumption].
  apply Hsub. assumption.
Qed.

Lemma preserves_weaken {A} tys tys' (c : M A) :
  tys ⊆ tys' -> preserves (evolves tys) c -> preserves (evolves tys') c.
Proof. intros Hsub H fr. eapply evolves_weaken; [exact Hsub | apply H]. Qed.

(** Steps that append neither an event nor a save and leave the job alone. *)
Ltac evolves_idle :=
  split; simpl; try reflexivity;
  [ left; reflexivity
  | exists []; rewrite app_nil_r; split; [reflexivity | constructor]
  | exists []; rewrite app_nil_r; split; [reflexivity | constructor] ].

Lemma evolves_log tys l fr : evolves tys fr (on_world (add_log l) fr).
Proof. evolves_idle. Qed.

Lemma evolves_contact tys c fr : evolves tys fr (on_world (contact c) fr).
Proof. evolves_idle. Qed.

Lemma evolves_sleep tys t fr : evolves tys fr (on_world (add_sleep t) fr).
Proof. evolves_idle. Qed.

Lemma evolves_with_url tys u fr : evolves tys fr (with_url u fr).
Proof. evolves_idle. Qed.

Lemma evolves_with_result tys r fr : evolves tys fr (with_result r fr).
Proof. evolves_idle. Qed.

Lemma evolves_with_num_attempts tys n fr : evolves tys fr (with_num_attempts n fr).
Proof. evolves_idle. Qed.

Lemma preserves_logger tys lvl msg : preserves (evolves tys) (logger lvl msg).
Proof. intros fr. apply evolves_log. Qed.

Lemma preserves_time_sleep tys t : preserves (evolves tys) (time_sleep t).
Proof. intros fr. apply evolves_sleep. Qed.

Lemma preserves_set_status tys s :
  s ∈ working_statuses -> preserves (evolves tys) (set_status s).
Proof.
  intros Hs fr. split; simpl; try reflexivity.
  - right; exact Hs.
  - exists []. rewrite app_nil_r. split; [reflexivity | constructor].
  - exists []. rewrite app_nil_r. split; [reflexivity | constructor].
Qed.

Lemma preserves_job_save tys : preserves (evolves tys) job_save.
Proof.
  intros fr. split; simpl; try reflexivity.
  - left; reflexivity.
  - exists []. rewrite app_nil_r. split; [reflexivity | constructor].
  - exists [job fr]. split; [reflexivity|].
    constructor; [split; reflexivity | constructor].
Qed.

Lemma preserves_JobEvent_create tys ty msg :
  ty ∈ tys -> preserves (evolves tys) (JobEvent_create ty msg).
Proof.
  intros Hty fr. split; simpl; try reflexivity.
  - left; reflexivity.
  - eexists. split; [reflexivity|].
    constructor; [split; [exact Hty | reflexivity] | constructor].
  - exists []. rewrite app_nil_r. split; [reflexivity | constructor].
Qed.

(** Membership and inclusion of explicit lists. *)
Ltac listed :=
  first
    [ apply list_elem_of_In; simpl; tauto
    | intros ?; rewrite !list_elem_of_In; simpl; tauto ].

(** One tactic walks through a statement of the task. *)
Ltac preserve_step :=
  first
    [ apply preserves_ret; apply _
    | apply preserves_raise; apply _
    | apply preserves_get; apply _
    | apply preserves_logger
    | apply preserves_time_sleep
    | apply preserves_job_save
    | apply preserves_set_status; listed
    | apply preserves_JobEvent_create; listed
    | apply preserves_modify; intros ?; evolves_idle
    | apply preserves_bind; [apply _ | | intros ?] ].

Ltac preserve := repeat preserve_step.

Section Steps.

Variable cfg : Settings.
Variable env : Env.

Lemma preserves_fire h :
  preserves (evolves [UPLOADING_EVENT; PROCESSING_EVENT]) (fire h).
Proof. destruct h; simpl; preserve. Qed.

Lemma preserves_fire_all hs :
  preserves (evolves [UPLOADING_EVENT; PROCESSING_EVENT]) (fire_all hs).
Proof.
  induction hs as [|h hs IH]; simpl.
  - preserve.
  - apply preserves_bind; [apply _ | apply preserves_fire | intros _; exact IH].
Qed.

Lemma preserves_MOSS_generate_url n :
  preserves (evolves [UPLOADING_EVENT; PROCESSING_EVENT])
            (MOSS_generate_url cfg env n).
Proof.
  unfold MOSS_generate_url.
  apply preserves_bind; [apply _ | preserve | intros fr].
  destruct (SUPPORTED_LANGUAGES cfg !! language (job fr)) as [[? lang]|];
    [|preserve].
  apply preserves_bind; [apply _ | | intros _].
  { apply preserves_modify. intros ?. evolves_idle. }
  apply preserves_bind; [apply _ | apply preserves_fire_all | intros _].
  destruct (generate_url _ _ _).2; preserve.
Qed.

Lemma preserves_url_phase n :
  preserves (evolves [UPLOADING_EVENT; PROCESSING_EVENT]) (url_phase cfg env n).
Proof.
  unfold url_phase.
  apply preserves_bind; [apply _ | preserve | intros fr].
  destruct (is_valid_moss_url env (url fr)); [preserve|].
  do 2 (apply preserves_bind; [apply _ | preserve | intros _]).
  apply preserves_bind; [apply _ | apply preserves_MOSS_generate_url | intros u].
  preserve.
Qed.

Lemma preserves_MOSS_generate_report tys n :
  preserves (evolves tys) (MOSS_generate_report env n).
Proof.
  unfold MOSS_generate_report.
  apply preserves_bind; [apply _ | preserve | intros fr].
  apply preserves_bind; [apply _ | preserve | intros _].
  destruct (generate_report env n (url fr)); preserve.
Qed.

Lemma preserves_parse_phase n :
  preserves (evolves [PARSING_EVENT]) (parse_phase env n).
Proof.
  unfold parse_phase.
  do 4 (apply preserves_bind; [apply _ | preserve | intros _]).
  apply preserves_bind; [apply _ | apply preserves_MOSS_generate_report | intros r].
  preserve.
Qed.

Lemma preserves_except_clauses tys n e :
  preserves (evolves tys) (except_clauses env n e).
Proof.
  destruct e; simpl; preserve.
  destruct (determine_load env n) as [[[] ping] avg]; preserve.
Qed.

Lemma preserves_try_body n :
  preserves (evolves [UPLOADING_EVENT; PROCESSING_EVENT; PARSING_EVENT])
            (try_body cfg env n).
Proof.
  unfold try_body.
  apply preserves_bind; [apply _ | | intros _].
  - eapply preserves_weaken; [|apply preserves_url_phase]. listed.
  - eapply preserves_weaken; [|apply preserves_parse_phase]. listed.
Qed.

Lemma preserves_attempt n :
  preserves (evolves [UPLOADING_EVENT; PROCESSING_EVENT; PARSING_EVENT])
            (attempt cfg env n).
Proof.
  unfold attempt.
  apply preserves_bind; [apply _ | preserve | intros _].
  apply preserves_try_except; [apply _ | | intros e; apply preserves_except_clauses].
  apply preserves_bind; [apply _ | apply preserves_try_body | intros _; preserve].
Qed.

Lemma preserves_retry_tail n e t :
  preserves (evolves [RETRY_EVENT]) (retry_tail n e t).
Proof. unfold retry_tail. preserve. Qed.

Lemma preserves_attempt_loop schedule :
  preserves (evolves loop_types) (attempt_loop cfg env schedule).
Proof.
  induction schedule as [|[n t] rest IH]; simpl.
  - preserve.
  - apply preserves_bind; [apply _ | | intros [|e]].
    + eapply preserves_weaken; [|apply preserves_attempt]. listed.
    + preserve.
    + apply preserves_bind; [apply _ | | intros _; exact IH].
      eapply preserves_weaken; [|apply preserves_retry_tail]. listed.
Qed.

End Steps.

(** ** Observations a statement keeps *)

#[global] Instance keeps_preorder {X} (f : Frame -> X) : PreOrder (keeps f).
Proof.
  split.
  - intros fr. reflexivity.
  - intros a b c Hab Hbc. unfold keeps in *. congruence.
Qed.

Ltac keep_step :=
  first
    [ apply preserves_bind; [apply _ | | intros ?]
    | apply preserves_ret; apply _
    | apply preserves_raise; apply _
    | apply preserves_get; apply _
    | (intros ?; reflexivity) ].

Ltac keep := repeat keep_step.

Section Kept.

Variable cfg : Settings.
Variable env : Env.

Lemma keeps_except_clauses {X} (f : Frame -> X) n e :
  (forall g fr, f (on_world g fr) = f fr) ->
  preserves (keeps f) (except_clauses env n e).
Proof.
  intros Hf.
  assert (Hlog : forall l m, preserves (keeps f) (logger l m))
    by (intros l m fr; apply Hf).
  destruct e; simpl; keep; try apply Hlog.
  - apply preserves_modify. intros fr. apply Hf.
  - destruct (determine_load env n) as [[[] ping] avg]; keep; apply Hlog.
Qed.

Lemma keeps_retry_tail {X} (f : Frame -> X) n e t :
  (forall g fr, f (on_world g fr) = f fr) ->
  (forall ev fr, f (on_world (add_event (ev fr)) fr) = f fr) ->
  preserves (keeps f) (retry_tail n e t).
Proof.
  intros Hf Hev. unfold retry_tail. keep.
  - intros fr. apply Hf.
  - intros fr. unfold keeps. simpl.
    apply (Hev (fun fr => {| ev_job := job_id (job fr); ev_type := RETRY_EVENT;
                             ev_message := RetryingIn n e t |})).
  - intros fr. apply Hf.
Qed.

End Kept.

(** ** Counting events *)

Lemma count_type_app ty l1 l2 :
  count_type ty (l1 ++ l2) = count_type ty l1 + count_type ty l2.
Proof. unfold count_type. rewrite filter_app, length_app. reflexivity. Qed.

Lemma count_type_absent ty (tys : list EventType) l :
  Forall (fun e => ev_type e ∈ tys) l -> ty ∉ tys -> count_type ty l = 0.
Proof.
  intros Hall Hty. unfold count_type.
  induction Hall as [|e l He _ IH]; [reflexivity|].
  rewrite filter_cons. destruct (decide (ev_type e = ty)) as [Heq|Hne].
  - exfalso. apply Hty. rewrite <- Heq. exact He.
  - exact IH.
Qed.

Lemma count_type_nil ty : count_type ty [] = 0.
Proof. reflexivity. Qed.

Lemma evolves_new_events (tys : list EventType) fr fr' :
  evolves tys fr fr' ->
  exists new, jobevent_table (world fr') = jobevent_table (world fr) ++ new
              /\ Forall (fun e => ev_type e ∈ tys) new.
Proof.
  intros H. destruct (ev_events _ _ _ H) as (new & E & F).
  exists new. split; [exact E|].
  eapply Forall_impl; [exact F|]. simpl. tauto.
Qed.

(** ** One attempt *)

Section Attempt.

Variable cfg : Settings.
Variable env : Env.

Lemma keeps_result_fire_all hs : preserves (keeps result) (fire_all hs).
Proof.
  induction hs as [|h hs IH]; simpl; keep.
  - destruct h; simpl; keep.
  - exact IH.
Qed.

Lemma keeps_result_MOSS_generate_url n :
  preserves (keeps result) (MOSS_generate_url cfg env n).
Proof.
  unfold MOSS_generate_url.
  apply preserves_bind; [apply _ | keep | intros fr].
  destruct (SUPPORTED_LANGUAGES cfg !! language (job fr)) as [[? lang]|];
    [|keep].
  apply preserves_bind; [apply _ | keep | intros _].
  apply preserves_bind; [apply _ | apply keeps_result_fire_all | intros _].
  destruct (generate_url _ _ _).2; keep.
Qed.

Lemma keeps_result_url_phase n : preserves (keeps result) (url_phase cfg env n).
Proof.
  unfold url_phase.
  apply preserves_bind; [apply _ | keep | intros fr].
  destruct (is_valid_moss_url env (url fr)); [keep|].
  do 2 (apply preserves_bind; [apply _ | keep | intros _]).
  apply preserves_bind; [apply _ | apply keeps_result_MOSS_generate_url | intros u].
  keep.
Qed.

(** Lines 136-147 on their two ways out. *)
Lemma parse_phase_spec n fr :
  let started := {| ev_job := job_id (job fr); ev_type := PARSING_EVENT;
                    ev_message := Text "Start parsing report" |} in
  match parse_phase env n fr with
  | (Val _, fr') =>
      exists r, generate_report env n (url fr) = inr r
        /\ result fr' = Some r
        /\ status (job fr') = PARSING_STATUS
        /\ jobevent_table (world fr') =
             jobevent_table (world fr) ++
             [started;
              {| ev_job := job_id (job fr); ev_type := PARSING_EVENT;
                 ev_message := ResultFinishedParsing (length (res_matches r)) |}]
  | (Raise e, fr') =>
      generate_report env n (url fr) = inl e
      /\ result fr' = result fr
      /\ jobevent_table (world fr') = jobevent_table (world fr) ++ [started]
  end.
Proof.
  unfold parse_phase, MOSS_generate_report. run.
  destruct (generate_report env n (url fr)) as [e|r]; simpl.
  - auto.
  - exists r. rewrite <- app_assoc. auto.
Qed.

Lemma attempt_run n fr :
  attempt cfg env n fr =
  match try_body cfg env n (with_num_attempts n fr) with
  | (Val _, fr1) => (Val Break, fr1)
  | (Raise e, fr1) => except_clauses env n e fr1
  end.
Proof.
  unfold attempt. rewrite bind_run. simpl. unfold try_except.
  rewrite bind_run.
  destruct (try_body cfg env n (with_num_attempts n fr)) as [[[]|e] fr1];
    reflexivity.
Qed.

(** What an attempt leaves behind, by the way the [try] body ends. *)
Lemma try_body_spec n fr :
  match try_body cfg env n fr with
  | (Val _, fr') =>
      (exists r, result fr' = Some r) /\ status (job fr') = PARSING_STATUS
      /\ exists new,
           jobevent_table (world fr') = jobevent_table (world fr) ++ new
           /\ Forall (fun e => ev_type e ∈ [UPLOADING_EVENT; PROCESSING_EVENT;
                                            PARSING_EVENT]) new
           /\ count_type PARSING_EVENT new = 2
  | (Raise e, fr') =>
      result fr' = result fr
      /\ exists new,
           jobevent_table (world fr') = jobevent_table (world fr) ++ new
           /\ Forall (fun e => ev_type e ∈ [UPLOADING_EVENT; PROCESSING_EVENT;
                                            PARSING_EVENT]) new
           /\ count_type PARSING_EVENT new
              = if reaches_parsing cfg env n fr then 1 else 0
  end.
Proof.
  unfold try_body, reaches_parsing. rewrite bind_run.
  pose proof (keeps_result_url_phase n fr) as Hres.
  destruct (evolves_new_events _ _ _ (preserves_url_phase cfg env n fr))
    as (new1 & E1 & F1).
  assert (C1 : count_type PARSING_EVENT new1 = 0).
  { eapply count_type_absent; [exact F1|]. rewrite list_elem_of_In. simpl.
    intros [H|[H|[]]]; discriminate. }
  assert (F1' : Forall (fun e => ev_type e ∈ [UPLOADING_EVENT; PROCESSING_EVENT;
                                               PARSING_EVENT]) new1).
  { eapply Forall_impl; [exact F1|]. simpl. intros e He.
    revert He. rewrite !list_elem_of_In. simpl. tauto. }
  destruct (url_phase cfg env n fr) as [[[]|e] fr1]; simpl in *.
  - pose proof (parse_phase_spec n fr1) as Hp.
    destruct (parse_phase env n fr1) as [[[]|e] fr2]; simpl in Hp.
    + destruct Hp as (r & _ & Hr & Hs & He).
      split; [eauto|]. split; [exact Hs|].
      eexists. rewrite He, E1, <- app_assoc. split; [reflexivity|].
      split.
      * apply Forall_app. split; [exact F1'|].
        repeat constructor; simpl; listed.
      * rewrite count_type_app, C1. reflexivity.
    + destruct Hp as (_ & Hr & He).
      split; [unfold keeps in Hres; congruence|].
      eexists. rewrite He, E1, <- app_assoc. split; [reflexivity|].
      split.
      * apply Forall_app. split; [exact F1'|].
        repeat constructor; simpl; listed.
      * rewrite count_type_app, C1. reflexivity.
  - split; [exact Hres|].
    exists new1. auto.
Qed.

End Attempt.

(** ** The attempt loop *)

Section Loop.

Variable cfg : Settings.
Variable env : Env.

Lemma retry_tail_run n e t fr :
  retry_tail n e t fr = (Val tt, retried n e t fr).
Proof. reflexivity. Qed.

Lemma attempt_loop_cons n t rest fr :
  attempt_loop cfg env ((n, t) :: rest) fr =
  match attempt cfg env n fr with
  | (Val Break, fr1) => (Val tt, fr1)
  | (Val (Fallthrough e), fr1) => attempt_loop cfg env rest (retried n e t fr1)
  | (Raise e, fr1) => (Raise e, fr1)
  end.
Proof.
  simpl. rewrite bind_run.
  destruct (attempt cfg env n fr) as [[[|e]|e] fr1]; reflexivity.
Qed.

(** No exception leaves the [except] clauses, hence none leaves an attempt. *)
Lemma except_clauses_returns n e fr :
  exists flow fr', except_clauses env n e fr = (Val flow, fr').
Proof.
  destruct e; simpl; run; try (eexists _, _; reflexivity).
  destruct (determine_load env n) as [[[] ping] avg]; simpl;
    eexists _, _; reflexivity.
Qed.

Lemma attempt_returns n fr :
  exists flow fr', attempt cfg env n fr = (Val flow, fr').
Proof.
  rewrite attempt_run.
  destruct (try_body cfg env n (with_num_attempts n fr)) as [[[]|e] fr1].
  - eexists _, _; reflexivity.
  - apply except_clauses_returns.
Qed.

Lemma attempt_loop_returns schedule fr :
  exists fr', attempt_loop cfg env schedule fr = (Val tt, fr').
Proof.
  revert fr. induction schedule as [|[n t] rest IH]; intros fr.
  - eexists; reflexivity.
  - rewrite attempt_loop_cons.
    destruct (attempt_returns n fr) as (flow & fr1 & ->).
    destruct flow as [|e]; [eexists; reflexivity | apply IH].
Qed.

Lemma except_clauses_result n e fr :
  result (except_clauses env n e fr).2 = result fr.
Proof. apply (keeps_except_clauses env result). reflexivity. Qed.

Lemma except_clauses_events n e fr :
  jobevent_table (world (except_clauses env n e fr).2) = jobevent_table (world fr).
Proof.
  destruct e; simpl; run; try reflexivity.
  destruct (determine_load env n) as [[[] ping] avg]; reflexivity.
Qed.

Lemma retried_result n e t fr : result (retried n e t fr) = result fr.
Proof. reflexivity. Qed.

Lemma retried_events n e t fr :
  jobevent_table (world (retried n e t fr)) =
  jobevent_table (world fr) ++
  [{| ev_job := job_id (job fr); ev_type := RETRY_EVENT;
      ev_message := RetryingIn n e t |}].
Proof. reflexivity. Qed.

(** An attempt that breaks with a result has just moved the job to
    [PARSING_STATUS]; any other attempt leaves [result] as it was. *)
Lemma attempt_result n fr flow fr1 :
  attempt cfg env n fr = (Val flow, fr1) ->
  (flow = Break /\ (exists r, result fr1 = Some r)
   /\ status (job fr1) = PARSING_STATUS)
  \/ result fr1 = result fr.
Proof.
  rewrite attempt_run.
  pose proof (try_body_spec cfg env n (with_num_attempts n fr)) as Hb.
  destruct (try_body cfg env n (with_num_attempts n fr)) as [[[]|e] fr0].
  - intros [= <- <-]. left. destruct Hb as (Hr & Hs & _). auto.
  - intros Hx. right. destruct Hb as (Hr & _).
    pose proof (except_clauses_result n e fr0) as Hk.
    rewrite Hx in Hk. simpl in Hk. rewrite Hk, Hr. reflexivity.
Qed.

(** The loop is left either without a result or with one and the job in
    [PARSING_STATUS]. *)
Lemma attempt_loop_result schedule fr fr' :
  result fr = None ->
  attempt_loop cfg env schedule fr = (Val tt, fr') ->
  result fr' = None
  \/ ((exists r, result fr' = Some r) /\ status (job fr') = PARSING_STATUS).
Proof.
  revert fr. induction schedule as [|[n t] rest IH]; intros fr Hnone.
  - intros [= <-]. left. exact Hnone.
  - rewrite attempt_loop_cons.
    destruct (attempt_returns n fr) as (flow & fr1 & Ha). rewrite Ha.
    destruct (attempt_result _ _ _ _ Ha) as [(-> & Hr & Hs)|Hsame].
    + intros [= <-]. right. auto.
    + destruct flow as [|e].
      * intros [= <-]. left. congruence.
      * apply IH. rewrite retried_result. congruence.
Qed.

(** The loop from where it arrived is the loop from where it started. *)
Lemma arrives_loop schedule fr schedule' fr' :
  arrives cfg env schedule fr schedule' fr' ->
  attempt_loop cfg env schedule fr = attempt_loop cfg env schedule' fr'.
Proof.
  induction 1 as [|n t rest fr e fr1 schedule' fr' Ha _ IH]; [reflexivity|].
  rewrite attempt_loop_cons, Ha. exact IH.
Qed.

Lemma arrives_retry schedule fr n t rest frk e fr1 :
  arrives cfg env schedule fr ((n, t) :: rest) frk ->
  attempt cfg env n frk = (Val (Fallthrough e), fr1) ->
  arrives cfg env schedule fr rest (retried n e t fr1).
Proof.
  intros Harr Ha. remember ((n, t) :: rest) as target eqn:Ht.
  induction Harr as [|n0 t0 rest0 fr0 e0 fr2 schedule' fr' Ha0 _ IH]; subst.
  - eapply arrives_later; [exact Ha | apply arrives_here].
  - eapply arrives_later; [exact Ha0 | apply IH; [reflexivity | exact Ha]].
Qed.

(** As long as attempts are retried there is no result. *)
Lemma arrives_result schedule fr schedule' fr' :
  arrives cfg env schedule fr schedule' fr' ->
  result fr = None -> result fr' = None.
Proof.
  induction 1 as [|n t rest fr e fr1 schedule' fr' Ha _ IH]; [auto|].
  intros Hnone. apply IH. rewrite retried_result.
  destruct (attempt_result _ _ _ _ Ha) as [(Hb & _)|Hsame];
    [discriminate | congruence].
Qed.

End Loop.

(** ** The result materializer *)

Section Materializer.

Variable env : Env.

Lemma guarded_create_run op fr :
  guarded_create env op fr =
  match db_fault env (final_creates (world fr)) with
  | Some e => (Raise e, on_world count_create fr)
  | None => op (on_world count_create fr)
  end.
Proof. reflexivity. Qed.

(** One iteration of the loop over the matches creates the record of the
    match when both names resolve, and nothing otherwise. *)
Lemma materialize_match_run pk m fr :
  materialize_match env pk m fr =
  match resolved_record (job_id (job fr)) (submission_table (world fr)) pk m with
  | Some rec =>
      match db_fault env (final_creates (world fr)) with
      | Some e => (Raise e, on_world count_create fr)
      | None => (Val tt, on_world (add_match rec) (on_world count_create fr))
      end
  | None => (Val tt, fr)
  end.
Proof.
  unfold materialize_match, Submission_first, resolved_record. run.
  destruct (find_submission (job_id (job fr)) (name_1 m)
              (submission_table (world fr))) as [a|];
    destruct (find_submission (job_id (job fr)) (name_2 m)
                (submission_table (world fr))) as [b|]; reflexivity.
Qed.

Lemma keeps_materialize_match pk m :
  preserves (keeps beside_matches) (materialize_match env pk m).
Proof.
  intros fr. rewrite materialize_match_run.
  destruct (resolved_record _ _ pk m); [|reflexivity].
  destruct (db_fault env _); reflexivity.
Qed.

Lemma keeps_for_each_materialize pk ms :
  preserves (keeps beside_matches) (for_each (materialize_match env pk) ms).
Proof.
  induction ms as [|m ms IH]; simpl.
  - keep.
  - apply preserves_bind; [apply _ | apply keeps_materialize_match | intros _].
    exact IH.
Qed.

(** An exception comes out of the loop only if the persistence layer raised it. *)
Lemma for_each_materialize_raise pk ms fr e fr' :
  for_each (materialize_match env pk) ms fr = (Raise e, fr') ->
  exists k, db_fault env k = Some e.
Proof.
  revert fr. induction ms as [|m ms IH]; intros fr; simpl.
  - discriminate.
  - rewrite bind_run, materialize_match_run.
    destruct (resolved_record _ _ pk m).
    + destruct (db_fault env (final_creates (world fr))) as [e0|] eqn:Hf.
      * intros [= <- <-]. eauto.
      * apply IH.
    + apply IH.
Qed.

(** With a persistence layer that accepts every create, the loop appends
    the records of the matches that resolve, in the order of the matches. *)
Lemma for_each_materialize_reliable pk ms fr :
  reliable env ->
  exists fr',
    for_each (materialize_match env pk) ms fr = (Val tt, fr')
    /\ match_table (world fr') =
       match_table (world fr) ++
       omap (resolved_record (job_id (job fr)) (submission_table (world fr)) pk) ms
    /\ beside_matches fr' = beside_matches fr
    /\ mossresult_table (world fr') = mossresult_table (world fr).
Proof.
  intros Hrel. revert fr. induction ms as [|m ms IH]; intros fr; simpl.
  - exists fr. rewrite app_nil_r. auto.
  - rewrite bind_run, materialize_match_run.
    destruct (resolved_record _ _ pk m) as [rec|] eqn:Hrec.
    + rewrite Hrel.
      destruct (IH (on_world (add_match rec) (on_world count_create fr)))
        as (fr' & Hrun & Ht & Hk & Hm).
      exists fr'. split; [exact Hrun|]. simpl in *.
      rewrite Ht, <- app_assoc. auto.
    + destruct (IH fr) as (fr' & Hrun & Ht & Hk & Hm).
      exists fr'. auto.
Qed.

(** [filter(job=job, submission_id=name).first()] finds a submission exactly
    when one of the job has the name, and what it finds is of the job. *)
Lemma find_submission_Some jid name tbl s :
  find_submission jid name tbl = Some s ->
  s ∈ tbl /\ sub_job s = jid /\ submission_id s = name.
Proof.
  unfold find_submission. intros H.
  apply head_Some_elem_of in H. apply list_elem_of_filter in H.
  tauto.
Qed.

Lemma find_submission_resolves jid name tbl :
  is_Some (find_submission jid name tbl) <-> resolves jid name tbl.
Proof.
  split.
  - intros [s Hs]. exists s. apply find_submission_Some. exact Hs.
  - intros (s & Hin & Hj & Hn). unfold find_submission.
    assert (Hf : s ∈ filter (fun s => sub_job s = jid /\ submission_id s = name) tbl)
      by (apply list_elem_of_filter; auto).
    destruct (filter _ tbl) as [|x l]; [inversion Hf | eexists; reflexivity].
Qed.

End Materializer.

(** ** The finalization *)

Section Finalization.

Variable cfg : Settings.
Variable env : Env.

Lemma finalization_finally_run fr :
  exists fr',
    finalization_finally cfg fr = (Val tt, fr')
    /\ job fr' = job fr
    /\ job_table (world fr') = <[job_id (job fr) := job fr]> (job_table (world fr))
    /\ saves (world fr') = saves (world fr) ++ [job fr]
    /\ jobevent_table (world fr') = jobevent_table (world fr)
    /\ match_table (world fr') = match_table (world fr).
Proof.
  unfold finalization_finally. run.
  destruct (DEBUG cfg); eexists; (split; [reflexivity|]); simpl; auto.
Qed.

(** The [try] of the finalization without a result: the status is
    [FAILED_STATUS] before the event is created. *)
Lemma finalization_try_failed fr :
  result fr = None ->
  exists out fr',
    finalization_try env fr = (out, fr')
    /\ job fr' = with_status FAILED_STATUS (job fr)
    /\ saves (world fr') = saves (world fr)
    /\ job_table (world fr') = job_table (world fr)
    /\ match_table (world fr') = match_table (world fr)
    /\ ((out = Val None
         /\ jobevent_table (world fr') = jobevent_table (world fr) ++ [failed_event fr])
        \/ (exists e, out = Raise e
             /\ db_fault env (final_creates (world fr)) = Some e
             /\ jobevent_table (world fr') = jobevent_table (world fr))).
Proof.
  intros Hres. unfold finalization_try. run. rewrite Hres.
  rewrite guarded_create_run. simpl.
  destruct (db_fault env (final_creates (world fr))) as [e|] eqn:Hf.
  - eexists _, _. split; [reflexivity|]. simpl.
    repeat (split; [reflexivity|]). right. exists e. auto.
  - eexists _, _. split; [reflexivity|]. simpl.
    repeat (split; [reflexivity|]). left. auto.
Qed.

(** The [try] of the finalization with a result: the status becomes
    [COMPLETED_STATUS] only after every create has gone through. *)
Lemma finalization_try_success fr r :
  result fr = Some r ->
  exists out fr',
    finalization_try env fr = (out, fr')
    /\ saves (world fr') = saves (world fr)
    /\ job_table (world fr') = job_table (world fr)
    /\ ((out = Val (Some (res_url r))
         /\ job fr' = with_status COMPLETED_STATUS (job fr)
         /\ jobevent_table (world fr') =
            jobevent_table (world fr) ++ [completed_event fr])
        \/ (exists e, out = Raise e
             /\ job fr' = job fr
             /\ jobevent_table (world fr') = jobevent_table (world fr)
             /\ exists k, db_fault env k = Some e)).
Proof.
  intros Hres. unfold finalization_try. run. rewrite Hres.
  unfold MOSSResult_create at 1.
  destruct (db_fault env (final_creates (world fr))) as [e|] eqn:Hf.
  { eexists _, _. split; [reflexivity|]. simpl.
    repeat (split; [reflexivity|]). right. exists e. eauto 6. }
  set (fr1 := on_world (add_mossresult _) _).
  pose proof (keeps_for_each_materialize env (length (mossresult_table (world fr)))
                (res_matches r) fr1) as Hk.
  destruct (for_each _ (res_matches r) fr1) as [[[]|e] fr2] eqn:Hloop.
  - unfold keeps, beside_matches in Hk. simpl in Hk.
    injection Hk as Hj He Hs Ht _.
    rewrite guarded_create_run.
    destruct (db_fault env (final_creates (world fr2))) as [e|] eqn:Hf2.
    + eexists _, _. split; [reflexivity|]. simpl.
      repeat (split; [assumption|]). right. exists e. eauto 6.
    + eexists _, _. split; [reflexivity|]. simpl.
      repeat (split; [assumption|]). left.
      unfold completed_event. rewrite Hj, He. auto.
  - unfold keeps, beside_matches in Hk. simpl in Hk.
    injection Hk as Hj He Hs Ht _.
    eexists _, _. split; [reflexivity|].
    repeat (split; [assumption|]). right. exists e.
    apply for_each_materialize_raise in Hloop. auto.
Qed.

(** The finalization as a whole: the job is saved in every case, with its
    completion date. *)
Lemma finalization_spec fr :
  exists out fr',
    finalization cfg env fr = (out, fr')
    /\ job_id (job fr') = job_id (job fr)
    /\ completion_date (job fr') = Some (now env (clock_reads (world fr)))
    /\ start_date (job fr') = start_date (job fr)
    /\ job_table (world fr') = <[job_id (job fr) := job fr']> (job_table (world fr))
    /\ saves (world fr') = saves (world fr) ++ [job fr']
    /\ match result fr with
       | None =>
           status (job fr') = FAILED_STATUS
           /\ ((out = Val None
                /\ jobevent_table (world fr') =
                   jobevent_table (world fr) ++ [failed_event fr])
               \/ (exists e, out = Raise e
                     /\ jobevent_table (world fr') = jobevent_table (world fr)
                     /\ exists k, db_fault env k = Some e))
       | Some r =>
           (out = Val (Some (res_url r))
            /\ status (job fr') = COMPLETED_STATUS
            /\ jobevent_table (world fr') =
               jobevent_table (world fr) ++ [completed_event fr])
           \/ (exists e, out = Raise e
                 /\ status (job fr') = status (job fr)
                 /\ jobevent_table (world fr') = jobevent_table (world fr)
                 /\ exists k, db_fault env k = Some e)
       end.
Proof.
  set (fr1 := on_job (with_completion_date (now env (clock_reads (world fr))))
                (on_world tick fr)).
  assert (Hrun : finalization cfg env fr =
                 try_finally (finalization_try env) (finalization_finally cfg) fr1)
    by reflexivity.
  rewrite Hrun. unfold try_finally.
  destruct (result fr) as [r|] eqn:Hres.
  - destruct (finalization_try_success fr1 r Hres)
      as (out & fr2 & Htry & Hs & Ht & Hcase).
    rewrite Htry.
    destruct (finalization_finally_run fr2) as (fr3 & Hfin & Hj & Ht3 & Hs3 & He3 & _).
    rewrite Hfin. exists out, fr3. split; [reflexivity|].
    rewrite Hj, Ht3, Hs3, He3, Hs, Ht.
    destruct Hcase as [(-> & Hj2 & He2)|(e & -> & Hj2 & He2 & Hk)];
      rewrite Hj2, ?He2; simpl; repeat (split; [reflexivity|]).
    + left. auto.
    + right. exists e. auto.
  - destruct (finalization_try_failed fr1 Hres)
      as (out & fr2 & Htry & Hj2 & Hs & Ht & _ & Hcase).
    rewrite Htry.
    destruct (finalization_finally_run fr2) as (fr3 & Hfin & Hj & Ht3 & Hs3 & He3 & _).
    rewrite Hfin. exists out, fr3. split; [reflexivity|].
    rewrite Hj, Ht3, Hs3, He3, Hs, Ht, Hj2. simpl.
    repeat (split; [reflexivity|]).
    destruct Hcase as [(-> & He2)|(e & -> & Hk & He2)]; rewrite He2.
    + left. auto.
    + right. exists e. eauto.
Qed.

End Finalization.

(** ** [process_job] as a whole *)

Section Run.

Variable cfg : Settings.
Variable env : Env.

Lemma Job_objects_get_Some jid w j :
  Job_objects_get jid w = Some j -> job_table w !! jid = Some j /\ job_id j = jid.
Proof.
  unfold Job_objects_get. destruct (job_table w !! jid) as [j0|]; [|discriminate].
  destruct (decide (job_id j0 = jid)); [|discriminate].
  intros [= <-]. auto.
Qed.

Lemma Job_objects_get_saved jid w j tbl :
  job_table w = <[jid := j]> tbl -> job_id j = jid ->
  Job_objects_get jid w = Some j.
Proof.
  intros Ht Hj. unfold Job_objects_get. rewrite Ht, lookup_insert_eq.
  destruct (decide (job_id j = jid)); [reflexivity | contradiction].
Qed.

Lemma setup_run j w :
  setup cfg env (initial_frame j w) = (Val tt, loop_entry cfg env j w).
Proof. reflexivity. Qed.

(** The frame at the entry of the loop: the start date is the only change
    to the job, and nothing was written yet. *)
Lemma loop_entry_job j w :
  job (loop_entry cfg env j w) = with_start_date (now env (clock_reads w)) j.
Proof. reflexivity. Qed.

Lemma loop_entry_world j w :
  jobevent_table (world (loop_entry cfg env j w)) = jobevent_table w
  /\ saves (world (loop_entry cfg env j w)) = saves w
  /\ job_table (world (loop_entry cfg env j w)) = job_table w
  /\ network (world (loop_entry cfg env j w)) = network w
  /\ slept (world (loop_entry cfg env j w)) = slept w
  /\ match_table (world (loop_entry cfg env j w)) = match_table w
  /\ clock_reads (world (loop_entry cfg env j w)) = S (clock_reads w).
Proof. repeat split; reflexivity. Qed.

Lemma loop_entry_locals j w :
  result (loop_entry cfg env j w) = None /\ url (loop_entry cfg env j w) = None.
Proof. split; reflexivity. Qed.

Lemma loop_exit_run j w :
  attempt_loop cfg env (retry_schedule env) (loop_entry cfg env j w)
  = (Val tt, loop_exit cfg env j w).
Proof.
  unfold loop_exit.
  destruct (attempt_loop_returns cfg env (retry_schedule env)
              (loop_entry cfg env j w)) as (fr' & ->).
  reflexivity.
Qed.

(** Lines 60-65. *)
Lemma process_job_guard jid w j :
  Job_objects_get jid w = Some j ->
  status j <> INQUEUE_STATUS ->
  process_job cfg env jid w = (Val None, w).
Proof.
  intros Hget Hst. unfold process_job. rewrite Hget.
  destruct (decide (status j ≠ INQUEUE_STATUS)) as [_|Hq]; [reflexivity|].
  contradiction.
Qed.

(** Behind the guard and the check of the files, [process_job] is the
    attempt loop followed by the finalization. *)
Lemma process_job_enters jid w j :
  enters_loop cfg env jid w j ->
  process_job cfg env jid w =
  let '(out, fr) := finalization cfg env (loop_exit cfg env j w) in
  (out, world fr).
Proof.
  intros (Hget & Hst & Hfiles). unfold process_job. rewrite Hget.
  destruct (decide (status j ≠ INQUEUE_STATUS)) as [Hne|_]; [contradiction|].
  unfold run_job. rewrite (bind_val _ _ _ _ _ (setup_run j w)).
  rewrite bind_run. unfold get. cbv iota beta. rewrite Hfiles.
  rewrite (bind_val _ _ _ _ _ (loop_exit_run j w)).
  reflexivity.
Qed.

(** Lines 88-93 when the files are missing. *)
Lemma process_job_no_files jid w j :
  Job_objects_get jid w = Some j ->
  status j = INQUEUE_STATUS ->
  no_files cfg (paths (loop_entry cfg env j w)) = true ->
  process_job cfg env jid w =
  (Val None, world (fail_no_files (loop_entry cfg env j w)).2).
Proof.
  intros Hget Hst Hfiles. unfold process_job. rewrite Hget.
  destruct (decide (status j ≠ INQUEUE_STATUS)) as [Hne|_]; [contradiction|].
  unfold run_job. rewrite (bind_val _ _ _ _ _ (setup_run j w)).
  rewrite bind_run. unfold get. cbv iota beta. rewrite Hfiles.
  reflexivity.
Qed.

End Run.

(** ** The guard and the check of the files *)

(** C3.  For a job whose stored status is not [INQUEUE_STATUS],
    [process_job] returns at once ([None]) and the world is exactly what it
    was: status and dates of the job unchanged, no event created, MOSS not
    contacted. *)
Theorem guard_is_noop cfg env jid w j :
  Job_objects_get jid w = Some j ->
  status j <> INQUEUE_STATUS ->
  process_job cfg env jid w = (Val None, w).
Proof. apply process_job_guard. Qed.

Lemma guard_is_noop_witness :
  Job_objects_get "j1" Sample.w_done
    = Some (with_status COMPLETED_STATUS Sample.queued)
  /\ status (with_status COMPLETED_STATUS Sample.queued) <> INQUEUE_STATUS
  /\ process_job Sample.cfg Sample.env_retry "j1" Sample.w_done
     = (Val None, Sample.w_done).
Proof.
  assert (Hget : Job_objects_get "j1" Sample.w_done
                 = Some (with_status COMPLETED_STATUS Sample.queued))
    by (vm_compute; reflexivity).
  assert (Hst : status (with_status COMPLETED_STATUS Sample.queued)
                <> INQUEUE_STATUS) by (simpl; discriminate).
  split; [exact Hget|]. split; [exact Hst|].
  exact (guard_is_noop Sample.cfg Sample.env_retry "j1" Sample.w_done _ Hget Hst).
Defined.

(** What lines 88-93 do to the world, for every queued job without files. *)
Lemma no_files_path cfg env jid w j :
  Job_objects_get jid w = Some j ->
  status j = INQUEUE_STATUS ->
  no_files cfg (paths (loop_entry cfg env j w)) = true ->
  let j' := with_status FAILED_STATUS (with_start_date (now env (clock_reads w)) j) in
  exists w',
    process_job cfg env jid w = (Val None, w')
    /\ Job_objects_get jid w' = Some j'
    /\ saves w' = saves w ++ [j']
    /\ jobevent_table w' =
       jobevent_table w ++
       [{| ev_job := jid; ev_type := FAILED_EVENT;
           ev_message := Text "No files supplied" |}]
    /\ network w' = network w.
Proof.
  intros Hget Hst Hfiles j'.
  destruct (Job_objects_get_Some _ _ _ Hget) as [_ Hid].
  eexists. split; [exact (process_job_no_files cfg env jid w j Hget Hst Hfiles)|].
  split; [|split; [|split]].
  - eapply Job_objects_get_saved; [|exact Hid]. simpl. rewrite Hid. reflexivity.
  - reflexivity.
  - simpl. rewrite Hid. reflexivity.
  - reflexivity.
Qed.

(** C1.  For a queued job whose files directory holds no non-empty file,
    [process_job] fails the job, creates the one event [FAILED_EVENT] with
    the message "No files supplied", contacts nobody and returns [None] -
    and the job it saves has the completion date it was loaded with: lines
    88-93 never assign [completion_date]. *)
Theorem no_files_fails_without_completion_date cfg env jid w j :
  Job_objects_get jid w = Some j ->
  status j = INQUEUE_STATUS ->
  no_files cfg (paths (loop_entry cfg env j w)) = true ->
  exists w' j',
    process_job cfg env jid w = (Val None, w')
    /\ Job_objects_get jid w' = Some j'
    /\ status j' = FAILED_STATUS
    /\ jobevent_table w' =
       jobevent_table w ++
       [{| ev_job := jid; ev_type := FAILED_EVENT;
           ev_message := Text "No files supplied" |}]
    /\ network w' = network w
    /\ completion_date j' = completion_date j.
Proof.
  intros Hget Hst Hfiles.
  destruct (no_files_path cfg env jid w j Hget Hst Hfiles)
    as (w' & Hrun & Hj & _ & Hev & Hnet).
  exists w'. eexists. split; [exact Hrun|]. split; [exact Hj|].
  repeat split; try assumption; reflexivity.
Qed.

Lemma no_files_fails_without_completion_date_witness :
  exists w' j',
    process_job Sample.cfg Sample.env_no_files "j1" Sample.w0 = (Val None, w')
    /\ Job_objects_get "j1" w' = Some j'
    /\ status j' = FAILED_STATUS
    /\ jobevent_table w' =
       [{| ev_job := "j1"; ev_type := FAILED_EVENT;
           ev_message := Text "No files supplied" |}]
    /\ network w' = []
    /\ completion_date j' = None.
Proof.
  apply (no_files_fails_without_completion_date
           Sample.cfg Sample.env_no_files "j1" Sample.w0 Sample.queued);
    vm_compute; reflexivity.
Defined.

(** ** Runs that enter the attempt loop *)

Lemma loop_exit_evolves cfg env j w :
  evolves loop_types (loop_entry cfg env j w) (loop_exit cfg env j w).
Proof. apply (preserves_attempt_loop cfg env (retry_schedule env)). Qed.

Lemma loop_exit_result cfg env j w :
  result (loop_exit cfg env j w) = None
  \/ ((exists r, result (loop_exit cfg env j w) = Some r)
      /\ status (job (loop_exit cfg env j w)) = PARSING_STATUS).
Proof.
  eapply attempt_loop_result; [|apply loop_exit_run]. reflexivity.
Qed.

(** Whatever happens in the loop and in the finalization, the job is saved
    last, with the date of the second reading of the clock. *)
Lemma main_path cfg env jid w j :
  enters_loop cfg env jid w j ->
  let fr := loop_exit cfg env j w in
  exists out w' j',
    process_job cfg env jid w = (out, w')
    /\ Job_objects_get jid w' = Some j'
    /\ completion_date j' = Some (now env (S (clock_reads w)))
    /\ saves w' = saves (world fr) ++ [j']
    /\ match result fr with
       | None =>
           status j' = FAILED_STATUS
           /\ ((out = Val None
                /\ jobevent_table w' =
                   jobevent_table (world fr) ++ [failed_event fr])
               \/ (exists e, out = Raise e
                     /\ jobevent_table w' = jobevent_table (world fr)
                     /\ exists k, db_fault env k = Some e))
       | Some r =>
           (out = Val (Some (res_url r))
            /\ status j' = COMPLETED_STATUS
            /\ jobevent_table w' =
               jobevent_table (world fr) ++ [completed_event fr])
           \/ (exists e, out = Raise e
                 /\ status j' = status (job fr)
                 /\ jobevent_table w' = jobevent_table (world fr)
                 /\ exists k, db_fault env k = Some e)
       end.
Proof.
  intros Henter fr.
  pose proof Henter as (Hget & Hst & Hfiles).
  destruct (Job_objects_get_Some _ _ _ Hget) as [_ Hid].
  pose proof (loop_exit_evolves cfg env j w) as Hev. fold fr in Hev.
  destruct (finalization_spec cfg env fr)
    as (out & fr' & Hfin & Hjid & Hcd & _ & Htbl & Hsaves & Hcase).
  assert (Hjid' : job_id (job fr') = jid).
  { rewrite Hjid, (ev_job_id _ _ _ Hev). exact Hid. }
  exists out, (world fr'), (job fr').
  split; [rewrite (process_job_enters cfg env jid w j Henter); fold fr;
          rewrite Hfin; reflexivity|].
  assert (Hk : job_id (job fr) = jid) by congruence.
  split; [eapply Job_objects_get_saved; [|exact Hjid'];
          rewrite Htbl, Hk; reflexivity|].
  split; [rewrite Hcd, (ev_clock _ _ _ Hev); reflexivity|].
  split; [exact Hsaves|].
  exact Hcase.
Qed.

(** C2.  [completion_date] is assigned once, at line 194, when the attempt
    loop is over: in a run that enters the loop every save but the last
    leaves the date as it was loaded and the last one, the save of the
    terminal status, carries the date.  But the terminal transition of lines
    88-93 (no files) is saved without the date: on that path it is never
    assigned. *)
Theorem completion_date_assignments cfg env jid w j :
  Job_objects_get jid w = Some j ->
  status j = INQUEUE_STATUS ->
  (no_files cfg (paths (loop_entry cfg env j w)) = false ->
   exists out w' mid j',
     process_job cfg env jid w = (out, w')
     /\ saves w' = saves w ++ mid ++ [j']
     /\ Forall (fun s => completion_date s = completion_date j) mid
     /\ completion_date j' = Some (now env (S (clock_reads w)))
     /\ (reliable env ->
         status j' = COMPLETED_STATUS \/ status j' = FAILED_STATUS))
  /\ (no_files cfg (paths (loop_entry cfg env j w)) = true ->
      exists w' j',
        process_job cfg env jid w = (Val None, w')
        /\ saves w' = saves w ++ [j']
        /\ status j' = FAILED_STATUS
        /\ completion_date j' = completion_date j).
Proof.
  intros Hget Hst. split; intros Hfiles.
  - assert (Henter : enters_loop cfg env jid w j) by (repeat split; assumption).
    destruct (main_path cfg env jid w j Henter)
      as (out & w' & j' & Hrun & _ & Hcd & Hsaves & Hcase).
    pose proof (loop_exit_evolves cfg env j w) as Hev.
    destruct (ev_saves _ _ _ Hev) as (mid & Hmid & Hall).
    exists out, w', mid, j'. split; [exact Hrun|].
    split; [rewrite Hsaves, Hmid, <- app_assoc; reflexivity|].
    split; [eapply Forall_impl; [exact Hall|]; simpl; tauto|].
    split; [exact Hcd|].
    intros Hrel. destruct (result (loop_exit cfg env j w)) as [r|].
    + destruct Hcase as [(_ & Hs & _)|(e & _ & _ & _ & k & Hk)]; [auto|].
      rewrite Hrel in Hk. discriminate.
    + right. tauto.
  - destruct (no_files_path cfg env jid w j Hget Hst Hfiles)
      as (w' & Hrun & _ & Hsaves & _).
    exists w'. eexists. split; [exact Hrun|]. split; [exact Hsaves|].
    split; reflexivity.
Qed.

Lemma completion_date_assignments_witness :
  exists w' j',
    process_job Sample.cfg Sample.env_no_files "j1" Sample.w0 = (Val None, w')
    /\ saves w' = [j']
    /\ status j' = FAILED_STATUS
    /\ completion_date j' = None.
Proof.
  apply (proj2 (completion_date_assignments
                  Sample.cfg Sample.env_no_files "j1" Sample.w0 Sample.queued
                  eq_refl eq_refl)).
  vm_compute. reflexivity.
Defined.

(** ** The finalization under a failing persistence layer *)

(** C10.  In every run that enters the attempt loop the job is saved by the
    [finally] block with its completion date, whether the [try] of the
    finalization returns or a create in it raises.  If a create raises
    after the loop produced a result, the saved status is the one the loop
    left, [PARSING_STATUS], not [COMPLETED_STATUS]; without a result it is
    [FAILED_STATUS], assigned before the event is created. *)
Theorem finally_saves_job cfg env jid w j :
  enters_loop cfg env jid w j ->
  exists out w' j',
    process_job cfg env jid w = (out, w')
    /\ Job_objects_get jid w' = Some j'
    /\ last (saves w') = Some j'
    /\ completion_date j' = Some (now env (S (clock_reads w)))
    /\ (forall r e, result (loop_exit cfg env j w) = Some r -> out = Raise e ->
        status j' = status (job (loop_exit cfg env j w))
        /\ status j' = PARSING_STATUS
        /\ status j' <> COMPLETED_STATUS)
    /\ (result (loop_exit cfg env j w) = None -> status j' = FAILED_STATUS).
Proof.
  intros Henter.
  destruct (main_path cfg env jid w j Henter)
    as (out & w' & j' & Hrun & Hget' & Hcd & Hsaves & Hcase).
  exists out, w', j'. split; [exact Hrun|]. split; [exact Hget'|].
  split; [rewrite Hsaves; apply last_snoc|]. split; [exact Hcd|].
  split.
  - intros r e Hres ->. rewrite Hres in Hcase.
    destruct Hcase as [(Hout & _)|(e' & _ & Hs & _)]; [discriminate|].
    destruct (loop_exit_result cfg env j w) as [Hnone|[_ Hp]]; [congruence|].
    rewrite Hs, Hp. repeat split; discriminate.
  - intros Hres. rewrite Hres in Hcase. tauto.
Qed.

Lemma finally_saves_job_witness :
  exists w' j',
    process_job Sample.cfg Sample.env_db_fault "j1" Sample.w0
      = (Raise (OtherException "IntegrityError"), w')
    /\ Job_objects_get "j1" w' = Some j'
    /\ completion_date j' = Some 101%Z
    /\ status j' = PARSING_STATUS.
Proof.
  assert (Henter : enters_loop Sample.cfg Sample.env_db_fault "j1" Sample.w0
                     Sample.queued) by (vm_compute; auto).
  destruct (finally_saves_job _ _ _ _ _ Henter)
    as (out & w' & j' & Hrun & Hget & _ & Hcd & Hraise & _).
  assert (Hout : out = Raise (OtherException "IntegrityError")).
  { vm_compute in Hrun. congruence. }
  subst out. exists w', j'.
  split; [exact Hrun|]. split; [exact Hget|]. split; [exact Hcd|].
  eapply Hraise; [vm_compute|]; reflexivity.
Defined.

(** ** How an attempt that raised goes on *)

Lemma arrives_evolves cfg env schedule fr schedule' fr' :
  arrives cfg env schedule fr schedule' fr' -> evolves loop_types fr fr'.
Proof.
  induction 1 as [|n t rest fr e fr1 schedule' fr' Ha _ IH]; [reflexivity|].
  transitivity (retried n e t fr1); [|exact IH].
  transitivity fr1.
  - pose proof (preserves_attempt cfg env n fr) as H. rewrite Ha in H.
    eapply evolves_weaken; [|exact H]. listed.
  - eapply evolves_weaken; [|apply (preserves_retry_tail n e t fr1)]. listed.
Qed.

(** The frame in which a run that entered the loop arrives at an attempt
    still is about the job, and holds no result. *)
Lemma arrives_in_run cfg env jid w j schedule' fr :
  enters_loop cfg env jid w j ->
  arrives cfg env (retry_schedule env) (loop_entry cfg env j w) schedule' fr ->
  job_id (job fr) = jid /\ result fr = None
  /\ loop_exit cfg env j w = (attempt_loop cfg env schedule' fr).2.
Proof.
  intros (Hget & _ & _) Harr.
  destruct (Job_objects_get_Some _ _ _ Hget) as [_ Hid].
  split; [rewrite (ev_job_id _ _ _ (arrives_evolves _ _ _ _ _ _ Harr)); exact Hid|].
  split; [eapply arrives_result; [exact Harr | reflexivity]|].
  unfold loop_exit. rewrite (arrives_loop _ _ _ _ _ _ Harr). reflexivity.
Qed.

(** The way out of the loop through [break] in an [except] clause: the
    loop ends in the frame the clause leaves, and the run ends as failed. *)
Lemma broken_attempt cfg env jid w j n t rest fr e fr1 fr2 :
  enters_loop cfg env jid w j ->
  arrives cfg env (retry_schedule env) (loop_entry cfg env j w) ((n, t) :: rest) fr ->
  try_body cfg env n (with_num_attempts n fr) = (Raise e, fr1) ->
  except_clauses env n e fr1 = (Val Break, fr2) ->
  loop_exit cfg env j w = fr2
  /\ jobevent_table (world fr2) = jobevent_table (world fr1)
  /\ exists out w' j' tail,
       process_job cfg env jid w = (out, w')
       /\ Job_objects_get jid w' = Some j'
       /\ status j' = FAILED_STATUS
       /\ jobevent_table w' = jobevent_table (world fr2) ++ tail
       /\ count_type RETRY_EVENT tail = 0
       /\ (reliable env -> out = Val None /\ tail = [failed_event fr2]).
Proof.
  intros Henter Harr Htry Hexc.
  destruct (arrives_in_run _ _ _ _ _ _ _ Henter Harr) as (_ & Hnone & Hexit).
  assert (Hloop : loop_exit cfg env j w = fr2).
  { rewrite Hexit, attempt_loop_cons, attempt_run, Htry, Hexc. reflexivity. }
  split; [exact Hloop|].
  pose proof (except_clauses_events env n e fr1) as Hev. rewrite Hexc in Hev.
  split; [exact Hev|].
  assert (Hres : result fr2 = None).
  { pose proof (except_clauses_result env n e fr1) as Hr. rewrite Hexc in Hr.
    pose proof (try_body_spec cfg env n (with_num_attempts n fr)) as Hb.
    rewrite Htry in Hb. destruct Hb as [Hb _]. simpl in Hr, Hb. congruence. }
  destruct (main_path cfg env jid w j Henter)
    as (out & w' & j' & Hrun & Hget' & _ & _ & Hcase).
  rewrite Hloop, Hres in Hcase. destruct Hcase as [Hst Hcase].
  exists out, w', j'.
  destruct Hcase as [(Hout & He)|(e' & Hout & He & k & Hk)].
  - exists [failed_event fr2].
    split; [exact Hrun|]. split; [exact Hget'|]. split; [exact Hst|].
    split; [exact He|]. split; [reflexivity|]. auto.
  - exists []. rewrite app_nil_r.
    split; [exact Hrun|]. split; [exact Hget'|]. split; [exact Hst|].
    split; [exact He|]. split; [reflexivity|].
    intros Hrel. rewrite Hrel in Hk. discriminate.
Qed.

(** C7.  When the first attempt of a run raises [FatalMossException], the
    loop is left at once, in the frame that attempt produced: no
    [RETRY_EVENT] is created and exactly one [FAILED_EVENT], the job is
    saved with [FAILED_STATUS], and [process_job] returns [None]. *)
Theorem fatal_first_attempt cfg env jid w j n t rest msg fr1 :
  enters_loop cfg env jid w j ->
  retry_schedule env = (n, t) :: rest ->
  try_body cfg env n (with_num_attempts n (loop_entry cfg env j w))
    = (Raise (FatalMossException msg), fr1) ->
  reliable env ->
  exists w' new j',
    process_job cfg env jid w = (Val None, w')
    /\ loop_exit cfg env j w = fr1
    /\ jobevent_table w' = jobevent_table w ++ new
    /\ count_type RETRY_EVENT new = 0
    /\ count_type FAILED_EVENT new = 1
    /\ Job_objects_get jid w' = Some j'
    /\ status j' = FAILED_STATUS.
Proof.
  intros Henter Hsched Htry Hrel.
  assert (Harr : arrives cfg env (retry_schedule env) (loop_entry cfg env j w)
                   ((n, t) :: rest) (loop_entry cfg env j w))
    by (rewrite Hsched; apply arrives_here).
  destruct (broken_attempt cfg env jid w j n t rest _ _ fr1 fr1 Henter Harr Htry
              eq_refl)
    as (Hexit & _ & out & w' & j' & tail & Hrun & Hget' & Hst & Hev & _ & Hok).
  destruct (Hok Hrel) as [-> ->].
  pose proof (try_body_spec cfg env n (with_num_attempts n (loop_entry cfg env j w)))
    as Hb.
  rewrite Htry in Hb. destruct Hb as (_ & new1 & Hnew1 & Hty & _).
  exists w', (new1 ++ [failed_event fr1]), j'.
  split; [exact Hrun|]. split; [exact Hexit|].
  split; [rewrite Hev, Hnew1, <- app_assoc; reflexivity|].
  assert (Habs : forall ty, ty = RETRY_EVENT \/ ty = FAILED_EVENT ->
                            count_type ty new1 = 0).
  { intros ty Hcase. eapply count_type_absent; [exact Hty|].
    rewrite list_elem_of_In. simpl.
    destruct Hcase as [-> | ->]; intros [H|[H|[H|[]]]]; discriminate. }
  rewrite !count_type_app, !Habs by auto.
  repeat split; assumption.
Qed.

Lemma fatal_first_attempt_witness :
  exists w' new j',
    process_job Sample.cfg Sample.env_fatal "j1" Sample.w0 = (Val None, w')
    /\ jobevent_table w' = new
    /\ count_type RETRY_EVENT new = 0
    /\ count_type FAILED_EVENT new = 1
    /\ Job_objects_get "j1" w' = Some j'
    /\ status j' = FAILED_STATUS.
Proof.
  assert (Henter : enters_loop Sample.cfg Sample.env_fatal "j1" Sample.w0
                     Sample.queued) by (vm_compute; auto).
  destruct (fatal_first_attempt Sample.cfg Sample.env_fatal "j1" Sample.w0
              Sample.queued 1 0%Q [(2, 1%Q); (3, 2%Q); (4, 4%Q)] "denied" _
              Henter eq_refl eq_refl (fun _ => eq_refl))
    as (w' & new & j' & Hrun & _ & Hev & Hr & Hf & Hget & Hst).
  exists w', new, j'. repeat split; assumption.
Defined.

(** C4.  An attempt of a run whose [try] body raises [EmptyResponse] asks
    the pinger.  At load [NORMAL] the loop ends there without any
    [RETRY_EVENT] and the job is saved as failed.  At load [UNDER_LOAD] or
    [DOWN] the event [RETRY_EVENT] with the attempt number, the error and
    the wait is created, the wait is slept, and the loop goes on with what
    is left of the schedule. *)
Theorem empty_response_decision cfg env jid w j n t rest fr msg fr1 :
  enters_loop cfg env jid w j ->
  arrives cfg env (retry_schedule env) (loop_entry cfg env j w) ((n, t) :: rest) fr ->
  try_body cfg env n (with_num_attempts n fr) = (Raise (EmptyResponse msg), fr1) ->
  let load := (determine_load env n).1.1 in
  (load = NORMAL ->
     jobevent_table (world (loop_exit cfg env j w)) = jobevent_table (world fr1)
     /\ exists out w' j' tail,
          process_job cfg env jid w = (out, w')
          /\ Job_objects_get jid w' = Some j'
          /\ status j' = FAILED_STATUS
          /\ jobevent_table w' = jobevent_table (world fr1) ++ tail
          /\ count_type RETRY_EVENT tail = 0)
  /\ (load = UNDER_LOAD \/ load = DOWN ->
      exists fr2,
        arrives cfg env (retry_schedule env) (loop_entry cfg env j w) rest fr2
        /\ jobevent_table (world fr2) =
           jobevent_table (world fr1) ++
           [{| ev_job := jid; ev_type := RETRY_EVENT;
               ev_message := RetryingIn n (EmptyResponse msg) t |}]
        /\ slept (world fr2) = slept (world fr1) ++ [t]).
Proof.
  intros Henter Harr Htry load.
  assert (Hid : job_id (job fr1) = jid).
  { destruct (arrives_in_run _ _ _ _ _ _ _ Henter Harr) as (Hid & _).
    pose proof (preserves_try_body cfg env n (with_num_attempts n fr)) as Hev.
    rewrite Htry in Hev. simpl in Hev.
    rewrite (ev_job_id _ _ _ Hev). exact Hid. }
  subst load.
  destruct (determine_load env n) as [[load ping] avg] eqn:Hload. simpl.
  split.
  - intros ->.
    destruct (broken_attempt cfg env jid w j n t rest fr _ fr1
                (on_world (add_log (LDEBUG, NotUnderLoad ping avg (job_id (job fr1))))
                   (on_world (contact (CallDetermineLoad n)) fr1))
                Henter Harr Htry)
      as (Hexit & Hev & out & w' & j' & tail & Hrun & Hget' & Hst & Hev' & Hc & _).
    { simpl. run. rewrite Hload. reflexivity. }
    split; [rewrite Hexit; reflexivity|].
    exists out, w', j', tail. auto.
  - intros Hbusy.
    set (fr1' := (except_clauses env n (EmptyResponse msg) fr1).2).
    assert (Hexc : except_clauses env n (EmptyResponse msg) fr1
                   = (Val (Fallthrough (EmptyResponse msg)), fr1')).
    { subst fr1'. simpl. run. rewrite Hload.
      destruct Hbusy as [-> | ->]; reflexivity. }
    assert (Hatt : attempt cfg env n fr
                   = (Val (Fallthrough (EmptyResponse msg)), fr1'))
      by (rewrite attempt_run, Htry; exact Hexc).
    exists (retried n (EmptyResponse msg) t fr1').
    split; [eapply arrives_retry; eassumption|].
    assert (Hsame : jobevent_table (world fr1') = jobevent_table (world fr1)
                    /\ slept (world fr1') = slept (world fr1)
                    /\ job_id (job fr1') = job_id (job fr1)).
    { subst fr1'. simpl. run. rewrite Hload.
      destruct Hbusy as [-> | ->]; auto. }
    destruct Hsame as (He & Hs & Hj).
    rewrite retried_events, He, Hj, Hid. split; [reflexivity|].
    simpl. rewrite Hs. reflexivity.
Qed.

Lemma empty_response_decision_witness :
  (exists fr2,
     arrives Sample.cfg (Sample.env_empty UNDER_LOAD)
       (retry_schedule (Sample.env_empty UNDER_LOAD))
       (loop_entry Sample.cfg (Sample.env_empty UNDER_LOAD) Sample.queued Sample.w0)
       [(2, 1%Q); (3, 2%Q); (4, 4%Q)] fr2
     /\ count_type RETRY_EVENT (jobevent_table (world fr2)) = 1
     /\ slept (world fr2) = [0%Q])
  /\ count_type RETRY_EVENT
       (jobevent_table
          (world (loop_exit Sample.cfg (Sample.env_empty NORMAL) Sample.queued
                    Sample.w0))) = 0.
Proof.
  split.
  - assert (Henter : enters_loop Sample.cfg (Sample.env_empty UNDER_LOAD) "j1"
                       Sample.w0 Sample.queued) by (vm_compute; auto).
    destruct (empty_response_decision Sample.cfg (Sample.env_empty UNDER_LOAD)
                "j1" Sample.w0 Sample.queued 1 0%Q [(2, 1%Q); (3, 2%Q); (4, 4%Q)]
                _ "no data" _ Henter (arrives_here _ _ _ _) eq_refl)
      as [_ Hbusy].
    destruct (Hbusy (or_introl eq_refl)) as (fr2 & Harr & Hev & Hs).
    exists fr2. split; [exact Harr|]. split; [rewrite Hev|exact Hs].
    vm_compute. reflexivity.
  - assert (Henter : enters_loop Sample.cfg (Sample.env_empty NORMAL) "j1"
                       Sample.w0 Sample.queued) by (vm_compute; auto).
    destruct (empty_response_decision Sample.cfg (Sample.env_empty NORMAL)
                "j1" Sample.w0 Sample.queued 1 0%Q [(2, 1%Q); (3, 2%Q); (4, 4%Q)]
                _ "no data" _ Henter (arrives_here _ _ _ _) eq_refl)
      as [Hnormal _].
    destruct (Hnormal eq_refl) as (Hev & _).
    rewrite Hev. vm_compute. reflexivity.
Defined.

(** ** The kinds of events a run creates *)

Lemma process_job_events cfg env jid w out w' :
  process_job cfg env jid w = (out, w') ->
  exists new,
    jobevent_table w' = jobevent_table w ++ new
    /\ Forall (fun e => ev_type e ∈ loop_types
                        \/ ev_type e = FAILED_EVENT
                        \/ ev_type e = COMPLETED_EVENT) new.
Proof.
  intros Hrun.
  destruct (Job_objects_get jid w) as [j|] eqn:Hget.
  2: { unfold process_job in Hrun. rewrite Hget in Hrun.
       injection Hrun as _ <-. exists []. rewrite app_nil_r. auto. }
  destruct (decide (status j = INQUEUE_STATUS)) as [Hq|Hq].
  2: { rewrite (process_job_guard cfg env jid w j Hget Hq) in Hrun.
       injection Hrun as _ <-. exists []. rewrite app_nil_r. auto. }
  destruct (no_files cfg (paths (loop_entry cfg env j w))) eqn:Hfiles.
  { destruct (no_files_path cfg env jid w j Hget Hq Hfiles)
      as (w1 & Hrun1 & _ & _ & Hev & _).
    rewrite Hrun1 in Hrun. injection Hrun as _ <-.
    eexists. split; [exact Hev|].
    constructor; [right; left; reflexivity | constructor]. }
  assert (Henter : enters_loop cfg env jid w j) by (repeat split; assumption).
  destruct (main_path cfg env jid w j Henter)
    as (out1 & w1 & j' & Hrun1 & _ & _ & _ & Hcase).
  rewrite Hrun1 in Hrun. injection Hrun as _ <-.
  destruct (ev_events _ _ _ (loop_exit_evolves cfg env j w)) as (new1 & Hnew1 & Hall).
  assert (Hall' : Forall (fun e => ev_type e ∈ loop_types
                                   \/ ev_type e = FAILED_EVENT
                                   \/ ev_type e = COMPLETED_EVENT) new1).
  { eapply Forall_impl; [exact Hall|]. simpl. tauto. }
  assert (Hdone : forall tail,
             Forall (fun e => ev_type e ∈ loop_types
                              \/ ev_type e = FAILED_EVENT
                              \/ ev_type e = COMPLETED_EVENT) tail ->
             jobevent_table w1 =
               jobevent_table (world (loop_exit cfg env j w)) ++ tail ->
             exists new,
               jobevent_table w1 = jobevent_table w ++ new
               /\ Forall (fun e => ev_type e ∈ loop_types
                                   \/ ev_type e = FAILED_EVENT
                                   \/ ev_type e = COMPLETED_EVENT) new).
  { intros tail Htail He. exists (new1 ++ tail).
    split; [rewrite He, Hnew1, <- app_assoc; reflexivity|].
    apply Forall_app. auto. }
  destruct (result (loop_exit cfg env j w)) as [r|].
  - destruct Hcase as [(_ & _ & He)|(e & _ & _ & He & _)].
    + apply (Hdone [completed_event (loop_exit cfg env j w)]); [|exact He].
      constructor; [right; right; reflexivity | constructor].
    + apply (Hdone []); [constructor | rewrite app_nil_r; exact He].
  - destruct Hcase as [_ [(_ & He)|(e & _ & He & _)]].
    + apply (Hdone [failed_event (loop_exit cfg env j w)]); [|exact He].
      constructor; [right; left; reflexivity | constructor].
    + apply (Hdone []); [constructor | rewrite app_nil_r; exact He].
Qed.

(** C9.  No run of [process_job] creates an event of kind [ERROR_EVENT].
    An attempt that raises an exception no clause names is written to the
    logger (level error) and ends the loop in the frame it left: nothing is
    added to the events for it, and the run ends with the plain
    [FAILED_EVENT] of the finalization. *)
Theorem no_error_event cfg env jid w :
  (forall out w', process_job cfg env jid w = (out, w') ->
     exists new, jobevent_table w' = jobevent_table w ++ new
                 /\ Forall (fun e => ev_type e <> ERROR_EVENT) new)
  /\ (forall j n t rest fr e fr1,
        enters_loop cfg env jid w j ->
        arrives cfg env (retry_schedule env) (loop_entry cfg env j w)
                ((n, t) :: rest) fr ->
        try_body cfg env n (with_num_attempts n fr) = (Raise e, fr1) ->
        unclassified e ->
        loop_exit cfg env j w = on_world (add_log (LERROR, UnknownError e)) fr1
        /\ log (world (loop_exit cfg env j w))
           = log (world fr1) ++ [(LERROR, UnknownError e)]
        /\ jobevent_table (world (loop_exit cfg env j w)) = jobevent_table (world fr1)
        /\ (reliable env ->
            exists w', process_job cfg env jid w = (Val None, w')
                       /\ jobevent_table w' =
                          jobevent_table (world fr1) ++ [failed_event fr1])).
Proof.
  split.
  - intros out w' Hrun.
    destruct (process_job_events cfg env jid w out w' Hrun) as (new & Hnew & Hall).
    exists new. split; [exact Hnew|].
    eapply Forall_impl; [exact Hall|]. simpl. intros e.
    unfold loop_types. rewrite list_elem_of_In. simpl.
    intros [[H|[H|[H|[H|[]]]]]|[H|H]] Heq; rewrite Heq in H; discriminate.
  - intros j n t rest fr e fr1 Henter Harr Htry Hunk.
    destruct (broken_attempt cfg env jid w j n t rest fr e fr1
                (on_world (add_log (LERROR, UnknownError e)) fr1)
                Henter Harr Htry)
      as (Hexit & Hev & out & w' & j' & tail & Hrun & _ & _ & Hev' & _ & Hok).
    { destruct e; try contradiction; reflexivity. }
    rewrite Hexit. split; [reflexivity|]. split; [reflexivity|].
    split; [reflexivity|].
    intros Hrel. destruct (Hok Hrel) as [-> ->].
    exists w'. split; [exact Hrun | exact Hev'].
Qed.

Lemma no_error_event_witness :
  exists w',
    process_job Sample.cfg Sample.env_unknown "j1" Sample.w0 = (Val None, w')
    /\ jobevent_table w' =
       [{| ev_job := "j1"; ev_type := FAILED_EVENT; ev_message := NoMessage |}]
    /\ Forall (fun e => ev_type e <> ERROR_EVENT) (jobevent_table w').
Proof.
  assert (Henter : enters_loop Sample.cfg Sample.env_unknown "j1" Sample.w0
                     Sample.queued) by (vm_compute; auto).
  destruct (no_error_event Sample.cfg Sample.env_unknown "j1" Sample.w0)
    as [Hall Hunk].
  destruct (Hunk Sample.queued 1 0%Q [(2, 1%Q); (3, 2%Q); (4, 4%Q)] _
              (OtherException "ValueError") _ Henter (arrives_here _ _ _ _)
              eq_refl I)
    as (_ & _ & _ & Hfail).
  destruct (Hfail (fun _ => eq_refl)) as (w' & Hrun & Hev).
  exists w'. split; [exact Hrun|]. split; [exact Hev|].
  destruct (Hall _ _ Hrun) as (new & Hnew & Hno).
  rewrite Hnew. exact Hno.
Defined.

(** ** Two resets, then success *)

Lemma fallthrough_is_raised cfg env n fr e fr1 :
  attempt cfg env n fr = (Val (Fallthrough e), fr1) ->
  exists fr0,
    try_body cfg env n (with_num_attempts n fr) = (Raise e, fr0)
    /\ except_clauses env n e fr0 = (Val (Fallthrough e), fr1).
Proof.
  rewrite attempt_run.
  destruct (try_body cfg env n (with_num_attempts n fr)) as [[[]|e0] fr0];
    [discriminate|].
  intros Hexc. exists fr0.
  assert (e0 = e); [|subst e0; auto].
  destruct e0; simpl in Hexc; revert Hexc; run;
    try (intros [= <- _]; reflexivity); try discriminate.
  destruct (determine_load env n) as [[[] ping] avg]; simpl;
    try discriminate; intros [= <- _]; reflexivity.
Qed.

Lemma reset_is_raised cfg env n fr m fr1 :
  attempt cfg env n fr = (Val (Fallthrough (socket_error m)), fr1) ->
  try_body cfg env n (with_num_attempts n fr) = (Raise (socket_error m), fr1).
Proof.
  intros Ha. destruct (fallthrough_is_raised _ _ _ _ _ _ Ha) as (fr0 & Htry & Hexc).
  simpl in Hexc. injection Hexc as <-. exact Htry.
Qed.

(** The events of a retried attempt: those of the [try] body, then the one
    of the retry. *)
Lemma reset_events cfg env n t fr m fr1 :
  attempt cfg env n fr = (Val (Fallthrough (socket_error m)), fr1) ->
  result fr1 = result fr
  /\ exists new,
       jobevent_table (world (retried n (socket_error m) t fr1))
         = jobevent_table (world fr) ++ new
       /\ count_type RETRY_EVENT new = 1
       /\ count_type COMPLETED_EVENT new = 0
       /\ count_type PARSING_EVENT new
          = if reaches_parsing cfg env n (with_num_attempts n fr) then 1 else 0.
Proof.
  intros Ha. apply reset_is_raised in Ha.
  pose proof (try_body_spec cfg env n (with_num_attempts n fr)) as Hb.
  rewrite Ha in Hb. destruct Hb as (Hres & new & Hnew & Hty & Hpar).
  split; [exact Hres|].
  exists (new ++ [{| ev_job := job_id (job fr1); ev_type := RETRY_EVENT;
                     ev_message := RetryingIn n (socket_error m) t |}]).
  split; [rewrite retried_events, Hnew, <- app_assoc; reflexivity|].
  assert (Habs : forall ty, ty = RETRY_EVENT \/ ty = COMPLETED_EVENT ->
                            count_type ty new = 0).
  { intros ty Hcase. eapply count_type_absent; [exact Hty|].
    rewrite list_elem_of_In. simpl.
    destruct Hcase as [-> | ->]; intros [H|[H|[H|[]]]]; discriminate. }
  rewrite !count_type_app, !Habs, Hpar by auto.
  repeat split; try reflexivity.
  destruct (reaches_parsing _ _ _ _); reflexivity.
Qed.

(** C5, as the code has it.  In a run whose first two attempts raise
    [socket.error] and whose third attempt succeeds, exactly two events of
    kind [RETRY_EVENT] and one of kind [COMPLETED_EVENT] are created, the
    job is saved with [COMPLETED_STATUS] and the url of the result is
    returned.  Of kind [PARSING_EVENT] there are two for the attempt that
    succeeds ("Start parsing report" and the count of matches), and one
    more for each failed attempt that came as far as line 136: between two
    and four in all. *)
Theorem two_resets_trail cfg env jid w j n1 t1 n2 t2 n3 t3 rest m1 m2 fr1 fr2 fr3 :
  enters_loop cfg env jid w j ->
  retry_schedule env = (n1, t1) :: (n2, t2) :: (n3, t3) :: rest ->
  two_resets_then_success cfg env j w n1 n2 n3 t1 t2 m1 m2 fr1 fr2 fr3 ->
  reliable env ->
  let started1 :=
    if reaches_parsing cfg env n1 (with_num_attempts n1 (loop_entry cfg env j w))
    then 1 else 0 in
  let started2 :=
    if reaches_parsing cfg env n2
         (with_num_attempts n2 (retried n1 (socket_error m1) t1 fr1))
    then 1 else 0 in
  exists w' new r j',
    process_job cfg env jid w = (Val (Some (res_url r)), w')
    /\ result fr3 = Some r
    /\ jobevent_table w' = jobevent_table w ++ new
    /\ count_type RETRY_EVENT new = 2
    /\ count_type PARSING_EVENT new = 2 + started1 + started2
    /\ 2 <= count_type PARSING_EVENT new <= 4
    /\ count_type COMPLETED_EVENT new = 1
    /\ Job_objects_get jid w' = Some j'
    /\ status j' = COMPLETED_STATUS.
Proof.
  intros Henter Hsched (Ha1 & Ha2 & Ha3) Hrel started1 started2.
  destruct (reset_events cfg env n1 t1 _ m1 fr1 Ha1)
    as (Hres1 & new1 & Hnew1 & Hr1 & Hc1 & Hp1).
  destruct (reset_events cfg env n2 t2 _ m2 fr2 Ha2)
    as (Hres2 & new2 & Hnew2 & Hr2 & Hc2 & Hp2).
  pose proof (try_body_spec cfg env n3
                (with_num_attempts n3 (retried n2 (socket_error m2) t2 fr2))) as Hb.
  rewrite Ha3 in Hb. destruct Hb as ((r & Hres3) & _ & new3 & Hnew3 & Hty3 & Hp3).
  assert (Hexit : loop_exit cfg env j w = fr3).
  { unfold loop_exit. rewrite Hsched.
    rewrite attempt_loop_cons, Ha1, attempt_loop_cons, Ha2, attempt_loop_cons.
    rewrite attempt_run, Ha3. reflexivity. }
  destruct (main_path cfg env jid w j Henter)
    as (out & w' & j' & Hrun & Hget' & _ & _ & Hcase).
  rewrite Hexit, Hres3 in Hcase.
  destruct Hcase as [(-> & Hst & Hev)|(e & _ & _ & _ & k & Hk)];
    [|rewrite Hrel in Hk; discriminate].
  exists w', (new1 ++ new2 ++ new3 ++ [completed_event fr3]), r, j'.
  split; [exact Hrun|]. split; [exact Hres3|].
  split.
  { assert (H3 : jobevent_table (world fr3) =
                  jobevent_table (world (retried n2 (socket_error m2) t2 fr2))
                  ++ new3) by exact Hnew3.
    rewrite Hev, H3, Hnew2, Hnew1, <- !app_assoc. reflexivity. }
  assert (Habs : forall ty, ty = RETRY_EVENT \/ ty = COMPLETED_EVENT ->
                            count_type ty new3 = 0).
  { intros ty Hc. eapply count_type_absent; [exact Hty3|].
    rewrite list_elem_of_In. simpl.
    destruct Hc as [-> | ->]; intros [H|[H|[H|[]]]]; discriminate. }
  assert (Hpar : count_type PARSING_EVENT
                   (new1 ++ new2 ++ new3 ++ [completed_event fr3])
                 = 2 + started1 + started2).
  { rewrite !count_type_app, Hp1, Hp2, Hp3. subst started1 started2.
    change (count_type PARSING_EVENT [completed_event fr3]) with 0. lia. }
  split; [rewrite !count_type_app, Hr1, Hr2, Habs by auto; reflexivity|].
  split; [exact Hpar|].
  split; [rewrite Hpar; subst started1 started2;
          destruct (reaches_parsing _ _ n1 _), (reaches_parsing _ _ n2 _); lia|].
  split; [rewrite !count_type_app, Hc1, Hc2, Habs by auto; reflexivity|].
  split; assumption.
Qed.

Lemma two_resets_trail_witness :
  exists w' new,
    process_job Sample.cfg Sample.env_retry_parsing "j1" Sample.w0
      = (Val (Some "http://moss/1"), w')
    /\ jobevent_table w' = new
    /\ count_type RETRY_EVENT new = 2
    /\ count_type PARSING_EVENT new = 4
    /\ count_type COMPLETED_EVENT new = 1.
Proof.
  assert (Henter : enters_loop Sample.cfg Sample.env_retry_parsing "j1" Sample.w0
                     Sample.queued) by (vm_compute; auto).
  assert (Hrun : two_resets_then_success Sample.cfg Sample.env_retry_parsing
                   Sample.queued Sample.w0 1 2 3 0%Q 1%Q "reset" "reset"
                   (attempt Sample.cfg Sample.env_retry_parsing 1
                      (loop_entry Sample.cfg Sample.env_retry_parsing
                         Sample.queued Sample.w0)).2
                   (attempt Sample.cfg Sample.env_retry_parsing 2
                      (retried 1 (socket_error "reset") 0%Q
                         (attempt Sample.cfg Sample.env_retry_parsing 1
                            (loop_entry Sample.cfg Sample.env_retry_parsing
                               Sample.queued Sample.w0)).2)).2
                   (loop_exit Sample.cfg Sample.env_retry_parsing Sample.queued
                      Sample.w0))
    by (vm_compute; auto).
  destruct (two_resets_trail Sample.cfg Sample.env_retry_parsing "j1" Sample.w0
              Sample.queued 1 0%Q 2 1%Q 3 2%Q [(4, 4%Q)] "reset" "reset" _ _ _
              Henter eq_refl Hrun (fun _ => eq_refl))
    as (w' & new & r & j' & Hp & Hres & Hev & Hr & Hpar & _ & Hc & _).
  assert (Hr' : Some r = Some Sample.report)
    by (rewrite <- Hres; vm_compute; reflexivity).
  injection Hr' as ->. exists w', new.
  split; [exact Hp|]. split; [exact Hev|]. split; [exact Hr|].
  split; [rewrite Hpar; vm_compute; reflexivity | exact Hc].
Defined.

(** C5, as the claim has it: one event of kind [PARSING_EVENT].  The run
    with two resets during the upload has two. *)
Lemma one_parsing_event_refuted :
  ~ trail_with 1 Sample.cfg Sample.env_retry "j1" Sample.w0.
Proof.
  intros Hclaim.
  assert (Henter : enters_loop Sample.cfg Sample.env_retry "j1" Sample.w0
                     Sample.queued) by (vm_compute; auto).
  assert (Hrun : two_resets_then_success Sample.cfg Sample.env_retry
                   Sample.queued Sample.w0 1 2 3 0%Q 1%Q "reset" "reset"
                   (attempt Sample.cfg Sample.env_retry 1
                      (loop_entry Sample.cfg Sample.env_retry
                         Sample.queued Sample.w0)).2
                   (attempt Sample.cfg Sample.env_retry 2
                      (retried 1 (socket_error "reset") 0%Q
                         (attempt Sample.cfg Sample.env_retry 1
                            (loop_entry Sample.cfg Sample.env_retry
                               Sample.queued Sample.w0)).2)).2
                   (loop_exit Sample.cfg Sample.env_retry Sample.queued Sample.w0))
    by (vm_compute; auto).
  destruct (Hclaim Sample.queued 1 0%Q 2 1%Q 3 2%Q [(4, 4%Q)] "reset" "reset"
              _ _ _ Henter eq_refl Hrun (fun _ => eq_refl))
    as (w' & new & r & j' & Hp & _ & Hev & _ & Hpar & _).
  assert (Hw : jobevent_table w'
               = jobevent_table
                   (process_job Sample.cfg Sample.env_retry "j1" Sample.w0).2)
    by (rewrite Hp; reflexivity).
  rewrite Hev in Hw. simpl in Hw. subst new.
  vm_compute in Hpar. discriminate.
Qed.

(** ** The records of the matches *)

Lemma finalization_try_reliable env fr r :
  reliable env ->
  result fr = Some r ->
  exists fr',
    finalization_try env fr = (Val (Some (res_url r)), fr')
    /\ match_table (world fr') =
       match_table (world fr) ++
       omap (resolved_record (job_id (job fr)) (submission_table (world fr))
               (length (mossresult_table (world fr))))
            (res_matches r).
Proof.
  intros Hrel Hres. unfold finalization_try. run. rewrite Hres.
  unfold MOSSResult_create at 1. rewrite Hrel.
  set (fr2 := on_world (add_mossresult _) _).
  destruct (for_each_materialize_reliable env
              (length (mossresult_table (world fr))) (res_matches r) fr2 Hrel)
    as (fr3 & Hrun & Ht & _ & _).
  rewrite Hrun, guarded_create_run, Hrel.
  eexists. split; [reflexivity|]. exact Ht.
Qed.

(** C6.  The finalization of a run with a result appends to the table of
    matches, for the raw matches in their order, the record of every raw
    match whose two names resolve to submissions of the job, and nothing for
    the others.  A record exists for a raw match exactly when both names
    belong to submissions of this job; the two submissions it points to are
    rows of the table, of this job, with these names; and it carries the two
    percentages, the number of lines matched and the line matches of the raw
    match. *)
Theorem matches_materialized cfg env fr r :
  reliable env ->
  result fr = Some r ->
  let jid := job_id (job fr) in
  let tbl := submission_table (world fr) in
  let pk := length (mossresult_table (world fr)) in
  match_table (world (finalization cfg env fr).2)
    = match_table (world fr) ++ omap (resolved_record jid tbl pk) (res_matches r)
  /\ (forall m fr0,
        match_table (world (materialize_match env pk m fr0).2)
        = match_table (world fr0) ++
          match resolved_record (job_id (job fr0)) (submission_table (world fr0))
                  pk m with
          | Some rec => [rec]
          | None => []
          end)
  /\ (forall m,
        is_Some (resolved_record jid tbl pk m)
        <-> resolves jid (name_1 m) tbl /\ resolves jid (name_2 m) tbl)
  /\ (forall m rec,
        resolved_record jid tbl pk m = Some rec ->
        (first_submission rec ∈ tbl /\ sub_job (first_submission rec) = jid
         /\ submission_id (first_submission rec) = name_1 m)
        /\ (second_submission rec ∈ tbl /\ sub_job (second_submission rec) = jid
            /\ submission_id (second_submission rec) = name_2 m)
        /\ first_percentage rec = percentage_1 m
        /\ second_percentage rec = percentage_2 m
        /\ lines_matched rec = rm_lines_matched m
        /\ line_matches rec = rm_line_matches m).
Proof.
  intros Hrel Hres jid tbl pk. split; [|split; [|split]].
  - set (fr1 := on_job (with_completion_date (now env (clock_reads (world fr))))
                  (on_world tick fr)).
    assert (Hrun : finalization cfg env fr =
                   try_finally (finalization_try env) (finalization_finally cfg) fr1)
      by reflexivity.
    rewrite Hrun. unfold try_finally.
    destruct (finalization_try_reliable env fr1 r Hrel Hres) as (fr2 & Htry & Ht).
    rewrite Htry.
    destruct (finalization_finally_run cfg fr2) as (fr3 & Hfin & _ & _ & _ & _ & Hm).
    rewrite Hfin. simpl. rewrite Hm, Ht. reflexivity.
  - intros m fr0. rewrite materialize_match_run.
    destruct (resolved_record _ _ pk m) as [rec|]; [|rewrite app_nil_r; reflexivity].
    rewrite Hrel. reflexivity.
  - intros m. unfold resolved_record.
    rewrite <- !find_submission_resolves.
    destruct (find_submission jid (name_1 m) tbl) as [a|];
      destruct (find_submission jid (name_2 m) tbl) as [b|]; split;
      try (intros [? ?]; discriminate);
      try (intros [[? ?] [? ?]]; discriminate); eauto.
  - intros m rec. unfold resolved_record.
    destruct (find_submission jid (name_1 m) tbl) as [a|] eqn:Ha; [|discriminate].
    destruct (find_submission jid (name_2 m) tbl) as [b|] eqn:Hb; [|discriminate].
    intros [= <-]. simpl.
    apply find_submission_Some in Ha, Hb. tauto.
Qed.

Lemma matches_materialized_witness :
  match_table
    (world (finalization Sample.cfg Sample.env_retry
              (loop_exit Sample.cfg Sample.env_retry Sample.queued Sample.w0)).2)
  = [{| moss_result := 0;
        first_submission := {| sub_pk := 0; sub_job := "j1"; submission_id := "a" |};
        second_submission := {| sub_pk := 1; sub_job := "j1"; submission_id := "b" |};
        first_percentage := 50%Z;
        second_percentage := 60%Z;
        lines_matched := 12%Z;
        line_matches := [[1; 5; 2; 6]%Z] |}].
Proof.
  destruct (matches_materialized Sample.cfg Sample.env_retry
              (loop_exit Sample.cfg Sample.env_retry Sample.queued Sample.w0)
              Sample.report (fun _ => eq_refl))
    as (Htable & _).
  - vm_compute. reflexivity.
  - rewrite Htable. vm_compute. reflexivity.
Defined.

(** ** The backoff scheduler *)

Section RetryBudget.

Variables min_time max_time : Q.
Variable base : Q * Q.
Variable max_duration : Q.
Variable first_instant : bool.
Variable random : nat -> Q.

#[local] Abbreviation next := (Backoff.next min_time max_time base max_duration first_instant random).
#[local] Abbreviation pull := (Backoff.pull min_time max_time base max_duration first_instant random).
#[local] Abbreviation wait_of := (Backoff.wait_of min_time max_time base first_instant random).

Lemma next_Some g p g' :
  next g = Some (p, g') ->
  p = (S (Backoff.yielded g), wait_of g)
  /\ Backoff.yielded g' = S (Backoff.yielded g)
  /\ Backoff.total g' = (Backoff.total g + wait_of g)%Q
  /\ (Backoff.total g + wait_of g <= max_duration)%Q.
Proof.
  unfold Backoff.next.
  destruct (Qle_bool _ max_duration) eqn:Hle; [|discriminate].
  intros [= <- <-]. simpl. apply Qle_bool_iff in Hle. auto.
Qed.

Lemma next_None g :
  (max_duration < Backoff.total g + wait_of g)%Q -> next g = None.
Proof.
  intros Hlt. unfold Backoff.next.
  destruct (Qle_bool _ max_duration) eqn:Hle; [|reflexivity].
  apply Qle_bool_iff in Hle. exfalso. revert Hle. apply Qlt_not_le. exact Hlt.
Qed.

(** After every pair yielded, the waits yielded so far are within the budget. *)
Lemma pull_total n g p :
  p <> [] -> p `prefix_of` pull n g ->
  (Backoff.total g + Backoff.total_wait p <= max_duration)%Q.
Proof.
  revert g p. induction n as [|n IH]; intros g p Hne [k Hk]; simpl in Hk.
  - destruct p; [contradiction | discriminate].
  - destruct (next g) as [[q g']|] eqn:Hnext;
      [|destruct p; [contradiction | discriminate]].
    destruct p as [|q0 p']; [contradiction|].
    injection Hk as <- Hk.
    destruct (next_Some _ _ _ Hnext) as (-> & _ & Htot & Hle).
    destruct p' as [|q1 p''].
    + simpl. lra.
    + assert (H : (Backoff.total g' + Backoff.total_wait (q1 :: p'')
                   <= max_duration)%Q).
      { apply IH; [discriminate | exists k; exact Hk]. }
      rewrite Htot in H. simpl in *. lra.
Qed.

(** Every wait but an instant first one is at least [min_time]. *)
Lemma wait_of_min g :
  first_instant && (Backoff.yielded g =? 0)%nat = false ->
  (min_time <= wait_of g)%Q.
Proof.
  intros Hni. unfold Backoff.wait_of. rewrite Hni.
  unfold Backoff.clamp. apply Q.le_max_l.
Qed.

Lemma pull_length n g :
  (0 < min_time)%Q ->
  first_instant && (Backoff.yielded g =? 0)%nat = false ->
  pull n g = []
  \/ (inject_Z (Z.of_nat (length (pull n g))) * min_time
      <= max_duration - Backoff.total g)%Q.
Proof.
  intros Hpos. revert g. induction n as [|n IH]; intros g Hni; simpl.
  - left; reflexivity.
  - destruct (next g) as [[q g']|] eqn:Hnext; [|left; reflexivity].
    right. destruct (next_Some _ _ _ Hnext) as (_ & Hy & Htot & Hle).
    pose proof (wait_of_min g Hni) as Hmin.
    assert (Hni' : first_instant && (Backoff.yielded g' =? 0)%nat = false)
      by (rewrite Hy; apply andb_false_r).
    cbn [length]. rewrite Nat2Z.inj_succ. unfold Z.succ. rewrite inject_Z_plus.
    change (inject_Z 1) with 1%Q.
    destruct (IH g' Hni') as [-> | Hlen].
    + change (inject_Z (Z.of_nat (length (@nil (nat * Q))))) with 0%Q. lra.
    + rewrite Htot in Hlen.
      set (x := inject_Z (Z.of_nat (length (pull n g')))) in *.
      assert (Hd : ((x + 1) * min_time == x * min_time + min_time)%Q) by ring.
      rewrite Hd. lra.
Qed.

(** The number of pairs a scheduler with a positive [min_time] yields. *)
Lemma pull_bounded n g :
  (0 < min_time)%Q -> (0 <= Backoff.total g)%Q ->
  first_instant && (Backoff.yielded g =? 0)%nat = false ->
  length (pull n g) <= Z.to_nat (Qfloor (max_duration / min_time)).
Proof.
  intros Hpos Htot Hni.
  destruct (pull_length n g Hpos Hni) as [-> | Hlen]; [simpl; lia|].
  assert (H : (inject_Z (Z.of_nat (length (pull n g))) <= max_duration / min_time)%Q).
  { apply Qle_shift_div_l; [exact Hpos | lra]. }
  apply Qfloor_resp_le in H. rewrite Qfloor_Z in H. lia.
Qed.

(** Once the generator is exhausted, asking again yields nothing more. *)
Lemma pull_stable n m g :
  length (pull n g) < n -> n <= m -> pull m g = pull n g.
Proof.
  revert m g. induction n as [|n IH]; intros m g Hlen Hnm; [simpl in Hlen; lia|].
  destruct m as [|m]; [lia|]. simpl in *.
  destruct (next g) as [[q g']|]; [|reflexivity].
  f_equal. apply IH; simpl in Hlen; lia.
Qed.

End RetryBudget.

(** C8.  Whatever the random draws: after every pair the scheduler yields,
    the sum of the waits yielded so far is within [max_duration]; the
    scheduler yields nothing when the next wait would take the sum beyond
    it; and with a positive [min_time] it is exhausted after finitely many
    pairs, so that the loop over it ends. *)
Theorem retry_within_budget min_time max_time base max_duration first_instant random :
  (forall n p,
     p <> [] ->
     p `prefix_of` Backoff.pull min_time max_time base max_duration first_instant
                     random n Backoff.start ->
     (Backoff.total_wait p <= max_duration)%Q)
  /\ (forall g,
        (max_duration
         < Backoff.total g
           + Backoff.wait_of min_time max_time base first_instant random g)%Q ->
        Backoff.next min_time max_time base max_duration first_instant random g
        = None)
  /\ ((0 < min_time)%Q ->
      exists N,
        (forall n,
           length (Backoff.pull min_time max_time base max_duration first_instant
                     random n Backoff.start) < N)
        /\ (forall n, N <= n ->
              Backoff.pull min_time max_time base max_duration first_instant
                random n Backoff.start
              = Backoff.pull min_time max_time base max_duration first_instant
                  random N Backoff.start)).
Proof.
  split; [|split].
  - intros n p Hne Hpre.
    pose proof (pull_total min_time max_time base max_duration first_instant
                  random n Backoff.start p Hne Hpre) as H.
    simpl in H. lra.
  - apply next_None.
  - intros Hpos.
    set (B := Z.to_nat (Qfloor (max_duration / min_time))).
    assert (Hlen : forall n,
               length (Backoff.pull min_time max_time base max_duration
                         first_instant random n Backoff.start) < B + 2).
    { intros n. destruct first_instant eqn:Hfi.
      - destruct n as [|n]; [simpl; lia|]. simpl.
        destruct (Backoff.next min_time max_time base max_duration true random
                    Backoff.start) as [[q g']|] eqn:Hnext; [|simpl; lia].
        destruct (next_Some _ _ _ _ _ _ _ _ _ Hnext) as (_ & Hy & Htot & _).
        assert (Hb : length (Backoff.pull min_time max_time base max_duration
                               true random n g') <= B).
        { apply pull_bounded; [exact Hpos | | rewrite Hy; reflexivity].
          rewrite Htot. unfold Backoff.wait_of. simpl. lra. }
        simpl. lia.
      - assert (Hb : length (Backoff.pull min_time max_time base max_duration
                               false random n Backoff.start) <= B).
        { apply pull_bounded; [exact Hpos | simpl; lra | reflexivity]. }
        lia. }
    exists (B + 2). split; [exact Hlen|].
    intros n Hn. apply pull_stable; [apply Hlen | exact Hn].
Qed.

Lemma retry_within_budget_witness :
  (Backoff.total_wait (Backoff.retry Sample.cfg (fun _ => 0%Q) 20) <= 20)%Q
  /\ exists N, forall n, N <= n ->
       Backoff.retry Sample.cfg (fun _ => 0%Q) n
       = Backoff.retry Sample.cfg (fun _ => 0%Q) N.
Proof.
  destruct (retry_within_budget 1%Q 8%Q (2%Q, 2%Q) 20%Q true (fun _ => 0%Q))
    as (Hsum & _ & Hend).
  split.
  - apply (Hsum 20); [vm_compute; discriminate|].
    exists []. rewrite app_nil_r. reflexivity.
  - destruct (Hend eq_refl) as (N & _ & Hstable).
    exists N. exact Hstable.
Defined.

(** With a minimum delay of zero the waits of this configuration are all
    zero, and each request finds the generator as the one before left it,
    one pair further. *)
Lemma zero_delay_next k :
  Backoff.next 0%Q 1%Q (1%Q, 1%Q) 10%Q false (fun _ => 0%Q)
    {| Backoff.yielded := k; Backoff.previous := 0%Q; Backoff.total := 0%Q |}
  = Some ((S k, 0%Q),
          {| Backoff.yielded := S k; Backoff.previous := 0%Q;
             Backoff.total := 0%Q |}).
Proof. reflexivity. Qed.

Lemma zero_delay_length n k :
  length (Backoff.pull 0%Q 1%Q (1%Q, 1%Q) 10%Q false (fun _ => 0%Q) n
            {| Backoff.yielded := k; Backoff.previous := 0%Q;
               Backoff.total := 0%Q |}) = n.
Proof.
  revert k. induction n as [|n IH]; intros k; [reflexivity|].
  cbn [Backoff.pull]. rewrite zero_delay_next. simpl. rewrite IH. reflexivity.
Qed.

Lemma zero_delay_total n k :
  (Backoff.total_wait
     (Backoff.pull 0%Q 1%Q (1%Q, 1%Q) 10%Q false (fun _ => 0%Q) n
        {| Backoff.yielded := k; Backoff.previous := 0%Q;
           Backoff.total := 0%Q |}) == 0)%Q.
Proof.
  revert k. induction n as [|n IH]; intros k; [reflexivity|].
  cbn [Backoff.pull]. rewrite zero_delay_next.
  change (0 + Backoff.total_wait
                (Backoff.pull 0%Q 1%Q (1%Q, 1%Q) 10%Q false (fun _ => 0%Q) n
                   {| Backoff.yielded := S k; Backoff.previous := 0%Q;
                      Backoff.total := 0%Q |}) == 0)%Q.
  rewrite IH. reflexivity.
Qed.

(** C8, as the specification states it.  The scheduler is not exhausted by
    the budget alone: with [min_time = 0] and nothing to grow from, every
    wait is zero, the sum never comes near [max_duration], and [n] requests
    yield [n] pairs for every [n] - no bound on the number of attempts. *)
Lemma zero_min_delay_never_exhausts :
  (forall n, length (zero_delay_pull n) = n)
  /\ (forall n, Backoff.total_wait (zero_delay_pull n) == 0)%Q
  /\ ~ (exists N, forall n, length (zero_delay_pull n) < N).
Proof.
  assert (Hlen : forall n, length (zero_delay_pull n) = n)
    by (intros n; apply zero_delay_length).
  split; [exact Hlen|]. split.
  - intros n. apply zero_delay_total.
  - intros [N HN]. specialize (HN N). rewrite Hlen in HN. lia.
Qed.

(** * Further properties of [process_job] *)

(** ** Lines 74-88: the files of the job *)

Section Files.

Variable cfg : Settings.
Variable env : Env.

Lemma collect_files_from path l acc :
  fold_left
    (fun acc f =>
       let file_path := path_join path f in
       if (0 <? getsize env file_path)%Z then acc ++ [file_path] else acc)
    l acc
  = acc ++ filter (fun p => (0 < getsize env p)%Z) (map (path_join path) l).
Proof.
  revert acc. induction l as [|f l IH]; intros acc; simpl.
  - rewrite app_nil_r. reflexivity.
  - rewrite IH, filter_cons.
    destruct (Z.ltb_spec 0 (getsize env (path_join path f))) as [Hlt|Hge].
    + destruct (decide (0 < getsize env (path_join path f))%Z); [|lia].
      rewrite <- app_assoc. reflexivity.
    + destruct (decide (0 < getsize env (path_join path f))%Z); [lia|].
      reflexivity.
Qed.

(** X1.  The inner loop of lines 82-86 keeps, in the order of the listing,
    the paths of the files of the directory whose size is positive, and
    only those. *)
Theorem collect_files_nonempty path :
  collect_files env path
  = filter (fun p => (0 < getsize env p)%Z)
           (map (path_join path) (listdir env path)).
Proof. unfold collect_files. rewrite collect_files_from. reflexivity. Qed.


Lemma collect_paths_from base types (acc : gmap string (list string)) ty :
  fold_left
    (fun acc file_type =>
       let path := path_join base file_type in
       if isdir env path then <[file_type := collect_files env path]> acc else acc)
    types acc !! ty
  = if decide (ty ∈ types /\ isdir env (path_join base ty) = true)
    then Some (collect_files env (path_join base ty))
    else acc !! ty.
Proof.
  revert acc. induction types as [|ft types IH]; intros acc; simpl.
  - reflexivity.
  - rewrite IH.
    destruct (decide (ty ∈ types /\ isdir env (path_join base ty) = true))
      as [[Hin Hdir]|Hno].
    + case_decide as Hn; [reflexivity|].
      exfalso. apply Hn. split; [right; exact Hin | exact Hdir].
    + destruct (decide (ft = ty)) as [->|Hne].
      * destruct (isdir env (path_join base ty)) eqn:Hdir.
        -- rewrite lookup_insert_eq.
           case_decide as Hn; [reflexivity|].
           exfalso. apply Hn. split; [left | reflexivity].
        -- case_decide as Hn; [|reflexivity].
           destruct Hn as [_ Hd]. discriminate.
      * assert (Hacc : (if isdir env (path_join base ft)
                        then <[ft := collect_files env (path_join base ft)]> acc
                        else acc) !! ty = acc !! ty).
        { destruct (isdir env (path_join base ft)); [|reflexivity].
          apply lookup_insert_ne. exact Hne. }
        rewrite Hacc.
        case_decide as Hn; [|reflexivity].
        destruct Hn as [Hin Hdir].
        exfalso. apply Hno. split; [|exact Hdir].
        apply elem_of_cons in Hin. destruct Hin as [->|Hin]; [contradiction|].
        exact Hin.
Qed.

(** X2.  [paths] has a key exactly for the submission types whose directory
    exists below the upload directory of the job, and the value of the key
    is the list of the non-empty files of that directory; a type without a
    directory is absent (line 79), not mapped to the empty list. *)
Theorem collect_paths_lookup base ty :
  collect_paths cfg env base !! ty
  = if decide (ty ∈ SUBMISSION_TYPES cfg /\ isdir env (path_join base ty) = true)
    then Some (collect_files env (path_join base ty))
    else None.
Proof.
  unfold collect_paths. rewrite collect_paths_from.
  case_decide; [reflexivity | apply lookup_empty].
Qed.

End Files.

Section ImmediateFailure.

Variable cfg : Settings.
Variable env : Env.




End ImmediateFailure.


(** ** What a run raises, returns and records *)




(** The status a run that passed the guard leaves in the table is not
    [INQUEUE_STATUS]. *)
Lemma run_leaves_queue cfg env jid w j out w' :
  Job_objects_get jid w = Some j ->
  status j = INQUEUE_STATUS ->
  process_job cfg env jid w = (out, w') ->
  exists j', Job_objects_get jid w' = Some j' /\ status j' <> INQUEUE_STATUS.
Proof.
  intros Hget Hq Hrun.
  destruct (no_files cfg (paths (loop_entry cfg env j w))) eqn:Hfiles.
  { destruct (no_files_path cfg env jid w j Hget Hq Hfiles)
      as (w1 & Hrun1 & Hget1 & _).
    rewrite Hrun in Hrun1. injection Hrun1 as _ <-.
    eexists. split; [exact Hget1 | discriminate]. }
  assert (Henter : enters_loop cfg env jid w j) by (repeat split; assumption).
  destruct (main_path cfg env jid w j Henter)
    as (out1 & w1 & j' & Hrun1 & Hget1 & _ & _ & Hcase).
  rewrite Hrun in Hrun1. injection Hrun1 as _ <-.
  exists j'. split; [exact Hget1|].
  destruct (loop_exit_result cfg env j w) as [Hnone|[[r Hr] Hp]].
  - rewrite Hnone in Hcase. destruct Hcase as [Hs _]. rewrite Hs. discriminate.
  - rewrite Hr in Hcase.
    destruct Hcase as [(_ & Hs & _)|(e & _ & Hs & _)]; rewrite Hs;
      [|rewrite Hp]; discriminate.
Qed.

(** After a run that passed the guard the job is stored with another
    status, so that a further run returns at the guard. *)
Lemma rerun_stops_at_guard cfg env jid w j out w' cfg2 env2 :
  Job_objects_get jid w = Some j ->
  status j = INQUEUE_STATUS ->
  process_job cfg env jid w = (out, w') ->
  process_job cfg2 env2 jid w' = (Val None, w').
Proof.
  intros Hget Hq Hrun.
  destruct (run_leaves_queue cfg env jid w j out w' Hget Hq Hrun)
    as (j' & Hget' & Hst).
  exact (process_job_guard cfg2 env2 jid w' j' Hget' Hst).
Qed.

(** X10.  With a persistence layer that accepts the creates, a run that
    enters the loop creates its events in this order: events of the loop
    (uploading, processing, parsing, retry), then exactly one terminal
    event, the last of the trail.  The terminal event is [COMPLETED_EVENT]
    exactly when the loop produced a result; then the job is saved as
    completed and the url of the result is returned; otherwise the event is
    [FAILED_EVENT], the job is saved as failed and [None] is returned. *)
Theorem one_terminal_event cfg env jid w j :
  enters_loop cfg env jid w j ->
  reliable env ->
  exists out w' j' mid last,
    process_job cfg env jid w = (out, w')
    /\ jobevent_table w' = jobevent_table w ++ mid ++ [last]
    /\ Forall (fun e => ev_type e ∈ loop_types) mid
    /\ Job_objects_get jid w' = Some j'
    /\ match result (loop_exit cfg env j w) with
       | Some r =>
           out = Val (Some (res_url r))
           /\ ev_type last = COMPLETED_EVENT /\ status j' = COMPLETED_STATUS
       | None =>
           out = Val None
           /\ ev_type last = FAILED_EVENT /\ status j' = FAILED_STATUS
       end.
Proof.
  intros Henter Hrel.
  destruct (main_path cfg env jid w j Henter)
    as (out & w' & j' & Hrun & Hget' & _ & _ & Hcase).
  destruct (evolves_new_events _ _ _ (loop_exit_evolves cfg env j w))
    as (mid & Hmid & Hall).
  change (jobevent_table (world (loop_entry cfg env j w)))
    with (jobevent_table w) in Hmid.
  destruct (result (loop_exit cfg env j w)) as [r|].
  - destruct Hcase as [(Hout & Hs & He)|(e & _ & _ & _ & k & Hk)];
      [|rewrite Hrel in Hk; discriminate].
    exists out, w', j', mid, (completed_event (loop_exit cfg env j w)).
    split; [exact Hrun|]. split; [rewrite He, Hmid, <- app_assoc; reflexivity|].
    split; [exact Hall|]. split; [exact Hget'|]. auto.
  - destruct Hcase as [Hs [(Hout & He)|(e & _ & _ & k & Hk)]];
      [|rewrite Hrel in Hk; discriminate].
    exists out, w', j', mid, (failed_event (loop_exit cfg env j w)).
    split; [exact Hrun|]. split; [rewrite He, Hmid, <- app_assoc; reflexivity|].
    split; [exact Hall|]. split; [exact Hget'|]. auto.
Qed.

Lemma one_terminal_event_witness :
  exists w' mid last,
    process_job Sample.cfg Sample.env_retry "j1" Sample.w0
      = (Val (Some "http://moss/1"), w')
    /\ jobevent_table w' = mid ++ [last]
    /\ Forall (fun e => ev_type e ∈ loop_types) mid
    /\ ev_type last = COMPLETED_EVENT.
Proof.
  assert (Henter : enters_loop Sample.cfg Sample.env_retry "j1" Sample.w0
                     Sample.queued) by (vm_compute; auto).
  destruct (one_terminal_event Sample.cfg Sample.env_retry "j1" Sample.w0
              Sample.queued Henter (fun _ => eq_refl))
    as (out & w' & j' & mid & last & Hrun & Hev & Hall & _ & Hcase).
  assert (Hres : result (loop_exit Sample.cfg Sample.env_retry Sample.queued
                           Sample.w0) = Some Sample.report)
    by (vm_compute; reflexivity).
  rewrite Hres in Hcase. destruct Hcase as (-> & Hty & _).
  exists w', mid, last. auto.
Defined.

(** X9.  Every event a run creates refers to the job the run was started
    for. *)
Theorem events_belong_to_job cfg env jid w :
  exists new,
    jobevent_table (process_job cfg env jid w).2 = jobevent_table w ++ new
    /\ Forall (fun e => ev_job e = jid) new.
Proof.
  destruct (Job_objects_get jid w) as [j|] eqn:Hget.
  2: { unfold process_job. rewrite Hget. exists []. rewrite app_nil_r. auto. }
  destruct (Job_objects_get_Some _ _ _ Hget) as [_ Hid].
  destruct (decide (status j = INQUEUE_STATUS)) as [Hq|Hq].
  2: { rewrite (process_job_guard cfg env jid w j Hget Hq).
       exists []. rewrite app_nil_r. auto. }
  destruct (no_files cfg (paths (loop_entry cfg env j w))) eqn:Hfiles.
  { destruct (no_files_path cfg env jid w j Hget Hq Hfiles)
      as (w1 & Hrun1 & _ & _ & Hev & _).
    rewrite Hrun1. eexists. split; [exact Hev|].
    constructor; [reflexivity | constructor]. }
  assert (Henter : enters_loop cfg env jid w j) by (repeat split; assumption).
  destruct (main_path cfg env jid w j Henter)
    as (out1 & w1 & j' & Hrun1 & _ & _ & _ & Hcase).
  rewrite Hrun1. simpl.
  pose proof (loop_exit_evolves cfg env j w) as Hevo.
  destruct (ev_events _ _ _ Hevo) as (new1 & Hnew1 & Hall).
  change (jobevent_table (world (loop_entry cfg env j w)))
    with (jobevent_table w) in Hnew1.
  assert (Hexit : job_id (job (loop_exit cfg env j w)) = jid).
  { rewrite (ev_job_id _ _ _ Hevo). exact Hid. }
  assert (Hall' : Forall (fun e => ev_job e = jid) new1).
  { eapply Forall_impl; [exact Hall|]. simpl. intros e [_ He].
    rewrite He. exact Hid. }
  assert (Hdone : forall tail,
             Forall (fun e => ev_job e = jid) tail ->
             jobevent_table w1 =
               jobevent_table (world (loop_exit cfg env j w)) ++ tail ->
             exists new, jobevent_table w1 = jobevent_table w ++ new
                         /\ Forall (fun e => ev_job e = jid) new).
  { intros tail Htail He. exists (new1 ++ tail).
    split; [rewrite He, Hnew1, <- app_assoc; reflexivity|].
    apply Forall_app. auto. }
  destruct (result (loop_exit cfg env j w)) as [r|].
  - destruct Hcase as [(_ & _ & He)|(e & _ & _ & He & _)].
    + apply (Hdone [completed_event (loop_exit cfg env j w)]); [|exact He].
      constructor; [exact Hexit | constructor].
    + apply (Hdone []); [constructor | rewrite app_nil_r; exact He].
  - destruct Hcase as [_ [(_ & He)|(e & _ & He & _)]].
    + apply (Hdone [failed_event (loop_exit cfg env j w)]); [|exact He].
      constructor; [exact Hexit | constructor].
    + apply (Hdone []); [constructor | rewrite app_nil_r; exact He].
Qed.

(** ** The retries of a run and its schedule *)

Section Retries.

Variable cfg : Settings.
Variable env : Env.

Lemma retry_pairs_app l1 l2 :
  retry_pairs (l1 ++ l2) = retry_pairs l1 ++ retry_pairs l2.
Proof. unfold retry_pairs. apply omap_app. Qed.

Lemma retry_pairs_absent (tys : list EventType) l :
  Forall (fun e => ev_type e ∈ tys) l -> RETRY_EVENT ∉ tys -> retry_pairs l = [].
Proof.
  intros Hall Hno. induction Hall as [|e l He _ IH]; [reflexivity|].
  change (e :: l) with ([e] ++ l).
  rewrite retry_pairs_app, IH, app_nil_r.
  unfold retry_pairs. simpl.
  destruct (ev_type e) eqn:Hty; try reflexivity.
  exfalso. apply Hno. exact He.
Qed.

Lemma keeps_slept_fire_all hs :
  preserves (keeps (fun fr => slept (world fr))) (fire_all hs).
Proof.
  induction hs as [|h hs IH]; simpl; keep.
  - destruct h; simpl; keep.
  - exact IH.
Qed.

Lemma keeps_slept_try_body n :
  preserves (keeps (fun fr => slept (world fr))) (try_body cfg env n).
Proof.
  unfold try_body, url_phase, parse_phase.
  apply preserves_bind; [apply _ | | intros _].
  - apply preserves_bind; [apply _ | keep | intros fr].
    destruct (is_valid_moss_url env (url fr)); [keep|].
    do 2 (apply preserves_bind; [apply _ | keep | intros _]).
    apply preserves_bind; [apply _ | | intros u; keep].
    unfold MOSS_generate_url.
    apply preserves_bind; [apply _ | keep | intros fr0].
    destruct (SUPPORTED_LANGUAGES cfg !! language (job fr0)) as [[? lang]|];
      [|keep].
    apply preserves_bind; [apply _ | keep | intros _].
    apply preserves_bind; [apply _ | apply keeps_slept_fire_all | intros _].
    destruct (generate_url _ _ _).2; keep.
  - do 4 (apply preserves_bind; [apply _ | keep | intros _]).
    apply preserves_bind; [apply _ | | intros r; keep].
    unfold MOSS_generate_report.
    apply preserves_bind; [apply _ | keep | intros fr].
    apply preserves_bind; [apply _ | keep | intros _].
    destruct (generate_report env n (url fr)); keep.
Qed.

Lemma except_clauses_slept n e fr :
  slept (world (except_clauses env n e fr).2) = slept (world fr).
Proof.
  destruct e; simpl; run; try reflexivity.
  destruct (determine_load env n) as [[[] ping] avg]; reflexivity.
Qed.

(** An attempt sleeps nothing and creates no retry event by itself. *)
Lemma attempt_quiet n fr :
  slept (world (attempt cfg env n fr).2) = slept (world fr)
  /\ exists new,
       jobevent_table (world (attempt cfg env n fr).2)
         = jobevent_table (world fr) ++ new
       /\ retry_pairs new = []
       /\ count_type RETRY_EVENT new = 0.
Proof.
  split.
  - rewrite attempt_run.
    pose proof (keeps_slept_try_body n (with_num_attempts n fr)) as Hs.
    destruct (try_body cfg env n (with_num_attempts n fr)) as [[[]|e] fr1];
      simpl in *; [exact Hs|].
    rewrite except_clauses_slept. exact Hs.
  - destruct (evolves_new_events _ _ _ (preserves_attempt cfg env n fr))
      as (new & Hnew & Hall).
    exists new. split; [exact Hnew|].
    assert (Hno : RETRY_EVENT ∉ [UPLOADING_EVENT; PROCESSING_EVENT; PARSING_EVENT]).
    { rewrite list_elem_of_In. simpl. intros [H|[H|[H|[]]]]; discriminate. }
    split; [eapply retry_pairs_absent | eapply count_type_absent]; eassumption.
Qed.

(** Where the loop has arrived tells what it has retried: the attempts of
    the schedule before that point, each with one retry event and one
    sleep of its wait, in the order of the schedule. *)
Lemma arrives_trail schedule fr schedule' fr' :
  arrives cfg env schedule fr schedule' fr' ->
  exists pre new,
    schedule = pre ++ schedule'
    /\ jobevent_table (world fr') = jobevent_table (world fr) ++ new
    /\ retry_pairs new = pre
    /\ count_type RETRY_EVENT new = length pre
    /\ slept (world fr') = slept (world fr) ++ pre.*2.
Proof.
  induction 1 as [schedule fr|n t rest fr e fr1 schedule' fr' Ha _ IH].
  - exists [], []. rewrite !app_nil_r. auto.
  - destruct IH as (pre & new & Hs & Hev & Hp & Hc & Hsl).
    destruct (attempt_quiet n fr) as (Hq & new0 & Hnew0 & Hp0 & Hc0).
    rewrite Ha in Hq, Hnew0. simpl in Hq, Hnew0.
    exists ((n, t) :: pre),
           (new0 ++ [{| ev_job := job_id (job fr1); ev_type := RETRY_EVENT;
                        ev_message := RetryingIn n e t |}] ++ new).
    split; [rewrite Hs; reflexivity|].
    split; [rewrite Hev, retried_events, Hnew0, <- !app_assoc; reflexivity|].
    split; [rewrite !retry_pairs_app, Hp0, Hp; reflexivity|].
    split; [rewrite !count_type_app, Hc0, Hc; reflexivity|].
    rewrite Hsl. simpl. rewrite Hq, <- app_assoc. reflexivity.
Qed.

(** Every run of the loop retries a prefix of the schedule and then either
    has used the schedule up or leaves through a [break]. *)
Lemma loop_shape schedule fr :
  exists schedule' fr',
    arrives cfg env schedule fr schedule' fr'
    /\ ((schedule' = [] /\ (attempt_loop cfg env schedule fr).2 = fr')
        \/ (exists n t rest,
              schedule' = (n, t) :: rest
              /\ attempt cfg env n fr'
                 = (Val Break, (attempt_loop cfg env schedule fr).2))).
Proof.
  revert fr. induction schedule as [|[n t] rest IH]; intros fr.
  - exists [], fr. split; [apply arrives_here|]. left. auto.
  - rewrite attempt_loop_cons.
    destruct (attempt_returns cfg env n fr) as ([|e] & fr1 & Ha).
    + exists ((n, t) :: rest), fr. split; [apply arrives_here|].
      right. exists n, t, rest. rewrite Ha. auto.
    + rewrite Ha.
      destruct (IH (retried n e t fr1)) as (s' & fr' & Harr & Hcase).
      exists s', fr'. split; [|exact Hcase].
      eapply arrives_later; eassumption.
Qed.

End Retries.

(** ** Observations of the world and the job that a run leaves alone *)

Section Untouched.

Variable cfg : Settings.
Variable env : Env.

Context {X : Type} (f : World -> Job -> X).

Hypothesis Hlog : forall l w j, f (add_log l w) j = f w j.
Hypothesis Hcontact : forall c w j, f (contact c w) j = f w j.
Hypothesis Hsleep : forall t w j, f (add_sleep t w) j = f w j.
Hypothesis Htick : forall w j, f (tick w) j = f w j.
Hypothesis Hcount : forall w j, f (count_create w) j = f w j.
Hypothesis Hevent : forall e w j, f (add_event e w) j = f w j.
Hypothesis Hmatch : forall m w j, f (add_match m w) j = f w j.
Hypothesis Hresult : forall r w j, f (add_mossresult r w) j = f w j.
Hypothesis Hsave : forall w j, f (persist j w) j = f w j.
Hypothesis Hstatus : forall s w j, f w (with_status s j) = f w j.
Hypothesis Hstart : forall t w j, f w (with_start_date t j) = f w j.
Hypothesis Hdone : forall t w j, f w (with_completion_date t j) = f w j.

Ltac untouched_step :=
  first
    [ apply preserves_bind; [apply _ | | intros ?]
    | apply preserves_ret; apply _
    | apply preserves_raise; apply _
    | apply preserves_get; apply _
    | (intros ?; unfold keeps, observed; simpl;
       first [ reflexivity | apply Hlog | apply Hcontact | apply Hsleep
             | apply Htick | apply Hcount | apply Hevent | apply Hmatch
             | apply Hresult | apply Hsave | apply Hstatus | apply Hstart
             | apply Hdone ]) ].

Ltac untouched := repeat untouched_step.

Lemma untouched_fire_all hs : preserves (keeps (observed f)) (fire_all hs).
Proof.
  induction hs as [|h hs IH]; simpl; untouched.
  - destruct h; simpl; untouched.
  - exact IH.
Qed.

Lemma untouched_try_body n : preserves (keeps (observed f)) (try_body cfg env n).
Proof.
  unfold try_body, url_phase, parse_phase.
  apply preserves_bind; [apply _ | | intros _].
  - apply preserves_bind; [apply _ | untouched | intros fr].
    destruct (is_valid_moss_url env (url fr)); [untouched|].
    do 2 (apply preserves_bind; [apply _ | untouched | intros _]).
    apply preserves_bind; [apply _ | | intros u; untouched].
    unfold MOSS_generate_url.
    apply preserves_bind; [apply _ | untouched | intros fr0].
    destruct (SUPPORTED_LANGUAGES cfg !! language (job fr0)) as [[? lang]|];
      [|untouched].
    apply preserves_bind; [apply _ | untouched | intros _].
    apply preserves_bind; [apply _ | apply untouched_fire_all | intros _].
    destruct (generate_url _ _ _).2; untouched.
  - do 4 (apply preserves_bind; [apply _ | untouched | intros _]).
    apply preserves_bind; [apply _ | | intros r; untouched].
    unfold MOSS_generate_report.
    apply preserves_bind; [apply _ | untouched | intros fr].
    apply preserves_bind; [apply _ | untouched | intros _].
    destruct (generate_report env n (url fr)); untouched.
Qed.

Lemma untouched_attempt_loop schedule :
  preserves (keeps (observed f)) (attempt_loop cfg env schedule).
Proof.
  induction schedule as [|[n t] rest IH]; simpl; [untouched|].
  apply preserves_bind; [apply _ | | intros [|e]; [untouched|]].
  - unfold attempt.
    apply preserves_bind; [apply _ | untouched | intros _].
    apply preserves_try_except; [apply _ | | intros e].
    + apply preserves_bind; [apply _ | apply untouched_try_body | intros _].
      untouched.
    + destruct e; simpl; untouched.
      destruct (determine_load env n) as [[[] ping] avg]; untouched.
  - apply preserves_bind; [apply _ | | intros _; exact IH].
    unfold retry_tail. untouched.
Qed.

Lemma untouched_guarded_create op :
  preserves (keeps (observed f)) op ->
  preserves (keeps (observed f)) (guarded_create env op).
Proof.
  intros Hop fr. rewrite guarded_create_run.
  destruct (db_fault env (final_creates (world fr))).
  - unfold keeps, observed. simpl. apply Hcount.
  - unfold keeps. rewrite (Hop (on_world count_create fr)).
    unfold observed. simpl. apply Hcount.
Qed.

Lemma untouched_finalization : preserves (keeps (observed f)) (finalization cfg env).
Proof.
  unfold finalization.
  do 2 (apply preserves_bind; [apply _ | untouched | intros ?]).
  apply preserves_try_finally; [apply _ | |].
  - unfold finalization_try.
    apply preserves_bind; [apply _ | untouched | intros fr].
    destruct (result fr) as [r|].
    + apply preserves_bind; [apply _ | | intros pk].
      { intros fr0. unfold MOSSResult_create.
        destruct (db_fault env (final_creates (world fr0)));
          unfold keeps, observed; simpl; [apply Hcount|].
        rewrite Hresult. apply Hcount. }
      apply preserves_bind; [apply _ | | intros _].
      { induction (res_matches r) as [|m ms IH]; simpl; [untouched|].
        apply preserves_bind; [apply _ | | intros _; exact IH].
        intros fr0. rewrite materialize_match_run.
        destruct (resolved_record _ _ pk m); [|reflexivity].
        destruct (db_fault env (final_creates (world fr0)));
          unfold keeps, observed; simpl; [apply Hcount|].
        rewrite Hmatch. apply Hcount. }
      apply preserves_bind; [apply _ | | intros _; untouched].
      apply untouched_guarded_create. untouched.
    + apply preserves_bind; [apply _ | untouched | intros _].
      apply preserves_bind; [apply _ | | intros _; untouched].
      apply untouched_guarded_create. untouched.
  - unfold finalization_finally.
    apply preserves_bind; [apply _ | untouched | intros _].
    destruct (DEBUG cfg); untouched.
Qed.

Lemma untouched_run_job : preserves (keeps (observed f)) (run_job cfg env).
Proof.
  unfold run_job.
  apply preserves_bind; [apply _ | unfold setup; untouched | intros _].
  apply preserves_bind; [apply _ | untouched | intros fr].
  destruct (no_files cfg (paths fr)); [unfold fail_no_files; untouched|].
  apply preserves_bind; [apply _ | apply untouched_attempt_loop | intros _].
  apply untouched_finalization.
Qed.

End Untouched.

(** ** Retries, sleeps and the schedule *)

Lemma finalization_slept cfg env fr :
  slept (world (finalization cfg env fr).2) = slept (world fr).
Proof.
  apply (untouched_finalization cfg env (fun w _ => slept w));
    intros; reflexivity.
Qed.

(** The events of the finalization are no retry events. *)
Lemma finalization_tail cfg env fr :
  exists tail,
    jobevent_table (world (finalization cfg env fr).2)
      = jobevent_table (world fr) ++ tail
    /\ retry_pairs tail = []
    /\ count_type RETRY_EVENT tail = 0.
Proof.
  destruct (finalization_spec cfg env fr)
    as (out & fr' & Hfin & _ & _ & _ & _ & _ & Hcase).
  rewrite Hfin. simpl.
  destruct (result fr) as [r|].
  - destruct Hcase as [(_ & _ & He)|(e & _ & _ & He & _)].
    + exists [completed_event fr]. auto.
    + exists []. rewrite app_nil_r. auto.
  - destruct Hcase as [_ [(_ & He)|(e & _ & He & _)]].
    + exists [failed_event fr]. auto.
    + exists []. rewrite app_nil_r. auto.
Qed.

(** The loop of a run, seen from the world the run started in. *)
Lemma loop_exit_trail cfg env j w :
  exists pre rest new,
    retry_schedule env = pre ++ rest
    /\ jobevent_table (world (loop_exit cfg env j w)) = jobevent_table w ++ new
    /\ retry_pairs new = pre
    /\ count_type RETRY_EVENT new = length pre
    /\ slept (world (loop_exit cfg env j w)) = slept w ++ pre.*2.
Proof.
  destruct (loop_shape cfg env (retry_schedule env) (loop_entry cfg env j w))
    as (rest & fr & Harr & Hcase).
  destruct (arrives_trail cfg env _ _ _ _ Harr)
    as (pre & new & Hs & Hev & Hp & Hc & Hsl).
  change (jobevent_table (world (loop_entry cfg env j w)))
    with (jobevent_table w) in Hev.
  change (slept (world (loop_entry cfg env j w))) with (slept w) in Hsl.
  fold (loop_exit cfg env j w) in Hcase.
  destruct Hcase as [[-> Hexit]|(n & t & rest' & -> & Ha)].
  - exists pre, [], new. rewrite Hexit. auto.
  - destruct (attempt_quiet cfg env n fr) as (Hq & newb & Hnewb & Hpb & Hcb).
    rewrite Ha in Hq, Hnewb. simpl in Hq, Hnewb.
    exists pre, ((n, t) :: rest'), (new ++ newb).
    split; [exact Hs|].
    split; [rewrite Hnewb, Hev, <- app_assoc; reflexivity|].
    split; [rewrite retry_pairs_app, Hp, Hpb, app_nil_r; reflexivity|].
    split; [rewrite count_type_app, Hc, Hcb; lia|].
    rewrite Hq. exact Hsl.
Qed.

(** X8.  In a run that enters the loop the retry events, the sleeps and the
    schedule go together: the attempts retried are the first ones of the
    schedule, each of them has one [RETRY_EVENT] carrying its number and its
    wait, and the run sleeps exactly their waits, in this order; nothing
    else sleeps. *)
Theorem sleeps_follow_schedule cfg env jid w j :
  enters_loop cfg env jid w j ->
  exists pre rest new,
    retry_schedule env = pre ++ rest
    /\ jobevent_table (process_job cfg env jid w).2 = jobevent_table w ++ new
    /\ retry_pairs new = pre
    /\ count_type RETRY_EVENT new = length pre
    /\ slept (process_job cfg env jid w).2 = slept w ++ pre.*2.
Proof.
  intros Henter. rewrite (process_job_enters cfg env jid w j Henter).
  destruct (loop_exit_trail cfg env j w)
    as (pre & rest & new & Hs & Hev & Hp & Hc & Hsl).
  destruct (finalization_tail cfg env (loop_exit cfg env j w))
    as (tail & Ht & Hpt & Hct).
  pose proof (finalization_slept cfg env (loop_exit cfg env j w)) as Hfs.
  destruct (finalization cfg env (loop_exit cfg env j w)) as [out fr'].
  simpl in *.
  exists pre, rest, (new ++ tail).
  split; [exact Hs|].
  split; [rewrite Ht, Hev, <- app_assoc; reflexivity|].
  split; [rewrite retry_pairs_app, Hp, Hpt, app_nil_r; reflexivity|].
  split; [rewrite count_type_app, Hc, Hct; lia|].
  rewrite Hfs. exact Hsl.
Qed.

Lemma sleeps_follow_schedule_witness :
  retry_pairs (jobevent_table
                 (process_job Sample.cfg Sample.env_retry "j1" Sample.w0).2)
    = [(1, 0%Q); (2, 1%Q)]
  /\ slept (process_job Sample.cfg Sample.env_retry "j1" Sample.w0).2
     = [0%Q; 1%Q].
Proof.
  assert (Henter : enters_loop Sample.cfg Sample.env_retry "j1" Sample.w0
                     Sample.queued) by (vm_compute; auto).
  destruct (sleeps_follow_schedule Sample.cfg Sample.env_retry "j1" Sample.w0
              Sample.queued Henter)
    as (pre & rest & new & _ & Hev & Hp & _ & Hsl).
  assert (Hpre : pre = [(1, 0%Q); (2, 1%Q)]).
  { rewrite <- Hp.
    assert (Hnew : new = jobevent_table
                     (process_job Sample.cfg Sample.env_retry "j1" Sample.w0).2)
      by (rewrite Hev; reflexivity).
    rewrite Hnew. vm_compute. reflexivity. }
  split.
  - rewrite Hev. simpl. rewrite Hp. exact Hpre.
  - rewrite Hsl, Hpre. reflexivity.
Defined.

(** The run behind an arrival: what the loop had done when it came there. *)
Lemma arrival_trail cfg env jid w j schedule' fr :
  enters_loop cfg env jid w j ->
  arrives cfg env (retry_schedule env) (loop_entry cfg env j w) schedule' fr ->
  exists pre new,
    retry_schedule env = pre ++ schedule'
    /\ jobevent_table (world fr) = jobevent_table w ++ new
    /\ retry_pairs new = pre
    /\ Forall (fun e => ev_type e ∈ loop_types) new
    /\ slept (world fr) = slept w ++ pre.*2.
Proof.
  intros _ Harr.
  destruct (arrives_trail cfg env _ _ _ _ Harr)
    as (pre & new & Hs & Hev & Hp & _ & Hsl).
  destruct (evolves_new_events _ _ _ (arrives_evolves _ _ _ _ _ _ Harr))
    as (new' & Hev' & Hall).
  rewrite Hev in Hev'. apply app_inv_head in Hev'. subst new'.
  exists pre, new. auto.
Qed.

(** X13.  When every attempt of the schedule has been retried, the loop
    ends by exhaustion and the run fails: with a persistence layer that
    accepts the creates, [None] is returned, the job is saved as failed,
    the trail has one retry event per scheduled attempt followed by the one
    [FAILED_EVENT], and the run has slept every wait of the schedule. *)
Theorem exhausted_schedule_fails cfg env jid w j fr :
  enters_loop cfg env jid w j ->
  arrives cfg env (retry_schedule env) (loop_entry cfg env j w) [] fr ->
  reliable env ->
  exists w' j' new,
    process_job cfg env jid w = (Val None, w')
    /\ Job_objects_get jid w' = Some j'
    /\ status j' = FAILED_STATUS
    /\ jobevent_table w' = jobevent_table w ++ new ++ [failed_event fr]
    /\ retry_pairs new = retry_schedule env
    /\ Forall (fun e => ev_type e ∈ loop_types) new
    /\ slept w' = slept w ++ (retry_schedule env).*2.
Proof.
  intros Henter Harr Hrel.
  destruct (arrival_trail cfg env jid w j [] fr Henter Harr)
    as (pre & new & Hs & Hev & Hp & Hall & Hsl).
  rewrite app_nil_r in Hs. subst pre.
  destruct (arrives_in_run _ _ _ _ _ _ _ Henter Harr) as (_ & Hnone & Hexit).
  simpl in Hexit.
  destruct (main_path cfg env jid w j Henter)
    as (out & w' & j' & Hrun & Hget' & _ & _ & Hcase).
  rewrite Hexit, Hnone in Hcase.
  destruct Hcase as [Hst [(-> & He)|(e & _ & _ & k & Hk)]];
    [|rewrite Hrel in Hk; discriminate].
  exists w', j', new.
  split; [exact Hrun|]. split; [exact Hget'|]. split; [exact Hst|].
  split; [rewrite He, Hev, <- app_assoc; reflexivity|].
  split; [exact Hp|]. split; [exact Hall|].
  pose proof (finalization_slept cfg env (loop_exit cfg env j w)) as Hfs.
  rewrite (process_job_enters cfg env jid w j Henter) in Hrun.
  destruct (finalization cfg env (loop_exit cfg env j w)) as [out' fr'].
  injection Hrun as _ <-. simpl in Hfs. rewrite Hfs, Hexit, Hsl.
  reflexivity.
Qed.

Lemma exhausted_schedule_fails_witness :
  exists w' j',
    process_job Sample.cfg env_always_reset "j1" Sample.w0 = (Val None, w')
    /\ Job_objects_get "j1" w' = Some j'
    /\ status j' = FAILED_STATUS
    /\ slept w' = [0%Q; 1%Q; 2%Q; 4%Q].
Proof.
  assert (Henter : enters_loop Sample.cfg env_always_reset "j1" Sample.w0
                     Sample.queued) by (vm_compute; auto).
  assert (Harr : arrives Sample.cfg env_always_reset
                   (retry_schedule env_always_reset)
                   (loop_entry Sample.cfg env_always_reset Sample.queued Sample.w0)
                   []
                   (loop_exit Sample.cfg env_always_reset Sample.queued Sample.w0)).
  { unfold loop_exit.
    repeat (eapply arrives_later; [vm_compute; reflexivity|]).
    match goal with |- arrives _ _ _ ?a _ ?b => change b with a end.
    apply arrives_here. }
  destruct (exhausted_schedule_fails Sample.cfg env_always_reset "j1" Sample.w0
              Sample.queued _ Henter Harr (fun _ => eq_refl))
    as (w' & j' & new & Hrun & Hget & Hst & _ & _ & _ & Hsl).
  exists w', j'. auto.
Defined.

(** X18.  An attempt that succeeds ends the loop, however many attempts
    were retried before it and whatever is left of the schedule: with a
    persistence layer that accepts the creates, the run returns the url of
    the result that attempt obtained, the job is saved as completed, and
    the retry events and the sleeps are those of the attempts before it. *)
Theorem success_ends_loop cfg env jid w j n t rest fr fr3 :
  enters_loop cfg env jid w j ->
  arrives cfg env (retry_schedule env) (loop_entry cfg env j w) ((n, t) :: rest) fr ->
  try_body cfg env n (with_num_attempts n fr) = (Val tt, fr3) ->
  reliable env ->
  exists w' r j' pre new,
    retry_schedule env = pre ++ (n, t) :: rest
    /\ process_job cfg env jid w = (Val (Some (res_url r)), w')
    /\ result fr3 = Some r
    /\ loop_exit cfg env j w = fr3
    /\ Job_objects_get jid w' = Some j'
    /\ status j' = COMPLETED_STATUS
    /\ jobevent_table w' = jobevent_table w ++ new ++ [completed_event fr3]
    /\ retry_pairs new = pre
    /\ slept w' = slept w ++ pre.*2.
Proof.
  intros Henter Harr Htry Hrel.
  destruct (arrival_trail cfg env jid w j _ fr Henter Harr)
    as (pre & new & Hs & Hev & Hp & _ & Hsl).
  destruct (arrives_in_run _ _ _ _ _ _ _ Henter Harr) as (_ & _ & Hexit).
  assert (Hatt : attempt cfg env n fr = (Val Break, fr3))
    by (rewrite attempt_run, Htry; reflexivity).
  rewrite attempt_loop_cons, Hatt in Hexit. simpl in Hexit.
  pose proof (try_body_spec cfg env n (with_num_attempts n fr)) as Hb.
  rewrite Htry in Hb. destruct Hb as ((r & Hres) & _ & newb & Hnewb & Hallb & _).
  destruct (attempt_quiet cfg env n fr) as (Hq & newq & Hnewq & Hpq & _).
  rewrite Hatt in Hq, Hnewq. simpl in Hq, Hnewq.
  destruct (main_path cfg env jid w j Henter)
    as (out & w' & j' & Hrun & Hget' & _ & _ & Hcase).
  rewrite Hexit, Hres in Hcase.
  destruct Hcase as [(-> & Hst & He)|(e & _ & _ & _ & k & Hk)];
    [|rewrite Hrel in Hk; discriminate].
  exists w', r, j', pre, (new ++ newq).
  split; [exact Hs|]. split; [exact Hrun|]. split; [exact Hres|].
  split; [exact Hexit|]. split; [exact Hget'|]. split; [exact Hst|].
  split; [rewrite He, Hnewq, Hev, <- !app_assoc; reflexivity|].
  split; [rewrite retry_pairs_app, Hp, Hpq, app_nil_r; reflexivity|].
  pose proof (finalization_slept cfg env (loop_exit cfg env j w)) as Hfs.
  rewrite (process_job_enters cfg env jid w j Henter) in Hrun.
  destruct (finalization cfg env (loop_exit cfg env j w)) as [out' fr'].
  injection Hrun as _ <-. simpl in Hfs. rewrite Hfs, Hexit, Hq, Hsl.
  reflexivity.
Qed.

Lemma success_ends_loop_witness :
  exists w' j',
    process_job Sample.cfg env_recoverable "j1" Sample.w0
      = (Val (Some "http://moss/1"), w')
    /\ Job_objects_get "j1" w' = Some j'
    /\ status j' = COMPLETED_STATUS
    /\ slept w' = [0%Q].
Proof.
  assert (Henter : enters_loop Sample.cfg env_recoverable "j1" Sample.w0
                     Sample.queued) by (vm_compute; auto).
  assert (Harr : arrives Sample.cfg env_recoverable
                   (retry_schedule env_recoverable)
                   (loop_entry Sample.cfg env_recoverable Sample.queued Sample.w0)
                   [(2, 1%Q); (3, 2%Q); (4, 4%Q)]
                   (retried 1 (RecoverableMossException "busy") 0%Q
                      (attempt Sample.cfg env_recoverable 1
                         (loop_entry Sample.cfg env_recoverable Sample.queued
                            Sample.w0)).2)).
  { eapply arrives_later; [vm_compute; reflexivity|].
    match goal with |- arrives _ _ _ ?a _ ?b => change b with a end.
    apply arrives_here. }
  destruct (success_ends_loop Sample.cfg env_recoverable "j1" Sample.w0
              Sample.queued 2 1%Q [(3, 2%Q); (4, 4%Q)] _
              (loop_exit Sample.cfg env_recoverable Sample.queued Sample.w0)
              Henter Harr)
    as (w' & r & j' & pre & new & Hs & Hrun & Hres & _ & Hget & Hst & _ & _ & Hsl).
  - vm_compute. reflexivity.
  - intros k. reflexivity.
  - assert (Hr : Some r = Some Sample.report)
      by (rewrite <- Hres; vm_compute; reflexivity).
    injection Hr as ->.
    assert (Hpre : pre = [(1, 0%Q)]).
    { change (retry_schedule env_recoverable)
        with ([(1, 0%Q)] ++ (2, 1%Q) :: [(3, 2%Q); (4, 4%Q)]) in Hs.
      assert (Hl : length pre = 1).
      { apply (f_equal length) in Hs. rewrite !length_app in Hs.
        simpl in Hs. lia. }
      destruct pre as [|p [|q pre]]; simpl in Hl; try lia.
      injection Hs as <-. reflexivity. }
    exists w', j'. split; [exact Hrun|]. split; [exact Hget|].
    split; [exact Hst|]. rewrite Hsl, Hpre. reflexivity.
Defined.

(** ** What an attempt asks of MOSS *)

Section Contacts.

Variable cfg : Settings.
Variable env : Env.

Lemma fire_all_network hs fr :
  network (world (fire_all hs fr).2) = network (world fr).
Proof.
  apply (untouched_fire_all (fun w _ => network w)); intros; reflexivity.
Qed.

Lemma url_phase_valid n fr :
  is_valid_moss_url env (url fr) = true -> url_phase cfg env n fr = (Val tt, fr).
Proof. intros Hv. unfold url_phase. run. rewrite Hv. reflexivity. Qed.

(** Lines 104-134 call [generate_url] at most once, and not at all when a
    valid url is at hand. *)
Lemma url_phase_network n fr :
  exists gen,
    network (world (url_phase cfg env n fr).2) = network (world fr) ++ gen
    /\ (gen = []
        \/ (gen = [CallGenerateUrl n] /\ is_valid_moss_url env (url fr) = false)).
Proof.
  destruct (is_valid_moss_url env (url fr)) eqn:Hv.
  { rewrite (url_phase_valid n fr Hv). exists []. rewrite app_nil_r. auto. }
  unfold url_phase. run. rewrite Hv. unfold MOSS_generate_url. run.
  destruct (SUPPORTED_LANGUAGES cfg !! language (job fr)) as [[? lang]|]; simpl.
  2: { exists []. rewrite app_nil_r. auto. }
  match goal with
  | |- context [fire_all ?hs ?fr0] =>
      pose proof (fire_all_network hs fr0) as Hn;
      destruct (fire_all hs fr0) as [[[]|e] fr1]
  end; simpl in Hn.
  - destruct (generate_url _ _ _).2; simpl; exists [CallGenerateUrl n];
      rewrite Hn; auto.
  - simpl. exists [CallGenerateUrl n]. rewrite Hn. auto.
Qed.

Lemma parse_phase_network n fr :
  network (world (parse_phase env n fr).2)
  = network (world fr) ++ [CallGenerateReport n (url fr)]
  /\ url (parse_phase env n fr).2 = url fr.
Proof.
  unfold parse_phase, MOSS_generate_report. run.
  destruct (generate_report env n (url fr)); auto.
Qed.

Lemma except_clauses_network n e fr :
  network (world (except_clauses env n e fr).2)
  = network (world fr) ++
    match e with
    | EmptyResponse _ => [CallDetermineLoad n]
    | _ => []
    end.
Proof.
  destruct e; simpl; run; rewrite ?app_nil_r; try reflexivity.
  destruct (determine_load env n) as [[[] ping] avg]; reflexivity.
Qed.

(** X15.  What one attempt asks of MOSS: at most one [generate_url], and
    none when the url at hand is valid; then one [generate_report] if the
    attempt comes to line 136; and one measurement of the load exactly
    when the [try] body raised [EmptyResponse].  Nothing else goes over the
    network during an attempt. *)
Theorem attempt_contacts n fr :
  exists gen rep,
    network (world (attempt cfg env n fr).2)
    = network (world fr) ++ gen ++ rep ++
      match (try_body cfg env n (with_num_attempts n fr)).1 with
      | Raise (EmptyResponse _) => [CallDetermineLoad n]
      | _ => []
      end
    /\ (gen = []
        \/ (gen = [CallGenerateUrl n] /\ is_valid_moss_url env (url fr) = false))
    /\ (if reaches_parsing cfg env n (with_num_attempts n fr)
        then exists u, rep = [CallGenerateReport n u]
        else rep = []).
Proof.
  rewrite attempt_run. unfold try_body, reaches_parsing. rewrite bind_run.
  destruct (url_phase_network n (with_num_attempts n fr)) as (gen & Hgen & Hcase).
  change (url (with_num_attempts n fr)) with (url fr) in Hcase.
  change (network (world (with_num_attempts n fr)))
    with (network (world fr)) in Hgen.
  destruct (url_phase cfg env n (with_num_attempts n fr)) as [[[]|e] fr1];
    simpl in Hgen.
  - destruct (parse_phase_network n fr1) as [Hrep _].
    destruct (parse_phase env n fr1) as [[[]|e] fr2]; simpl in *.
    + exists gen, [CallGenerateReport n (url fr1)].
      rewrite Hrep, Hgen, app_nil_r, <- app_assoc. eauto.
    + exists gen, [CallGenerateReport n (url fr1)].
      rewrite except_clauses_network, Hrep, Hgen, <- !app_assoc.
      split; [destruct e; reflexivity|]. eauto.
  - simpl. exists gen, [].
    rewrite except_clauses_network, Hgen, <- !app_assoc.
    split; [destruct e; reflexivity|]. auto.
Qed.

(** With a valid url an attempt is lines 136-147 only. *)
Lemma attempt_with_url n fr :
  is_valid_moss_url env (url fr) = true ->
  url (attempt cfg env n fr).2 = url fr
  /\ evolves [PARSING_EVENT] fr (attempt cfg env n fr).2
  /\ exists new,
       network (world (attempt cfg env n fr).2) = network (world fr) ++ new
       /\ Forall (fun c => forall k, c <> CallGenerateUrl k) new.
Proof.
  intros Hv. rewrite attempt_run. unfold try_body. rewrite bind_run.
  rewrite (url_phase_valid n (with_num_attempts n fr) Hv).
  destruct (parse_phase_network n (with_num_attempts n fr)) as [Hnet Hurl].
  pose proof (preserves_parse_phase env n (with_num_attempts n fr)) as Hev.
  change (network (world (with_num_attempts n fr)))
    with (network (world fr)) in Hnet.
  change (url (with_num_attempts n fr)) with (url fr) in *.
  assert (Hev' : evolves [PARSING_EVENT] fr
                   (parse_phase env n (with_num_attempts n fr)).2).
  { etransitivity; [apply (evolves_with_num_attempts [PARSING_EVENT] n fr)|].
    exact Hev. }
  destruct (parse_phase env n (with_num_attempts n fr)) as [[[]|e] fr1];
    simpl in *.
  - split; [exact Hurl|]. split; [exact Hev'|].
    eexists. split; [exact Hnet|]. repeat constructor. discriminate.
  - split.
    { rewrite (keeps_except_clauses env url n e); [exact Hurl | reflexivity]. }
    split.
    { etransitivity; [exact Hev' | apply preserves_except_clauses]. }
    eexists. split; [rewrite except_clauses_network, Hnet, <- app_assoc;
                     reflexivity|].
    destruct e; repeat constructor; discriminate.
Qed.

Lemma loop_with_url schedule fr :
  is_valid_moss_url env (url fr) = true ->
  url (attempt_loop cfg env schedule fr).2 = url fr
  /\ evolves [PARSING_EVENT; RETRY_EVENT] fr (attempt_loop cfg env schedule fr).2
  /\ exists new,
       network (world (attempt_loop cfg env schedule fr).2)
         = network (world fr) ++ new
       /\ Forall (fun c => forall k, c <> CallGenerateUrl k) new.
Proof.
  revert fr. induction schedule as [|[n t] rest IH]; intros fr Hv.
  - simpl. split; [reflexivity|]. split; [reflexivity|].
    exists []. rewrite app_nil_r. auto.
  - rewrite attempt_loop_cons.
    destruct (attempt_with_url n fr Hv) as (Hu & Hev & new & Hnew & Hall).
    assert (Hev' : evolves [PARSING_EVENT; RETRY_EVENT] fr
                     (attempt cfg env n fr).2)
      by (eapply evolves_weaken; [|exact Hev]; listed).
    destruct (attempt_returns cfg env n fr) as ([|e] & fr1 & Ha);
      rewrite Ha in *; simpl in *.
    + split; [exact Hu|]. split; [exact Hev'|]. eauto.
    + assert (Hv' : is_valid_moss_url env (url (retried n e t fr1)) = true)
        by (change (url (retried n e t fr1)) with (url fr1); rewrite Hu; exact Hv).
      destruct (IH _ Hv') as (Hu2 & Hev2 & new2 & Hnew2 & Hall2).
      split; [rewrite Hu2; exact Hu|].
      split.
      { etransitivity; [exact Hev'|].
        etransitivity; [|exact Hev2].
        eapply evolves_weaken; [|apply (preserves_retry_tail n e t fr1)]. listed. }
      exists (new ++ new2).
      split; [rewrite Hnew2; change (network (world (retried n e t fr1)))
                with (network (world fr1)); rewrite Hnew, <- app_assoc;
              reflexivity|].
      apply Forall_app. auto.
Qed.

End Contacts.

(** X5.  Once a run has a valid url it keeps it: from an attempt the run
    arrives at with a valid url to the end of the loop, the url stays the
    same, [generate_url] is not called again, and only parsing and retry
    events are created - the job is not uploaded a second time when fetching
    the report fails (the intent stated at lines 107-108). *)
Theorem valid_url_is_kept cfg env jid w j schedule' fr :
  enters_loop cfg env jid w j ->
  arrives cfg env (retry_schedule env) (loop_entry cfg env j w) schedule' fr ->
  is_valid_moss_url env (url fr) = true ->
  url (loop_exit cfg env j w) = url fr
  /\ (exists calls,
        network (world (loop_exit cfg env j w)) = network (world fr) ++ calls
        /\ Forall (fun c => forall k, c <> CallGenerateUrl k) calls)
  /\ (exists new,
        jobevent_table (world (loop_exit cfg env j w))
          = jobevent_table (world fr) ++ new
        /\ Forall (fun e => ev_type e = PARSING_EVENT \/ ev_type e = RETRY_EVENT)
             new).
Proof.
  intros Henter Harr Hv.
  destruct (arrives_in_run _ _ _ _ _ _ _ Henter Harr) as (_ & _ & ->).
  destruct (loop_with_url cfg env schedule' fr Hv) as (Hu & Hev & Hnet).
  split; [exact Hu|]. split; [exact Hnet|].
  destruct (evolves_new_events _ _ _ Hev) as (new & Hnew & Hall).
  exists new. split; [exact Hnew|].
  eapply Forall_impl; [exact Hall|]. simpl. intros e.
  rewrite list_elem_of_In. simpl. intros [H|[H|[]]]; auto.
Qed.

Lemma valid_url_is_kept_witness :
  network (world (loop_exit Sample.cfg Sample.env_retry_parsing Sample.queued
                    Sample.w0))
  = [CallGenerateUrl 1; CallGenerateReport 1 (Some "http://moss/1");
     CallGenerateReport 2 (Some "http://moss/1");
     CallGenerateReport 3 (Some "http://moss/1")]
  /\ url (loop_exit Sample.cfg Sample.env_retry_parsing Sample.queued Sample.w0)
     = Some "http://moss/1".
Proof.
  assert (Henter : enters_loop Sample.cfg Sample.env_retry_parsing "j1" Sample.w0
                     Sample.queued) by (vm_compute; auto).
  assert (Harr : arrives Sample.cfg Sample.env_retry_parsing
                   (retry_schedule Sample.env_retry_parsing)
                   (loop_entry Sample.cfg Sample.env_retry_parsing Sample.queued
                      Sample.w0)
                   [(2, 1%Q); (3, 2%Q); (4, 4%Q)]
                   (retried 1 (socket_error "reset") 0%Q
                      (attempt Sample.cfg Sample.env_retry_parsing 1
                         (loop_entry Sample.cfg Sample.env_retry_parsing
                            Sample.queued Sample.w0)).2)).
  { eapply arrives_later; [vm_compute; reflexivity|].
    match goal with |- arrives _ _ _ ?a _ ?b => change b with a end.
    apply arrives_here. }
  destruct (valid_url_is_kept Sample.cfg Sample.env_retry_parsing "j1" Sample.w0
              Sample.queued _ _ Henter Harr eq_refl)
    as (Hu & _ & _).
  split; [vm_compute; reflexivity|].
  rewrite Hu. vm_compute. reflexivity.
Defined.

(** X14.  A [RecoverableMossException] or a [socket.error] raised by the
    [try] body of an attempt is always retried, and without asking the
    pinger: the retry event with the attempt number, the error and the wait
    is created, the wait is slept, nothing goes over the network, and the
    loop goes on with what is left of the schedule. *)
Theorem recoverable_is_retried cfg env jid w j n t rest fr e fr1 :
  enters_loop cfg env jid w j ->
  arrives cfg env (retry_schedule env) (loop_entry cfg env j w) ((n, t) :: rest) fr ->
  try_body cfg env n (with_num_attempts n fr) = (Raise e, fr1) ->
  (exists msg, e = RecoverableMossException msg \/ e = socket_error msg) ->
  arrives cfg env (retry_schedule env) (loop_entry cfg env j w) rest
          (retried n e t fr1)
  /\ jobevent_table (world (retried n e t fr1)) =
     jobevent_table (world fr1) ++
     [{| ev_job := jid; ev_type := RETRY_EVENT; ev_message := RetryingIn n e t |}]
  /\ slept (world (retried n e t fr1)) = slept (world fr1) ++ [t]
  /\ network (world (retried n e t fr1)) = network (world fr1).
Proof.
  intros Henter Harr Htry (msg & He).
  assert (Hatt : attempt cfg env n fr = (Val (Fallthrough e), fr1)).
  { rewrite attempt_run, Htry. destruct He as [-> | ->]; reflexivity. }
  assert (Hid : job_id (job fr1) = jid).
  { destruct (arrives_in_run _ _ _ _ _ _ _ Henter Harr) as (Hid & _).
    pose proof (preserves_try_body cfg env n (with_num_attempts n fr)) as Hev.
    rewrite Htry in Hev. simpl in Hev.
    rewrite (ev_job_id _ _ _ Hev). exact Hid. }
  split; [eapply arrives_retry; eassumption|].
  split; [rewrite retried_events, Hid; reflexivity|].
  split; reflexivity.
Qed.

Lemma recoverable_is_retried_witness :
  exists fr2,
    arrives Sample.cfg env_recoverable (retry_schedule env_recoverable)
      (loop_entry Sample.cfg env_recoverable Sample.queued Sample.w0)
      [(2, 1%Q); (3, 2%Q); (4, 4%Q)] fr2
    /\ retry_pairs (jobevent_table (world fr2)) = [(1, 0%Q)]
    /\ network (world fr2) = [CallGenerateUrl 1].
Proof.
  assert (Henter : enters_loop Sample.cfg env_recoverable "j1" Sample.w0
                     Sample.queued) by (vm_compute; auto).
  destruct (recoverable_is_retried Sample.cfg env_recoverable "j1" Sample.w0
              Sample.queued 1 0%Q [(2, 1%Q); (3, 2%Q); (4, 4%Q)] _
              (RecoverableMossException "busy") _
              Henter (arrives_here _ _ _ _) eq_refl
              (ex_intro _ "busy" (or_introl eq_refl)))
    as (Harr & Hev & _ & Hnet).
  eexists. split; [exact Harr|].
  split; [rewrite Hev | rewrite Hnet]; vm_compute; reflexivity.
Defined.

(** ** The rows a run does not touch, and the dates it sets *)

(** X7.  A run changes one row of the job table at most, the row of its
    job: the rows of all other jobs are what they were, and so is the
    table of submissions, which the run only reads. *)
Theorem other_rows_untouched cfg env jid w :
  submission_table (process_job cfg env jid w).2 = submission_table w
  /\ forall k, k <> jid ->
       job_table (process_job cfg env jid w).2 !! k = job_table w !! k.
Proof.
  unfold process_job.
  destruct (Job_objects_get jid w) as [j|] eqn:Hget; [|auto].
  destruct (Job_objects_get_Some _ _ _ Hget) as [_ Hid].
  destruct (decide (status j ≠ INQUEUE_STATUS)); [auto|].
  pose proof (untouched_run_job cfg env
                (fun w j => (job_id j, delete (job_id j) (job_table w),
                             submission_table w))) as Hk.
  specialize (Hk ltac:(reflexivity) ltac:(reflexivity) ltac:(reflexivity)
                 ltac:(reflexivity) ltac:(reflexivity) ltac:(reflexivity)
                 ltac:(reflexivity) ltac:(reflexivity)).
  assert (Hsave : forall (w : World) (j : Job),
             (job_id j, delete (job_id j) (job_table (persist j w)),
              submission_table (persist j w))
             = (job_id j, delete (job_id j) (job_table w), submission_table w)).
  { intros w0 j0. simpl. rewrite delete_insert_eq. reflexivity. }
  specialize (Hk Hsave ltac:(reflexivity) ltac:(reflexivity) ltac:(reflexivity)
                 (initial_frame j w)).
  unfold keeps, observed in Hk.
  destruct (run_job cfg env (initial_frame j w)) as [out fr]. simpl in *.
  injection Hk as Hj Hd Hs.
  split; [exact Hs|].
  intros k Hne. rewrite Hj, Hid in Hd.
  rewrite <- (lookup_delete_ne (job_table (world fr)) jid k) by congruence.
  rewrite Hd. apply lookup_delete_ne. congruence.
Qed.

(** A run that passes the guard saves the job with the first reading of
    the clock as its start date (line 68), whether it then fails for want of
    files or goes through the loop. *)
Lemma run_stores_start_date cfg env jid w j :
  Job_objects_get jid w = Some j ->
  status j = INQUEUE_STATUS ->
  exists j',
    Job_objects_get jid (process_job cfg env jid w).2 = Some j'
    /\ start_date j' = Some (now env (clock_reads w)).
Proof.
  intros Hget Hq.
  destruct (Job_objects_get_Some _ _ _ Hget) as [_ Hid].
  destruct (no_files cfg (paths (loop_entry cfg env j w))) eqn:Hfiles.
  { destruct (no_files_path cfg env jid w j Hget Hq Hfiles)
      as (w1 & Hrun1 & Hget1 & _).
    rewrite Hrun1. eexists. split; [exact Hget1 | reflexivity]. }
  assert (Henter : enters_loop cfg env jid w j) by (repeat split; assumption).
  rewrite (process_job_enters cfg env jid w j Henter).
  pose proof (loop_exit_evolves cfg env j w) as Hev.
  destruct (finalization_spec cfg env (loop_exit cfg env j w))
    as (out & fr' & Hfin & Hjid & _ & Hst & Htbl & _).
  rewrite Hfin. simpl. exists (job fr').
  assert (Hk : job_id (job (loop_exit cfg env j w)) = jid)
    by (rewrite (ev_job_id _ _ _ Hev); exact Hid).
  split.
  - eapply Job_objects_get_saved; [rewrite Htbl, Hk; reflexivity|].
    rewrite Hjid. exact Hk.
  - rewrite Hst, (ev_start _ _ _ Hev). reflexivity.
Qed.

(** ** The statuses a run stores *)

#[global] Instance saves_working_preorder : PreOrder saves_working.
Proof.
  split.
  - intros fr. exists []. rewrite app_nil_r. auto.
  - intros a b c (n1 & E1 & F1) (n2 & E2 & F2).
    exists (n1 ++ n2). rewrite E2, E1, app_assoc. split; [reflexivity|].
    apply Forall_app. auto.
Qed.

(** [job.status = s; job.save()] *)
Lemma saves_working_transition {A} s (k : unit -> M A) :
  s ∈ working_statuses ->
  (forall u, preserves saves_working (k u)) ->
  preserves saves_working (set_status s ≫= fun _ => job_save ≫= k).
Proof.
  intros Hs Hk fr. run.
  etransitivity; [|apply Hk].
  exists [with_status s (job fr)]. split; [reflexivity|].
  constructor; [exact Hs | constructor].
Qed.

Ltac working_step :=
  first
    [ apply saves_working_transition; [listed | intros ?]
    | apply preserves_bind; [apply _ | | intros ?]
    | apply preserves_ret; apply _
    | apply preserves_raise; apply _
    | apply preserves_get; apply _
    | (intros ?; exists []; rewrite app_nil_r; split; [reflexivity | constructor]) ].

Ltac working := repeat working_step.

Section Working.

Variable cfg : Settings.
Variable env : Env.

Lemma working_fire_all hs : preserves saves_working (fire_all hs).
Proof.
  induction hs as [|h hs IH]; simpl; [working|].
  apply preserves_bind; [apply _ | | intros _; exact IH].
  destruct h; simpl; working.
Qed.

Lemma working_try_body n : preserves saves_working (try_body cfg env n).
Proof.
  unfold try_body, url_phase, parse_phase.
  apply preserves_bind; [apply _ | | intros _].
  - apply preserves_bind; [apply _ | working | intros fr].
    destruct (is_valid_moss_url env (url fr)); [working|].
    apply saves_working_transition; [listed | intros _].
    apply preserves_bind; [apply _ | | intros u; working].
    unfold MOSS_generate_url.
    apply preserves_bind; [apply _ | working | intros fr0].
    destruct (SUPPORTED_LANGUAGES cfg !! language (job fr0)) as [[? lang]|];
      [|working].
    apply preserves_bind; [apply _ | working | intros _].
    apply preserves_bind; [apply _ | apply working_fire_all | intros _].
    destruct (generate_url _ _ _).2; working.
  - apply preserves_bind; [apply _ | working | intros _].
    apply saves_working_transition; [listed | intros _].
    apply preserves_bind; [apply _ | working | intros _].
    apply preserves_bind; [apply _ | | intros r; working].
    unfold MOSS_generate_report.
    apply preserves_bind; [apply _ | working | intros fr].
    apply preserves_bind; [apply _ | working | intros _].
    destruct (generate_report env n (url fr)); working.
Qed.

Lemma working_attempt_loop schedule :
  preserves saves_working (attempt_loop cfg env schedule).
Proof.
  induction schedule as [|[n t] rest IH]; simpl; [working|].
  apply preserves_bind; [apply _ | | intros [|e]; [working|]].
  - unfold attempt.
    apply preserves_bind; [apply _ | working | intros _].
    apply preserves_try_except; [apply _ | | intros e].
    + apply preserves_bind; [apply _ | apply working_try_body | intros _].
      working.
    + destruct e; simpl; working.
      destruct (determine_load env n) as [[[] ping] avg]; working.
  - apply preserves_bind; [apply _ | | intros _; exact IH].
    unfold retry_tail. working.
Qed.

End Working.

(** X11.  The statuses a run that enters the loop stores, in order: during
    the loop only [UPLOADING_STATUS], [PROCESSING_STATUS] and
    [PARSING_STATUS] - every save of the loop follows an assignment of one
    of them - and then, with the last save, a status that is not
    [INQUEUE_STATUS]; a terminal one when the persistence layer accepts the
    creates.  The job is never stored as queued again. *)
Theorem stored_statuses cfg env jid w j :
  enters_loop cfg env jid w j ->
  exists mid j',
    saves (process_job cfg env jid w).2 = saves w ++ mid ++ [j']
    /\ Forall (fun s => status s ∈ working_statuses) mid
    /\ (status j' = FAILED_STATUS \/ status j' = COMPLETED_STATUS
        \/ status j' = PARSING_STATUS)
    /\ (reliable env ->
        status j' = FAILED_STATUS \/ status j' = COMPLETED_STATUS).
Proof.
  intros Henter.
  destruct (main_path cfg env jid w j Henter)
    as (out & w' & j' & Hrun & _ & _ & Hsaves & Hcase).
  rewrite Hrun. simpl.
  destruct (working_attempt_loop cfg env (retry_schedule env)
              (loop_entry cfg env j w)) as (mid & Hmid & Hall).
  fold (loop_exit cfg env j w) in Hmid.
  change (saves (world (loop_entry cfg env j w))) with (saves w) in Hmid.
  exists mid, j'.
  split; [rewrite Hsaves, Hmid, <- app_assoc; reflexivity|].
  split; [exact Hall|].
  destruct (loop_exit_result cfg env j w) as [Hnone|[[r Hr] Hp]].
  - rewrite Hnone in Hcase. destruct Hcase as [Hs _]. auto.
  - rewrite Hr in Hcase.
    destruct Hcase as [(_ & Hs & _)|(e & _ & Hs & _ & k & Hk)].
    + auto.
    + split; [rewrite Hs, Hp; auto|].
      intros Hrel. rewrite Hrel in Hk. discriminate.
Qed.

Lemma stored_statuses_witness :
  exists mid j',
    saves (process_job Sample.cfg Sample.env_retry "j1" Sample.w0).2 = mid ++ [j']
    /\ Forall (fun s => status s ∈ working_statuses) mid
    /\ status j' = COMPLETED_STATUS.
Proof.
  assert (Henter : enters_loop Sample.cfg Sample.env_retry "j1" Sample.w0
                     Sample.queued) by (vm_compute; auto).
  destruct (stored_statuses Sample.cfg Sample.env_retry "j1" Sample.w0
              Sample.queued Henter) as (mid & j' & Hs & Hall & _ & _).
  exists mid, j'. split; [exact Hs|]. split; [exact Hall|].
  assert (Hl : last (saves (process_job Sample.cfg Sample.env_retry "j1"
                              Sample.w0).2) = Some j')
    by (rewrite Hs; change (saves Sample.w0 ++ mid ++ [j']) with (mid ++ [j']);
        apply last_snoc).
  vm_compute in Hl. injection Hl as <-. reflexivity.
Defined.

(** ** The rows of results and matches *)

Lemma length_omap_le {A B} (f : A -> option B) (l : list A) :
  length (omap f l) <= length l.
Proof.
  induction l as [|x l IH]; [reflexivity|].
  change (omap f (x :: l))
    with (match f x with Some y => y :: omap f l | None => omap f l end).
  destruct (f x); simpl; lia.
Qed.

Section Tables.

Variable cfg : Settings.
Variable env : Env.

(** Without a result the finalization writes neither table. *)
Lemma finalization_failed_tables fr :
  result fr = None ->
  mossresult_table (world (finalization cfg env fr).2) = mossresult_table (world fr)
  /\ match_table (world (finalization cfg env fr).2) = match_table (world fr).
Proof.
  intros Hres.
  unfold finalization, try_finally, finalization_try, finalization_finally.
  run. rewrite Hres. rewrite guarded_create_run. simpl.
  destruct (db_fault env (final_creates (world fr))); simpl;
    destruct (DEBUG cfg); simpl; auto.
Qed.

Lemma finalization_finally_tables fr :
  mossresult_table (world (finalization_finally cfg fr).2)
    = mossresult_table (world fr)
  /\ match_table (world (finalization_finally cfg fr).2) = match_table (world fr).
Proof.
  unfold finalization_finally. run. destruct (DEBUG cfg); auto.
Qed.

Lemma finalization_try_tables fr r :
  reliable env ->
  result fr = Some r ->
  exists fr',
    finalization_try env fr = (Val (Some (res_url r)), fr')
    /\ mossresult_table (world fr')
       = mossresult_table (world fr) ++
         [{| mr_pk := length (mossresult_table (world fr));
             mr_job := job_id (job fr); mr_url := res_url r |}]
    /\ match_table (world fr') =
       match_table (world fr) ++
       omap (resolved_record (job_id (job fr)) (submission_table (world fr))
               (length (mossresult_table (world fr))))
            (res_matches r).
Proof.
  intros Hrel Hres. unfold finalization_try. run. rewrite Hres.
  unfold MOSSResult_create at 1. rewrite Hrel.
  set (fr2 := on_world (add_mossresult _) _).
  destruct (for_each_materialize_reliable env
              (length (mossresult_table (world fr))) (res_matches r) fr2 Hrel)
    as (fr3 & Hrun & Ht & _ & Hm).
  rewrite Hrun, guarded_create_run, Hrel.
  eexists. split; [reflexivity|]. simpl. rewrite Hm, Ht. auto.
Qed.

(** With a result, and creates that go through, it writes one row of
    results and the records of the matches that resolve. *)
Lemma finalization_success_tables fr r :
  reliable env ->
  result fr = Some r ->
  let pk := length (mossresult_table (world fr)) in
  mossresult_table (world (finalization cfg env fr).2)
    = mossresult_table (world fr) ++
      [{| mr_pk := pk; mr_job := job_id (job fr); mr_url := res_url r |}]
  /\ match_table (world (finalization cfg env fr).2)
     = match_table (world fr) ++
       omap (resolved_record (job_id (job fr)) (submission_table (world fr)) pk)
            (res_matches r).
Proof.
  intros Hrel Hres pk. subst pk.
  set (fr1 := on_job (with_completion_date (now env (clock_reads (world fr))))
                (on_world tick fr)).
  assert (Hrun : finalization cfg env fr =
                 try_finally (finalization_try env) (finalization_finally cfg) fr1)
    by reflexivity.
  rewrite Hrun. unfold try_finally.
  destruct (finalization_try_tables fr1 r Hrel Hres) as (fr2 & Htry & Hr & Hm).
  rewrite Htry.
  destruct (finalization_finally_tables fr2) as [Hr' Hm'].
  destruct (finalization_finally_run cfg fr2) as (fr3 & Hfin & _).
  rewrite Hfin in *. simpl in *. rewrite Hr', Hm', Hr, Hm. auto.
Qed.

End Tables.

(** X16.  A run that enters the loop writes results only on success.  If
    the loop ends without a result, no row of results and no match is
    created.  If it ends with a result, and the creates go through, exactly
    one row of results is created, for this job and with the url of the
    result, and every match created points to that row; there are at most
    as many matches as the result has raw matches. *)
Theorem result_rows cfg env jid w j :
  enters_loop cfg env jid w j ->
  let w' := (process_job cfg env jid w).2 in
  let pk := length (mossresult_table w) in
  match result (loop_exit cfg env j w) with
  | None =>
      mossresult_table w' = mossresult_table w /\ match_table w' = match_table w
  | Some r =>
      reliable env ->
      mossresult_table w' =
        mossresult_table w ++ [{| mr_pk := pk; mr_job := jid; mr_url := res_url r |}]
      /\ exists new,
           match_table w' = match_table w ++ new
           /\ Forall (fun m => moss_result m = pk) new
           /\ length new <= length (res_matches r)
  end.
Proof.
  intros Henter w' pk. subst w'.
  pose proof Henter as (Hget & _ & _).
  destruct (Job_objects_get_Some _ _ _ Hget) as [_ Hid].
  rewrite (process_job_enters cfg env jid w j Henter).
  pose proof (loop_exit_evolves cfg env j w) as Hev.
  assert (Hr : mossresult_table (world (loop_exit cfg env j w)) = mossresult_table w)
    by (rewrite (ev_results _ _ _ Hev); reflexivity).
  assert (Hm : match_table (world (loop_exit cfg env j w)) = match_table w)
    by (rewrite (ev_matches _ _ _ Hev); reflexivity).
  assert (Hj : job_id (job (loop_exit cfg env j w)) = jid)
    by (rewrite (ev_job_id _ _ _ Hev); exact Hid).
  destruct (result (loop_exit cfg env j w)) as [r|] eqn:Hres.
  - intros Hrel.
    destruct (finalization_success_tables cfg env _ r Hrel Hres) as [Hr' Hm'].
    destruct (finalization cfg env (loop_exit cfg env j w)) as [out fr'].
    simpl in *. rewrite Hr', Hm', Hr, Hm, Hj. split; [reflexivity|].
    eexists. split; [reflexivity|]. split.
    + apply Forall_forall. intros m Hin.
      apply list_elem_of_omap in Hin. destruct Hin as (rm & _ & Hrec).
      unfold resolved_record in Hrec.
      destruct (find_submission _ (name_1 rm) _); [|discriminate].
      destruct (find_submission _ (name_2 rm) _); [|discriminate].
      injection Hrec as <-. reflexivity.
    + apply length_omap_le.
  - destruct (finalization_failed_tables cfg env _ Hres) as [Hr' Hm'].
    destruct (finalization cfg env (loop_exit cfg env j w)) as [out fr'].
    simpl in *. rewrite Hr', Hm'. auto.
Qed.

Lemma result_rows_witness :
  mossresult_table (process_job Sample.cfg Sample.env_retry "j1" Sample.w0).2
  = [{| mr_pk := 0; mr_job := "j1"; mr_url := "http://moss/1" |}]
  /\ mossresult_table (process_job Sample.cfg Sample.env_fatal "j1" Sample.w0).2
     = [].
Proof.
  split.
  - assert (Henter : enters_loop Sample.cfg Sample.env_retry "j1" Sample.w0
                       Sample.queued) by (vm_compute; auto).
    pose proof (result_rows Sample.cfg Sample.env_retry "j1" Sample.w0
                  Sample.queued Henter) as H.
    assert (Hres : result (loop_exit Sample.cfg Sample.env_retry Sample.queued
                             Sample.w0) = Some Sample.report)
      by (vm_compute; reflexivity).
    cbv zeta in H. rewrite Hres in H.
    destruct (H (fun _ => eq_refl)) as [Hr _]. exact Hr.
  - assert (Henter : enters_loop Sample.cfg Sample.env_fatal "j1" Sample.w0
                       Sample.queued) by (vm_compute; auto).
    pose proof (result_rows Sample.cfg Sample.env_fatal "j1" Sample.w0
                  Sample.queued Henter) as H.
    assert (Hres : result (loop_exit Sample.cfg Sample.env_fatal Sample.queued
                             Sample.w0) = None)
      by (vm_compute; reflexivity).
    cbv zeta in H. rewrite Hres in H. destruct H as [Hr _]. exact Hr.
Defined.

(** ** The callbacks and the language of the job *)

(** X17.  The callbacks handed to [generate_url] only record progress: each
    of them, when fired, creates exactly one event - in the order of the
    firing, of kind uploading or processing - none raises, none touches the
    network.  The only other effect is that of [on_processing_start]
    (lines 120-123): each of its firings sets [PROCESSING_STATUS] and saves
    the job, so that the saves added are one per firing, each of the job
    with that status, and the row of the job in the table then holds it;
    without such a firing the job object, the saves and the table are as
    they were. *)
Theorem callbacks_record_progress hs fr :
  let stored := with_status PROCESSING_STATUS (job fr) in
  fire_all hs fr = (Val tt, (fire_all hs fr).2)
  /\ jobevent_table (world (fire_all hs fr).2)
     = jobevent_table (world fr) ++ map (hook_event (job_id (job fr))) hs
  /\ network (world (fire_all hs fr).2) = network (world fr)
  /\ saves (world (fire_all hs fr).2)
     = saves (world fr) ++ replicate (processing_starts hs) stored
  /\ job (fire_all hs fr).2
     = (if (processing_starts hs =? 0)%nat then job fr else stored)
  /\ job_table (world (fire_all hs fr).2)
     = (if (processing_starts hs =? 0)%nat then job_table (world fr)
        else <[job_id (job fr) := stored]> (job_table (world fr))).
Proof.
  cbv zeta. revert fr. induction hs as [|h hs IH]; intros fr.
  - simpl. rewrite !app_nil_r. repeat split.
  - assert (Hstep : fire_all (h :: hs) fr = fire_all hs (fire h fr).2)
      by (destruct h; reflexivity).
    rewrite Hstep.
    destruct (IH (fire h fr).2) as (Hrun & Hev & Hnet & Hsv & Hj & Ht).
    split; [exact Hrun|].
    rewrite Hev, Hnet, Hsv, Hj, Ht. clear.
    unfold processing_starts.
    destruct h; simpl; rewrite <- ?app_assoc; repeat split;
      try reflexivity;
      destruct (length _ =? 0)%nat; try reflexivity.
    apply insert_insert_eq.
Qed.

(** X19.  A job whose language is not a key of [SUPPORTED_LANGUAGES] fails
    at its first attempt without MOSS being contacted: the lookup of line
    117 raises inside the [try], the last [except] clause logs it and
    breaks, and the run ends as failed, with no retry. *)
Theorem unknown_language_fails cfg env jid w j n t rest :
  enters_loop cfg env jid w j ->
  retry_schedule env = (n, t) :: rest ->
  is_valid_moss_url env None = false ->
  SUPPORTED_LANGUAGES cfg !! language j = None ->
  network (world (loop_exit cfg env j w)) = network w
  /\ slept (world (loop_exit cfg env j w)) = slept w
  /\ log (world (loop_exit cfg env j w))
     = log w ++ [(LINFO, StartingJob jid INQUEUE_STATUS);
                 (LERROR, UnknownError (OtherException "KeyError"))]
  /\ exists out w' j',
       process_job cfg env jid w = (out, w')
       /\ Job_objects_get jid w' = Some j'
       /\ status j' = FAILED_STATUS
       /\ (reliable env ->
           out = Val None
           /\ jobevent_table w' =
              jobevent_table w ++
              [{| ev_job := jid; ev_type := FAILED_EVENT;
                  ev_message := NoMessage |}]).
Proof.
  intros Henter Hsched Hinv Hlang.
  pose proof Henter as (Hget & Hq & _).
  destruct (Job_objects_get_Some _ _ _ Hget) as [_ Hid].
  assert (Harr : arrives cfg env (retry_schedule env) (loop_entry cfg env j w)
                   ((n, t) :: rest) (loop_entry cfg env j w))
    by (rewrite Hsched; apply arrives_here).
  set (fr1 := on_world (persist (with_status UPLOADING_STATUS
                                   (job (loop_entry cfg env j w))))
                (on_job (with_status UPLOADING_STATUS)
                   (with_num_attempts n (loop_entry cfg env j w)))).
  assert (Htry : try_body cfg env n (with_num_attempts n (loop_entry cfg env j w))
                 = (Raise (OtherException "KeyError"), fr1)).
  { unfold try_body, url_phase, MOSS_generate_url. run.
    rewrite Hinv. simpl. rewrite Hlang. reflexivity. }
  destruct (broken_attempt cfg env jid w j n t rest _ _ fr1
              (on_world (add_log (LERROR, UnknownError (OtherException "KeyError")))
                 fr1)
              Henter Harr Htry eq_refl)
    as (Hexit & _ & out & w' & j' & tail & Hrun & Hget' & Hst & Hev & _ & Hok).
  rewrite Hexit. simpl.
  split; [reflexivity|]. split; [reflexivity|].
  split; [rewrite Hid, Hq, <- app_assoc; reflexivity|].
  exists out, w', j'. split; [exact Hrun|]. split; [exact Hget'|].
  split; [exact Hst|].
  intros Hrel. destruct (Hok Hrel) as [-> ->].
  split; [reflexivity|]. rewrite Hev. simpl. unfold failed_event. simpl.
  rewrite Hid. reflexivity.
Qed.

Lemma unknown_language_fails_witness :
  network (process_job Sample.cfg Sample.env_retry "j1" w_cobol).2 = []
  /\ exists j',
       Job_objects_get "j1" (process_job Sample.cfg Sample.env_retry "j1" w_cobol).2
         = Some j'
       /\ status j' = FAILED_STATUS.
Proof.
  assert (Henter : enters_loop Sample.cfg Sample.env_retry "j1" w_cobol
                     {| job_id := "j1"; status := INQUEUE_STATUS;
                        start_date := None; completion_date := None;
                        language := "COBOL"; max_until_ignored := 10%Z;
                        max_displayed_matches := 250%Z; moss_id := 1%Z |})
    by (vm_compute; auto).
  destruct (unknown_language_fails Sample.cfg Sample.env_retry "j1" w_cobol _
              1 0%Q [(2, 1%Q); (3, 2%Q); (4, 4%Q)] Henter eq_refl eq_refl eq_refl)
    as (_ & _ & _ & out & w' & j' & Hrun & Hget & Hst & _).
  rewrite Hrun. simpl. split; [|exists j'; auto].
  assert (Hw : w' = (process_job Sample.cfg Sample.env_retry "j1" w_cobol).2)
    by (rewrite Hrun; reflexivity).
  rewrite Hw. vm_compute. reflexivity.
Defined.

(** ** The scan and the errors of the file system *)

Lemma scan_files_returns env os path files acc found :
  scan_files env os path files acc = inr found ->
  found = fold_left
            (fun acc f =>
               let file_path := path_join path f in
               if (0 <? getsize env file_path)%Z then acc ++ [file_path] else acc)
            files acc.
Proof.
  revert acc. induction files as [|f rest IH]; intros acc; simpl.
  - intros [= <-]. reflexivity.
  - destruct (getsize_error os (path_join path f)); [discriminate|]. apply IH.
Qed.

Lemma scan_types_returns env os base types acc found :
  scan_types env os base types acc = inr found ->
  found = fold_left
            (fun acc file_type =>
               let path := path_join base file_type in
               if isdir env path then <[file_type := collect_files env path]> acc
               else acc)
            types acc.
Proof.
  revert acc. induction types as [|ty rest IH]; intros acc; simpl.
  - intros [= <-]. reflexivity.
  - destruct (isdir env (path_join base ty)); [|apply IH].
    destruct (listdir_error os (path_join base ty)); [discriminate|].
    destruct (scan_files env os (path_join base ty)
                (listdir env (path_join base ty)) []) as [e|l] eqn:Hf;
      [discriminate|].
    apply scan_files_returns in Hf. subst l. apply IH.
Qed.

(** When the scan returns, it returns what the scan of a file system
    without errors finds. *)
Lemma scan_paths_returns cfg env os base found :
  scan_paths cfg env os base = inr found -> found = collect_paths cfg env base.
Proof. apply scan_types_returns. Qed.

Lemma scan_files_no_error env os path files acc :
  (forall p, getsize_error os p = None) ->
  scan_files env os path files acc
  = inr (fold_left
           (fun acc f =>
              let file_path := path_join path f in
              if (0 <? getsize env file_path)%Z then acc ++ [file_path] else acc)
           files acc).
Proof.
  intros Hg. revert acc. induction files as [|f rest IH]; intros acc; simpl.
  - reflexivity.
  - rewrite Hg. apply IH.
Qed.

Lemma scan_paths_no_error cfg env os base :
  (forall p, listdir_error os p = None) ->
  (forall p, getsize_error os p = None) ->
  scan_paths cfg env os base = inr (collect_paths cfg env base).
Proof.
  intros Hl Hg. unfold scan_paths, collect_paths.
  generalize (∅ : gmap string (list string)).
  induction (SUBMISSION_TYPES cfg) as [|ty rest IH]; intros acc; simpl.
  - reflexivity.
  - destruct (isdir env (path_join base ty)); [|apply IH].
    rewrite Hl, (scan_files_no_error env os _ _ [] Hg). apply IH.
Qed.

(** An error of the scan is one of [os.path.getsize] on an entry of a
    directory scanned, or one of [os.listdir] on such a directory. *)
Lemma scan_files_raises env os path files acc e :
  scan_files env os path files acc = inl e ->
  exists f, f ∈ files /\ getsize_error os (path_join path f) = Some e.
Proof.
  revert acc. induction files as [|f rest IH]; intros acc; simpl; [discriminate|].
  destruct (getsize_error os (path_join path f)) as [e0|] eqn:Hg.
  - intros [= <-]. exists f. split; [left | exact Hg].
  - intros H. destruct (IH _ H) as (f0 & Hin & Hf0).
    exists f0. split; [right; exact Hin | exact Hf0].
Qed.

Lemma scan_paths_raises cfg env os base e :
  scan_paths cfg env os base = inl e ->
  exists ty,
    ty ∈ SUBMISSION_TYPES cfg
    /\ isdir env (path_join base ty) = true
    /\ (listdir_error os (path_join base ty) = Some e
        \/ exists f, f ∈ listdir env (path_join base ty)
                     /\ getsize_error os (path_join (path_join base ty) f) = Some e).
Proof.
  unfold scan_paths. generalize (∅ : gmap string (list string)).
  induction (SUBMISSION_TYPES cfg) as [|ty rest IH]; intros acc; simpl;
    [discriminate|].
  destruct (isdir env (path_join base ty)) eqn:Hd.
  - destruct (listdir_error os (path_join base ty)) as [e0|] eqn:Hl.
    + intros [= <-]. exists ty. split; [left|]. auto.
    + destruct (scan_files env os (path_join base ty)
                  (listdir env (path_join base ty)) []) as [e0|l] eqn:Hf.
      * intros [= <-]. exists ty. split; [left|]. split; [exact Hd|].
        right. exact (scan_files_raises _ _ _ _ _ _ Hf).
      * intros H. destruct (IH _ H) as (ty0 & Hin & Hrest).
        exists ty0. split; [right; exact Hin | exact Hrest].
  - intros H. destruct (IH _ H) as (ty0 & Hin & Hrest).
    exists ty0. split; [right; exact Hin | exact Hrest].
Qed.

(** A run whose scan returns is the run on a file system without errors. *)
Lemma process_job_os_scanned cfg env os jid w j found :
  Job_objects_get jid w = Some j ->
  scan_paths cfg env os (JOB_UPLOAD_TEMPLATE cfg jid) = inr found ->
  process_job_os cfg env os jid w = process_job cfg env jid w.
Proof.
  intros Hget Hscan.
  destruct (Job_objects_get_Some _ _ _ Hget) as [_ Hid].
  pose proof (scan_paths_returns _ _ _ _ _ Hscan) as Hfound.
  unfold process_job_os, process_job. rewrite Hget.
  destruct (decide (status j ≠ INQUEUE_STATUS)); [reflexivity|].
  assert (Hrun : run_job_os cfg env os (initial_frame j w)
                 = run_job cfg env (initial_frame j w)).
  { unfold run_job_os, run_job, setup, read_clock. run.
    rewrite Hid, Hscan, Hfound. reflexivity. }
  rewrite Hrun. reflexivity.
Qed.

(** A run whose scan raises ends there: the clock was read and the start of
    the job logged, nothing else. *)
Lemma process_job_os_raised cfg env os jid w j e :
  Job_objects_get jid w = Some j ->
  status j = INQUEUE_STATUS ->
  scan_paths cfg env os (JOB_UPLOAD_TEMPLATE cfg jid) = inl e ->
  process_job_os cfg env os jid w
  = (Raise e, add_log (LINFO, StartingJob jid INQUEUE_STATUS) (tick w)).
Proof.
  intros Hget Hq Hscan.
  destruct (Job_objects_get_Some _ _ _ Hget) as [_ Hid].
  unfold process_job_os. rewrite Hget.
  destruct (decide (status j ≠ INQUEUE_STATUS)) as [Hne|_]; [contradiction|].
  unfold run_job_os, read_clock. run.
  rewrite Hid, Hscan, Hq. reflexivity.
Qed.

(** X6.  The start date of line 68 is assigned to the job object and reaches
    the table with the first save.  When the scan of lines 74-86 returns,
    the run - whether it then fails for want of files or goes through the
    loop - stores the job with the first reading of the clock as its start
    date.  When [os.listdir] or [os.path.getsize] raises during the scan,
    the exception leaves [process_job] before any save: the row of the job
    is as it was, without a start date of this run, and no event tells of
    the run. *)
Theorem start_date_recorded cfg env os jid w j :
  Job_objects_get jid w = Some j ->
  status j = INQUEUE_STATUS ->
  match scan_paths cfg env os (JOB_UPLOAD_TEMPLATE cfg jid) with
  | inr _ =>
      exists j',
        Job_objects_get jid (process_job_os cfg env os jid w).2 = Some j'
        /\ start_date j' = Some (now env (clock_reads w))
  | inl e =>
      exists w',
        process_job_os cfg env os jid w = (Raise e, w')
        /\ Job_objects_get jid w' = Some j
        /\ saves w' = saves w
        /\ jobevent_table w' = jobevent_table w
  end.
Proof.
  intros Hget Hq.
  destruct (scan_paths cfg env os (JOB_UPLOAD_TEMPLATE cfg jid)) as [e|found]
    eqn:Hscan.
  - rewrite (process_job_os_raised cfg env os jid w j e Hget Hq Hscan).
    eexists. split; [reflexivity|]. split; [exact Hget|].
    split; reflexivity.
  - rewrite (process_job_os_scanned cfg env os jid w j found Hget Hscan).
    exact (run_stores_start_date cfg env jid w j Hget Hq).
Qed.

Lemma start_date_recorded_witness :
  (exists j',
     Job_objects_get "j1"
       (process_job_os Sample.cfg Sample.env_retry no_os_error "j1" Sample.w0).2
       = Some j'
     /\ start_date j' = Some 100%Z)
  /\ (exists w',
        process_job_os Sample.cfg Sample.env_retry os_dangling "j1" Sample.w0
        = (Raise (socket_error "FileNotFoundError"), w')
        /\ Job_objects_get "j1" w' = Some Sample.queued
        /\ saves w' = saves Sample.w0
        /\ jobevent_table w' = jobevent_table Sample.w0).
Proof.
  split.
  - pose proof (start_date_recorded Sample.cfg Sample.env_retry no_os_error "j1"
                  Sample.w0 Sample.queued eq_refl eq_refl) as H.
    rewrite (scan_paths_no_error Sample.cfg Sample.env_retry no_os_error
               (JOB_UPLOAD_TEMPLATE Sample.cfg "j1")
               (fun _ => eq_refl) (fun _ => eq_refl)) in H.
    exact H.
  - pose proof (start_date_recorded Sample.cfg Sample.env_retry os_dangling "j1"
                  Sample.w0 Sample.queued eq_refl eq_refl) as H.
    assert (Hscan : scan_paths Sample.cfg Sample.env_retry os_dangling
                      (JOB_UPLOAD_TEMPLATE Sample.cfg "j1")
                    = inl (socket_error "FileNotFoundError"))
      by (vm_compute; reflexivity).
    rewrite Hscan in H. exact H.
Defined.

(** X12.  What a second trigger for the same job meets depends on how far
    the first run came.  After a run whose scan returned - it then ended by
    returning, or by an exception of a create of the finalization - the job
    is stored with another status than [INQUEUE_STATUS], and the second
    trigger returns at the guard and changes nothing (the purpose stated at
    lines 61-64).  After a run whose scan raised, the job is still stored as
    queued: the guard lets the second trigger through, and the job is
    processed from line 68 again. *)
Theorem second_trigger_after_run cfg env os jid w j out w' :
  Job_objects_get jid w = Some j ->
  status j = INQUEUE_STATUS ->
  process_job_os cfg env os jid w = (out, w') ->
  match scan_paths cfg env os (JOB_UPLOAD_TEMPLATE cfg jid) with
  | inr _ =>
      forall cfg2 env2 os2,
        process_job_os cfg2 env2 os2 jid w' = (Val None, w')
  | inl e =>
      out = Raise e
      /\ Job_objects_get jid w' = Some j
      /\ forall cfg2 env2 os2,
           process_job_os cfg2 env2 os2 jid w'
           = (let '(r, fr) := run_job_os cfg2 env2 os2 (initial_frame j w') in
              (r, world fr))
  end.
Proof.
  intros Hget Hq Hrun.
  destruct (scan_paths cfg env os (JOB_UPLOAD_TEMPLATE cfg jid)) as [e|found]
    eqn:Hscan.
  - rewrite (process_job_os_raised cfg env os jid w j e Hget Hq Hscan) in Hrun.
    injection Hrun as <- <-.
    assert (Hget' : Job_objects_get jid
                      (add_log (LINFO, StartingJob jid INQUEUE_STATUS) (tick w))
                    = Some j) by exact Hget.
    split; [reflexivity|]. split; [exact Hget'|].
    intros cfg2 env2 os2. unfold process_job_os. rewrite Hget'.
    destruct (decide (status j ≠ INQUEUE_STATUS)) as [Hne|_];
      [contradiction | reflexivity].
  - rewrite (process_job_os_scanned cfg env os jid w j found Hget Hscan) in Hrun.
    destruct (run_leaves_queue cfg env jid w j out w' Hget Hq Hrun)
      as (j' & Hget' & Hst).
    intros cfg2 env2 os2. unfold process_job_os. rewrite Hget'.
    destruct (decide (status j' ≠ INQUEUE_STATUS)) as [_|Hne];
      [reflexivity | contradiction].
Qed.

Lemma second_trigger_after_run_witness :
  (forall cfg2 env2 os2,
     process_job_os cfg2 env2 os2 "j1"
       (process_job_os Sample.cfg Sample.env_retry no_os_error "j1" Sample.w0).2
     = (Val None,
        (process_job_os Sample.cfg Sample.env_retry no_os_error "j1" Sample.w0).2))
  /\ Job_objects_get "j1"
       (process_job_os Sample.cfg Sample.env_retry os_dangling "j1" Sample.w0).2
     = Some Sample.queued.
Proof.
  split.
  - pose proof (second_trigger_after_run Sample.cfg Sample.env_retry no_os_error
                  "j1" Sample.w0 Sample.queued
                  (process_job_os Sample.cfg Sample.env_retry no_os_error "j1"
                     Sample.w0).1
                  (process_job_os Sample.cfg Sample.env_retry no_os_error "j1"
                     Sample.w0).2
                  eq_refl eq_refl) as H.
    rewrite (scan_paths_no_error Sample.cfg Sample.env_retry no_os_error
               (JOB_UPLOAD_TEMPLATE Sample.cfg "j1")
               (fun _ => eq_refl) (fun _ => eq_refl)) in H.
    apply H.
    destruct (process_job_os Sample.cfg Sample.env_retry no_os_error "j1"
                Sample.w0). reflexivity.
  - pose proof (second_trigger_after_run Sample.cfg Sample.env_retry os_dangling
                  "j1" Sample.w0 Sample.queued
                  (process_job_os Sample.cfg Sample.env_retry os_dangling "j1"
                     Sample.w0).1
                  (process_job_os Sample.cfg Sample.env_retry os_dangling "j1"
                     Sample.w0).2
                  eq_refl eq_refl) as H.
    assert (Hscan : scan_paths Sample.cfg Sample.env_retry os_dangling
                      (JOB_UPLOAD_TEMPLATE Sample.cfg "j1")
                    = inl (socket_error "FileNotFoundError"))
      by (vm_compute; reflexivity).
    rewrite Hscan in H.
    apply H.
    destruct (process_job_os Sample.cfg Sample.env_retry os_dangling "j1"
                Sample.w0). reflexivity.
Defined.
